(** * The node-identity miner of [cmd/cql/internal/idminer.go]

    A shallow embedding of the two mining drivers of the [cql idminer]
    command, [nonceLoop] (flag [-loop]) and [nonceGen], together with the
    properties their description states about them.

    Go's [uint64] and [int] values are integers of [Z]; every wrap-around of
    the source is written out with [wrap64].  Channels are bounded queues and
    goroutines are program counters of a small-step machine. *)

From Stdlib Require Import ZArith Lia List Bool.
From stdpp Require Import base list.
Import ListNotations.
Local Open Scope Z_scope.

(** ** Machine integers *)

(** [math.MaxUint64]. *)
Definition MaxUint64 : Z := 2 ^ 64 - 1.

(** Reduction of an integer to the range of [uint64]. *)
Definition wrap64 (z : Z) : Z := z mod 2 ^ 64.

(** The largest value a 256-bit unsigned integer can hold. *)
Definition MaxUint256 : Z := 2 ^ 256 - 1.

(** ** [mine.Uint256]

    The struct literal [mine.Uint256{D: ...}] of the source fixes the four
    [uint64] fields and their names; a field left out of a literal is zero. *)
Record Uint256 : Type := mkUint256 { A : Z; B : Z; C : Z; D : Z }.

Definition Uint256_zero : Uint256 := {| A := 0; B := 0; C := 0; D := 0 |}.

(** Limb number [k] in the numbering of [nonceGen], where
    [position == 0] selects field [A] and [position == 3] field [D]. *)
Definition limb (k : Z) (u : Uint256) : Z :=
  if k =? 0 then A u
  else if k =? 1 then B u
  else if k =? 2 then C u
  else if k =? 3 then D u
  else 0.

(** The integer held by the four limbs when bit [p] of the 256 is bit
    [p mod 64] of limb [p / 64], which is how [nonceGen] turns [startBit]
    into [position] and [shift]. *)
Definition Uint256_value (u : Uint256) : Z :=
  A u + 2 ^ 64 * B u + 2 ^ 128 * C u + 2 ^ 192 * D u.

(** ** Starting nonces *)

Module Linear.

(** [step := math.MaxUint64 / uint64(cpuCount)] of [nonceLoop]. *)
Definition step (cpuCount : Z) : Z := MaxUint64 / cpuCount.

(** [mine.Uint256{D: step*uint64(i) + uint64(rand.Uint32())}], where [r] is
    the value [rand.Uint32()] returned. *)
Definition start (cpuCount i r : Z) : Uint256 :=
  {| A := 0; B := 0; C := 0;
     D := wrap64 (wrap64 (step cpuCount * i) + r) |}.

End Linear.

Module BitSliced.

(** [step := 256 / cpuCount] of [nonceGen]; Go's [/] on [int] truncates. *)
Definition step (cpuCount : Z) : Z := 256 ÷ cpuCount.

Definition startBit (cpuCount i : Z) : Z := i * step cpuCount.

Definition position (cpuCount i : Z) : Z := startBit cpuCount i ÷ 64.

Definition shift (cpuCount i : Z) : Z := Z.rem (startBit cpuCount i) 64.

(** [uint64(1<<shift) + uint64(rand.Uint32())]. *)
Definition seed (sh r : Z) : Z := wrap64 (wrap64 (Z.shiftl 1 sh) + r).

(** The [if position == 0 ... else if position == 3] chain; when no branch
    is taken [start] keeps the zero value of its declaration. *)
Definition start (cpuCount i r : Z) : Uint256 :=
  let position := position cpuCount i in
  let shift := shift cpuCount i in
  if position =? 0 then {| A := seed shift r; B := 0; C := 0; D := 0 |}
  else if position =? 1 then {| A := 0; B := seed shift r; C := 0; D := 0 |}
  else if position =? 2 then {| A := 0; B := 0; C := seed shift r; D := 0 |}
  else if position =? 3 then {| A := 0; B := 0; C := 0; D := seed shift r |}
  else Uint256_zero.

End BitSliced.

(** What [rand.Uint32()] can return. *)
Definition is_uint32 (r : Z) : Prop := 0 <= r < 2 ^ 32.

(** ** What the miner takes from outside

    The hash, its difficulty score, the increment of a nonce and the
    validity check are code of other packages ([pow/cpuminer],
    [crypto/hash], [crypto/kms], [crypto/asymmetric]); the drivers are
    verified against any implementation of them.  The flag [-difficulty],
    the configured public key and the value of [runtime.NumCPU()] are fixed
    for one invocation and carried along with them. *)
Class MinerEnv : Type := {
  (** [hash.Hash] and its zero value *)
  Digest : Type;
  Digest_zero : Digest;
  (** [*asymmetric.PublicKey] and [publicKey.Serialize()] *)
  PublicKey : Type;
  Serialize : PublicKey -> list Byte.byte;
  (** [mine.HashBlock(data, nonce)] *)
  HashBlock : list Byte.byte -> Uint256 -> Digest;
  (** [currentHash.Difficulty()] *)
  Hash_Difficulty : Digest -> Z;
  (** [j.Inc()] *)
  Inc : Uint256 -> Uint256;
  (** [kms.IsIDPubNonceValid(&proto.RawNodeID{Hash: h}, &nonce, publicKey)] *)
  IsIDPubNonceValid : Digest -> Uint256 -> PublicKey -> bool;
  (** the key read by [getPublicFromConfig()] *)
  publicKey : PublicKey;
  (** the package variable [difficulty], set from the flag *)
  difficulty : Z;
  (** [runtime.NumCPU()] *)
  cpuCount : Z;
  (** Modelled from the spec: what a worker of [mine.ComputeBlockNonce]
      puts on its result channel when it finds its stop channel closed at
      nonce [j], as nonce, difficulty and digest.  The description has
      both accounts: a cancelled worker stops "without reporting a result"
      ([None]), and it "must guarantee a send on its result channel even
      when stopped by cancellation", of "some placeholder/sentinel result"
      ([Some]). *)
  on_cancel : Uint256 -> option (Uint256 * Z * Digest);
}.

Section Miner.
Context {env : MinerEnv}.

(** [mine.NonceInfo], as the struct literal of [nonceGen] builds it. *)
Record NonceInfo : Type := mkNonceInfo {
  Nonce : Uint256;
  Difficulty : Z;
  Hash : Digest;
}.

(** [mine.NonceInfo{}] *)
Definition NonceInfo_zero : NonceInfo :=
  {| Nonce := Uint256_zero; Difficulty := 0; Hash := Digest_zero |}.

(** What the drivers write, in the order they write it: the lines of
    [fmt.Printf], and the two entries of [ConsoleLog] that carry the
    verdict of the check.  The other entries of [ConsoleLog] (the number of
    CPUs, the start of a miner, the received signal, the [Debugf] of a
    worker of [nonceGen]) are not recorded. *)
Inductive event : Type :=
| Infof_verify_result (valid : bool)
    (* ConsoleLog.Infof("verify result: %#v\n", ...) *)
| Printf_nonce (nonce : NonceInfo)
    (* fmt.Printf("nonce: %v\n", nonce) *)
| Printf_node_id (id : Digest)
    (* fmt.Printf("node id: %v\n", nonce.Hash.String()) *)
| Printf_newline
    (* fmt.Printf("\n") *)
| Printf_mining (count current target : Z)
    (* fmt.Printf("\rnonce mining %v seconds, ...") *)
| Fatal_invalid_nonce (nonce : NonceInfo) (id : Digest).
    (* ConsoleLog.WithFields(...).Fatal("invalid nonce") *)

(** How a driver ends: it returns, with the result it has if any, or the
    process exits with a status, as [logrus]'s [Fatal] does with 1. *)
Inductive outcome : Type :=
| Returned (result : option NonceInfo)
| os_Exit (code : Z).

(** *** [nonceLoop], from the collection of the results on *)

(** The body of the collecting loop: [if max.Difficulty <
    newNonce.Difficulty { max = newNonce }]. *)
Definition collect_step (max newNonce : NonceInfo) : NonceInfo :=
  if Difficulty max <? Difficulty newNonce then newNonce else max.

(** The loop [for i := 0; i < cpuCount; i++] over the results read from
    [nonceChs[i]], from iteration [i] on.  Next to [max] it keeps, as a
    ghost, the index of the result [max] was last assigned from. *)
Fixpoint collect_from (max : NonceInfo) (from : option nat) (i : nat)
    (results : list NonceInfo) : NonceInfo * option nat :=
  match results with
  | [] => (max, from)
  | newNonce :: rest =>
      if Difficulty max <? Difficulty newNonce
      then collect_from newNonce (Some i) (S i) rest
      else collect_from max from (S i) rest
  end.

Definition collect_loop (results : list NonceInfo) : NonceInfo * option nat :=
  collect_from NonceInfo_zero None 0%nat results.

(** [max] after the loop. *)
Definition collect (results : list NonceInfo) : NonceInfo :=
  fst (collect_loop results).

(** The index of the worker whose result [max] is, if it is any. *)
Definition winner (results : list NonceInfo) : option nat :=
  snd (collect_loop results).

(** The end of [nonceLoop]: the verdict is logged, the result printed. *)
Definition nonceLoop_report (max : NonceInfo) : list event * outcome :=
  ([ Infof_verify_result (IsIDPubNonceValid (Hash max) (Nonce max) publicKey);
     Printf_nonce max;
     Printf_node_id (Hash max) ],
   Returned None).

(** [nonceLoop] once the signal is received and the results are read. *)
Definition nonceLoop_finish (results : list NonceInfo) : list event * outcome :=
  nonceLoop_report (collect results).

(** *** [nonceGen] once [wg.Wait()] has returned *)
Definition nonceGen_finish (nonce : NonceInfo) : list event * outcome :=
  if negb (IsIDPubNonceValid (Hash nonce) (Nonce nonce) publicKey)
  then ([ Printf_newline; Fatal_invalid_nonce nonce (Hash nonce) ], os_Exit 1)
  else ([ Printf_newline; Printf_nonce nonce; Printf_node_id (Hash nonce) ],
        Returned (Some nonce)).

(** Whether an event is one of the two lines that report an identity. *)
Definition reports_identity (e : event) : bool :=
  match e with
  | Printf_nonce _ | Printf_node_id _ => true
  | _ => false
  end.

(** *** [nonceGen] as a machine

    One program counter per goroutine, placed before each channel
    operation; one step is what a goroutine does from one channel
    operation to the next. *)

(** A searching goroutine. *)
Inductive worker : Type :=
| WSelect (j : Uint256)
    (* at [select], nonce [j] *)
| WProgress (j : Uint256) (currentHash : Digest) (currentDifficulty : Z)
    (* at [progressCh <- currentDifficulty] *)
| WCheck (j : Uint256) (currentHash : Digest) (currentDifficulty : Z)
    (* at [if currentDifficulty >= difficulty], before [nonceCh <- nonce] *)
| WReturn.

(** The goroutine that prints the progress. *)
Inductive printer : Type :=
| PSelect (count current : Z)
| PReturn.

(** The calling goroutine. *)
Inductive caller : Type :=
| MReceive                       (* at [nonce := <-nonceCh] *)
| MClose (nonce : NonceInfo)     (* at [close(stopCh)] *)
| MWait (nonce : NonceInfo)      (* at [wg.Wait()] *)
| MFinish (nonce : NonceInfo)    (* at [fmt.Printf("\n")] *)
| MEnd (o : outcome).

Record state : Type := mkState {
  workers : list worker;
  printer_pc : printer;
  caller_pc : caller;
  progressCh : list Z;
  nonceCh : list NonceInfo;
  stopCh : bool;                 (* [true] once closed *)
  output : list event;
}.

(** [make(chan int, 100)] *)
Definition progressCh_cap : nat := 100.

(** [make(chan mine.NonceInfo, cpuCount)] *)
Definition nonceCh_cap : nat := Z.to_nat cpuCount.

Definition publicKeyBytes : list Byte.byte := Serialize publicKey.

(** Updates of one field. *)
Definition set_worker (i : nat) (w : worker) (s : state) : state :=
  {| workers := <[i := w]> (workers s);
     printer_pc := printer_pc s; caller_pc := caller_pc s;
     progressCh := progressCh s; nonceCh := nonceCh s;
     stopCh := stopCh s; output := output s |}.

Definition set_printer (p : printer) (s : state) : state :=
  {| workers := workers s; printer_pc := p; caller_pc := caller_pc s;
     progressCh := progressCh s; nonceCh := nonceCh s;
     stopCh := stopCh s; output := output s |}.

Definition set_caller (m : caller) (s : state) : state :=
  {| workers := workers s; printer_pc := printer_pc s; caller_pc := m;
     progressCh := progressCh s; nonceCh := nonceCh s;
     stopCh := stopCh s; output := output s |}.

Definition set_progressCh (q : list Z) (s : state) : state :=
  {| workers := workers s; printer_pc := printer_pc s;
     caller_pc := caller_pc s;
     progressCh := q; nonceCh := nonceCh s;
     stopCh := stopCh s; output := output s |}.

Definition set_nonceCh (q : list NonceInfo) (s : state) : state :=
  {| workers := workers s; printer_pc := printer_pc s;
     caller_pc := caller_pc s;
     progressCh := progressCh s; nonceCh := q;
     stopCh := stopCh s; output := output s |}.

Definition close_stopCh (s : state) : state :=
  {| workers := workers s; printer_pc := printer_pc s;
     caller_pc := caller_pc s;
     progressCh := progressCh s; nonceCh := nonceCh s;
     stopCh := true; output := output s |}.

Definition print (out : list event) (s : state) : state :=
  {| workers := workers s; printer_pc := printer_pc s;
     caller_pc := caller_pc s;
     progressCh := progressCh s; nonceCh := nonceCh s;
     stopCh := stopCh s; output := output s ++ out |}.

(** One step of worker [i]; [None] when its channel operation blocks or
    it has returned. *)
Definition worker_step (i : nat) (s : state) : option state :=
  match workers s !! i with
  | Some (WSelect j) =>
      if stopCh s then Some (set_worker i WReturn s)
      else
        let currentHash := HashBlock publicKeyBytes j in
        let currentDifficulty := Hash_Difficulty currentHash in
        Some (set_worker i (WProgress j currentHash currentDifficulty) s)
  | Some (WProgress j currentHash currentDifficulty) =>
      if (length (progressCh s) <? progressCh_cap)%nat
      then Some (set_worker i (WCheck j currentHash currentDifficulty)
                   (set_progressCh (progressCh s ++ [currentDifficulty]) s))
      else None
  | Some (WCheck j currentHash currentDifficulty) =>
      if difficulty <=? currentDifficulty
      then
        let nonce := {| Nonce := j; Difficulty := currentDifficulty;
                        Hash := currentHash |} in
        if (length (nonceCh s) <? nonceCh_cap)%nat
        then Some (set_worker i WReturn (set_nonceCh (nonceCh s ++ [nonce]) s))
        else None
      else Some (set_worker i (WSelect (Inc j)) s)
  | Some WReturn | None => None
  end.

(** The three cases of the printer's [select].  When the ticker fires is
    for the clock to say: the case [on_tick] is taken as ready at any
    time. *)
Inductive printer_case : Type := on_stop | on_progress | on_tick.

Definition printer_step (c : printer_case) (s : state) : option state :=
  match printer_pc s with
  | PSelect count current =>
      match c with
      | on_stop =>
          if stopCh s then Some (set_printer PReturn s) else None
      | on_progress =>
          match progressCh s with
          | mined :: rest =>
              if current <? mined
              then Some (print [Printf_mining count mined difficulty]
                           (set_printer (PSelect count mined)
                              (set_progressCh rest s)))
              else Some (set_progressCh rest s)
          | [] => None
          end
      | on_tick =>
          Some (print [Printf_mining (count + 1) current difficulty]
                  (set_printer (PSelect (count + 1) current) s))
      end
  | PReturn => None
  end.

Definition returned (w : worker) : bool :=
  match w with WReturn => true | _ => false end.

Definition caller_step (s : state) : option state :=
  match caller_pc s with
  | MReceive =>
      match nonceCh s with
      | nonce :: rest => Some (set_caller (MClose nonce) (set_nonceCh rest s))
      | [] => None
      end
  | MClose nonce => Some (set_caller (MWait nonce) (close_stopCh s))
  | MWait nonce =>
      if forallb returned (workers s) &&
         match printer_pc s with PReturn => true | PSelect _ _ => false end
      then Some (set_caller (MFinish nonce) s)
      else None
  | MFinish nonce =>
      Some (set_caller (MEnd (snd (nonceGen_finish nonce)))
              (print (fst (nonceGen_finish nonce)) s))
  | MEnd _ => None
  end.

(** Who moves next. *)
Inductive action : Type :=
| Worker (i : nat)
| Printer (c : printer_case)
| Caller.

Definition fire (a : action) (s : state) : option state :=
  match a with
  | Worker i => worker_step i s
  | Printer c => printer_step c s
  | Caller => caller_step s
  end.

(** A schedule run from a state; [None] if it asks for a step that is
    not enabled. *)
Fixpoint run (sched : list action) (s : state) : option state :=
  match sched with
  | [] => Some s
  | a :: rest =>
      match fire a s with
      | Some s' => run rest s'
      | None => None
      end
  end.

(** The steps of [fire], one rule for each way through the three step
    functions. *)
Inductive step : action -> state -> state -> Prop :=
| step_cancelled i j s :
    workers s !! i = Some (WSelect j) ->
    stopCh s = true ->
    step (Worker i) s (set_worker i WReturn s)
| step_hash i j s :
    workers s !! i = Some (WSelect j) ->
    stopCh s = false ->
    step (Worker i) s
      (set_worker i
         (WProgress j (HashBlock publicKeyBytes j)
            (Hash_Difficulty (HashBlock publicKeyBytes j))) s)
| step_progress i j h d s :
    workers s !! i = Some (WProgress j h d) ->
    (length (progressCh s) < progressCh_cap)%nat ->
    step (Worker i) s
      (set_worker i (WCheck j h d) (set_progressCh (progressCh s ++ [d]) s))
| step_emit i j h d s :
    workers s !! i = Some (WCheck j h d) ->
    difficulty <= d ->
    (length (nonceCh s) < nonceCh_cap)%nat ->
    step (Worker i) s
      (set_worker i WReturn
         (set_nonceCh
            (nonceCh s ++ [{| Nonce := j; Difficulty := d; Hash := h |}]) s))
| step_next i j h d s :
    workers s !! i = Some (WCheck j h d) ->
    d < difficulty ->
    step (Worker i) s (set_worker i (WSelect (Inc j)) s)
| step_printer_stop count current s :
    printer_pc s = PSelect count current ->
    stopCh s = true ->
    step (Printer on_stop) s (set_printer PReturn s)
| step_printer_best count current mined rest s :
    printer_pc s = PSelect count current ->
    progressCh s = mined :: rest ->
    current < mined ->
    step (Printer on_progress) s
      (print [Printf_mining count mined difficulty]
         (set_printer (PSelect count mined) (set_progressCh rest s)))
| step_printer_skip count current mined rest s :
    printer_pc s = PSelect count current ->
    progressCh s = mined :: rest ->
    mined <= current ->
    step (Printer on_progress) s (set_progressCh rest s)
| step_printer_tick count current s :
    printer_pc s = PSelect count current ->
    step (Printer on_tick) s
      (print [Printf_mining (count + 1) current difficulty]
         (set_printer (PSelect (count + 1) current) s))
| step_receive nonce rest s :
    caller_pc s = MReceive ->
    nonceCh s = nonce :: rest ->
    step Caller s (set_caller (MClose nonce) (set_nonceCh rest s))
| step_close nonce s :
    caller_pc s = MClose nonce ->
    step Caller s (set_caller (MWait nonce) (close_stopCh s))
| step_wait nonce s :
    caller_pc s = MWait nonce ->
    forallb returned (workers s) = true ->
    printer_pc s = PReturn ->
    step Caller s (set_caller (MFinish nonce) s)
| step_finish nonce s :
    caller_pc s = MFinish nonce ->
    step Caller s
      (set_caller (MEnd (snd (nonceGen_finish nonce)))
         (print (fst (nonceGen_finish nonce)) s)).

(** The starting nonces, worker [i] having drawn [rs !! i]. *)
Fixpoint starts_from (i : nat) (rs : list Z) : list Uint256 :=
  match rs with
  | [] => []
  | r :: rest => BitSliced.start cpuCount (Z.of_nat i) r :: starts_from (S i) rest
  end.

Definition starts (rs : list Z) : list Uint256 := starts_from 0 rs.

(** The state once the goroutines are started, each worker at the
    [select] of its loop with its starting nonce.  [output] is what is
    written from then on. *)
Definition init (rs : list Z) : state :=
  {| workers := map WSelect (starts rs);
     printer_pc := PSelect 0 0;
     caller_pc := MReceive;
     progressCh := []; nonceCh := [];
     stopCh := false; output := [] |}.

(** The random draws fit the worker count. *)
Definition draws_ok (rs : list Z) : Prop :=
  length rs = Z.to_nat cpuCount /\ Forall is_uint32 rs.

Definition reachable (rs : list Z) (s : state) : Prop :=
  exists sched, run sched (init rs) = Some s.

(** No goroutine can move. *)
Definition deadlocked (s : state) : Prop := forall a, fire a s = None.

(** [nonceGen] is over. *)
Definition ended (s : state) : bool :=
  match caller_pc s with MEnd _ => true | _ => false end.

(** The result the caller holds once it has received one. *)
Definition caller_holds (m : caller) : option NonceInfo :=
  match m with
  | MClose n | MWait n | MFinish n | MEnd (Returned (Some n)) => Some n
  | MReceive | MEnd _ => None
  end.

(** A result is in flight: queued in [nonceCh] or held by the caller. *)
Definition in_flight (s : state) (n : NonceInfo) : Prop :=
  n ∈ nonceCh s \/ caller_holds (caller_pc s) = Some n.

(** *** What holds of every state [nonceGen] can be in *)

(** A result agrees with the hash of its own nonce and meets the
    target. *)
Definition consistent (n : NonceInfo) : Prop :=
  Hash n = HashBlock publicKeyBytes (Nonce n) /\
  Difficulty n = Hash_Difficulty (Hash n) /\
  difficulty <= Difficulty n.

(** The hash and the score a worker carries are those of its nonce. *)
Definition worker_consistent (w : worker) : Prop :=
  match w with
  | WProgress j h d | WCheck j h d =>
      h = HashBlock publicKeyBytes j /\ d = Hash_Difficulty h
  | WSelect _ | WReturn => True
  end.

Definition inv_consistent (s : state) : Prop :=
  Forall worker_consistent (workers s) /\
  Forall consistent (nonceCh s) /\
  (forall n, caller_holds (caller_pc s) = Some n -> consistent n).

(** The sum of [f] over the workers. *)
Fixpoint total (f : worker -> nat) (ws : list worker) : nat :=
  match ws with
  | [] => 0
  | w :: rest => f w + total f rest
  end.

(** 1 for a worker that has not returned. *)
Definition active (w : worker) : nat := if returned w then 0 else 1.

(** [stopCh] is closed from [wg.Wait()] on. *)
Definition stop_expected (m : caller) : bool :=
  match m with
  | MReceive | MClose _ => false
  | MWait _ | MFinish _ | MEnd _ => true
  end.

(** Every queued result was sent by a worker that has returned since, and
    until the caller receives one no worker has returned otherwise. *)
Definition inv_nonceCh (s : state) : Prop :=
  length (workers s) = nonceCh_cap /\
  (length (nonceCh s) + total active (workers s) <= nonceCh_cap)%nat /\
  stopCh s = stop_expected (caller_pc s) /\
  (caller_pc s = MReceive ->
     (length (nonceCh s) + total active (workers s))%nat = nonceCh_cap).

(** A worker is at the nonce [st] or has returned. *)
Definition worker_at (st : Uint256) (w : worker) : Prop :=
  match w with
  | WSelect j | WProgress j _ _ | WCheck j _ _ => j = st
  | WReturn => True
  end.

(** 1 for a worker that has not sent its progress sample yet. *)
Definition unsent (w : worker) : nat :=
  match w with
  | WSelect _ | WProgress _ _ _ => 1
  | WCheck _ _ _ | WReturn => 0
  end.

(** With a target every hash meets, no worker leaves its starting
    nonce and each sends one progress sample at most. *)
Definition inv_first_try (rs : list Z) (s : state) : Prop :=
  Forall2 worker_at (starts rs) (workers s) /\
  (forall n, in_flight s n -> Nonce n ∈ starts rs) /\
  (length (progressCh s) + total unsent (workers s) <= nonceCh_cap)%nat.

(** The progress channel holds no more than its capacity. *)
Definition inv_progressCh (s : state) : Prop :=
  (length (progressCh s) <= progressCh_cap)%nat.

(** The caller ends with a result. *)
Definition inv_returns (s : state) : Prop :=
  forall o, caller_pc s = MEnd o -> exists n, o = Returned (Some n).

(** All that is known of a state of [nonceGen] with a target every hash
    meets. *)
Definition inv_all (rs : list Z) (s : state) : Prop :=
  inv_consistent s /\ inv_nonceCh s /\ inv_first_try rs s /\ inv_returns s.

(** An event other than the two lines that report an identity. *)
Definition quiet (e : event) : bool := negb (reports_identity e).

(** From the end of [wg.Wait()] on every goroutine but the caller has
    returned; no identity is written before the caller ends with a result;
    the process exits with status 1 if it exits. *)
Definition inv_halt (s : state) : Prop :=
  match caller_pc s with
  | MFinish _ | MEnd _ =>
      forallb returned (workers s) = true /\ printer_pc s = PReturn
  | _ => True
  end /\
  match caller_pc s with
  | MEnd (Returned _) => True
  | _ => forallb quiet (output s) = true
  end /\
  (forall code, caller_pc s = MEnd (os_Exit code) -> code = 1).

(** How far a goroutine is from its return, a progress send counted
    with what it leaves in the channel. *)
Definition worker_rank (w : worker) : nat :=
  match w with
  | WSelect _ => 4
  | WProgress _ _ _ => 3
  | WCheck _ _ _ => 1
  | WReturn => 0
  end.

Definition printer_rank (p : printer) : nat :=
  match p with PSelect _ _ => 1 | PReturn => 0 end.

Definition caller_rank (m : caller) : nat :=
  match m with
  | MReceive => 4 | MClose _ => 3 | MWait _ => 2 | MFinish _ => 1 | MEnd _ => 0
  end.

Definition rank (s : state) : nat :=
  total worker_rank (workers s) + length (progressCh s) +
  printer_rank (printer_pc s) + caller_rank (caller_pc s).

(** A tick of the printer's ticker, the one step that time alone
    enables. *)
Definition is_tick (a : action) : bool :=
  match a with Printer on_tick => true | _ => false end.

(** The first worker that has not returned, from index [i] on. *)
Fixpoint first_active (i : nat) (ws : list worker) : option nat :=
  match ws with
  | [] => None
  | w :: rest => if returned w then first_active (S i) rest else Some i
  end.

(** A step that is not a tick and is enabled in [s] when the facts above
    hold of it: the caller when it can move, else the printer on the
    closed [stopCh], else the first worker that has not returned. *)
Definition next_action (s : state) : action :=
  match caller_step s with
  | Some _ => Caller
  | None =>
      match printer_step on_stop s with
      | Some _ => Printer on_stop
      | None =>
          match first_active 0 (workers s) with
          | Some i => Worker i
          | None => Caller
          end
      end
  end.

(** The schedule that follows [next_action] for [fuel] steps or to the
    end. *)
Fixpoint drive (fuel : nat) (s : state) : list action :=
  match fuel with
  | O => []
  | S fuel' =>
      if ended s then []
      else
        match fire (next_action s) s with
        | Some s' => next_action s :: drive fuel' s'
        | None => []
        end
  end.

(** Whether no goroutine of [s] can move: each worker has returned or
    is at a send on a full channel, the printer has returned, and the
    caller waits. *)
Definition worker_blocked (s : state) (w : worker) : bool :=
  match w with
  | WSelect _ => false
  | WProgress _ _ _ => negb (length (progressCh s) <? progressCh_cap)%nat
  | WCheck _ _ d =>
      (difficulty <=? d) && negb (length (nonceCh s) <? nonceCh_cap)%nat
  | WReturn => true
  end.

Definition deadlockedb (s : state) : bool :=
  forallb (worker_blocked s) (workers s) &&
  match printer_pc s with PReturn => true | PSelect _ _ => false end &&
  match caller_step s with None => true | Some _ => false end.

(** *** Tests on the state a schedule leads to *)

Definition at_progress_send (i : nat) (s : state) : bool :=
  match workers s !! i with
  | Some (WProgress _ _ _) => true
  | _ => false
  end.

Definition at_passing_check (i : nat) (s : state) : bool :=
  match workers s !! i with
  | Some (WCheck _ _ d) => difficulty <=? d
  | _ => false
  end.

Definition printer_returned (s : state) : bool :=
  match printer_pc s with PReturn => true | PSelect _ _ => false end.

Definition caller_waits (s : state) : bool :=
  match caller_pc s with MWait _ => true | _ => false end.

(** The test [chk] on the state [sched] leads to from [s0]; [false] if
    [sched] cannot be run. *)
Definition after (sched : list action) (s0 : state) (chk : state -> bool) : bool :=
  match run sched s0 with
  | Some s => chk s
  | None => false
  end.

(** *** [nonceLoop] as a machine

    The caller and its channels are those of [nonceLoop].  The worker is
    [mine.ComputeBlockNonce] of package [pow/cpuminer]. *)

(** Modelled from the spec: the worker of [mine.ComputeBlockNonce], from
    the search contract of the description: poll the cancellation signal,
    hash the current nonce, score the digest, emit the result and stop if
    the score meets the target, else go on with the next nonce.  It is at
    its [select] with nonce [j], at the send of a result on its own
    unbuffered channel, or it has returned. *)
Inductive loop_worker : Type :=
| LSelect (j : Uint256)
| LSend (n : NonceInfo)
| LReturn.

(** The calling goroutine of [nonceLoop]. *)
Inductive loop_caller : Type :=
| LSignal                                (* at [sig := <-utils.WaitForExit()] *)
| LClose (i : nat)                       (* at [close(stopChs[i])] *)
| LRead (i : nat) (max : NonceInfo)      (* at [newNonce := <-nonceChs[i]] *)
| LFinish (max : NonceInfo)              (* at the logging of the verdict *)
| LEnd.

Record loop_state : Type := mkLoopState {
  loop_workers : list loop_worker;
  stopChs : list bool;                   (* [true] once closed *)
  loop_caller_pc : loop_caller;
  collected : list NonceInfo;            (* ghost: the results read so far *)
  loop_output : list event;              (* written from the verdict on *)
}.

Definition sentinel (c : Uint256 * Z * Digest) : NonceInfo :=
  {| Nonce := fst (fst c); Difficulty := snd (fst c); Hash := snd c |}.

(** Modelled from the spec: one step of worker [i] of
    [mine.ComputeBlockNonce], from its [select] to its next channel
    operation.  With its stop channel closed it does what [on_cancel]
    says; else it hashes and scores its nonce and either is at the send of
    the result or goes on with the next nonce.  At a send it waits for the
    caller's read. *)
Definition loop_worker_step (i : nat) (s : loop_state) : option loop_state :=
  match loop_workers s !! i with
  | Some (LSelect j) =>
      let next :=
        match stopChs s !! i with
        | Some true =>
            match on_cancel j with
            | Some c => LSend (sentinel c)
            | None => LReturn
            end
        | _ =>
            let currentHash := HashBlock publicKeyBytes j in
            let currentDifficulty := Hash_Difficulty currentHash in
            if difficulty <=? currentDifficulty
            then LSend {| Nonce := j; Difficulty := currentDifficulty;
                          Hash := currentHash |}
            else LSelect (Inc j)
        end in
      Some {| loop_workers := <[i := next]> (loop_workers s);
              stopChs := stopChs s;
              loop_caller_pc := loop_caller_pc s;
              collected := collected s;
              loop_output := loop_output s |}
  | Some (LSend _) | Some LReturn | None => None
  end.

(** One step of the caller.  The read of [nonceChs[i]] takes place when
    worker [i] is at its send, and completes that send. *)
Definition loop_caller_step (s : loop_state) : option loop_state :=
  match loop_caller_pc s with
  | LSignal =>
      Some {| loop_workers := loop_workers s; stopChs := stopChs s;
              loop_caller_pc := LClose 0;
              collected := collected s; loop_output := loop_output s |}
  | LClose i =>
      if (i <? nonceCh_cap)%nat
      then Some {| loop_workers := loop_workers s;
                   stopChs := <[i := true]> (stopChs s);
                   loop_caller_pc := LClose (S i);
                   collected := collected s; loop_output := loop_output s |}
      else Some {| loop_workers := loop_workers s; stopChs := stopChs s;
                   loop_caller_pc := LRead 0 NonceInfo_zero;
                   collected := collected s; loop_output := loop_output s |}
  | LRead i max =>
      if (i <? nonceCh_cap)%nat
      then
        match loop_workers s !! i with
        | Some (LSend newNonce) =>
            Some {| loop_workers := <[i := LReturn]> (loop_workers s);
                    stopChs := stopChs s;
                    loop_caller_pc := LRead (S i) (collect_step max newNonce);
                    collected := collected s ++ [newNonce];
                    loop_output := loop_output s |}
        | _ => None
        end
      else Some {| loop_workers := loop_workers s; stopChs := stopChs s;
                   loop_caller_pc := LFinish max;
                   collected := collected s; loop_output := loop_output s |}
  | LFinish max =>
      Some {| loop_workers := loop_workers s; stopChs := stopChs s;
              loop_caller_pc := LEnd;
              collected := collected s;
              loop_output := loop_output s ++ fst (nonceLoop_report max) |}
  | LEnd => None
  end.

Inductive loop_action : Type :=
| LWorker (i : nat)
| LCaller.

Definition loop_fire (a : loop_action) (s : loop_state) : option loop_state :=
  match a with
  | LWorker i => loop_worker_step i s
  | LCaller => loop_caller_step s
  end.

Fixpoint loop_run (sched : list loop_action) (s : loop_state) : option loop_state :=
  match sched with
  | [] => Some s
  | a :: rest =>
      match loop_fire a s with
      | Some s' => loop_run rest s'
      | None => None
      end
  end.

(** The starting nonces of [nonceLoop], worker [i] having drawn
    [rs !! i]. *)
Fixpoint loop_starts_from (i : nat) (rs : list Z) : list Uint256 :=
  match rs with
  | [] => []
  | r :: rest => Linear.start cpuCount (Z.of_nat i) r :: loop_starts_from (S i) rest
  end.

(** The state once the goroutines are started: each worker at the
    [select] of its loop, the caller at the wait for the signal. *)
Definition loop_init (rs : list Z) : loop_state :=
  {| loop_workers := map LSelect (loop_starts_from 0 rs);
     stopChs := replicate (length rs) false;
     loop_caller_pc := LSignal;
     collected := [];
     loop_output := [] |}.

Definition loop_ended (s : loop_state) : bool :=
  match loop_caller_pc s with LEnd => true | _ => false end.

(** The caller is reading the results. *)
Definition collecting (s : loop_state) : bool :=
  match loop_caller_pc s with LRead _ _ => true | _ => false end.

(** The signal has been received. *)
Definition signalled (s : loop_state) : bool :=
  match loop_caller_pc s with LSignal => false | _ => true end.

Definition loop_deadlocked (s : loop_state) : Prop :=
  forall a, loop_fire a s = None.

(** The number of results read so far. *)
Definition reads_done (m : loop_caller) : nat :=
  match m with
  | LSignal | LClose _ => 0
  | LRead i _ => i
  | LFinish _ | LEnd => nonceCh_cap
  end.

(** The number of stop channels closed so far. *)
Definition closes_done (m : loop_caller) : nat :=
  match m with
  | LSignal => 0
  | LClose i => i
  | LRead _ _ | LFinish _ | LEnd => nonceCh_cap
  end.

(** The result the caller holds. *)
Definition loop_max (m : loop_caller) : NonceInfo :=
  match m with
  | LRead _ max | LFinish max => max
  | LSignal | LClose _ | LEnd => NonceInfo_zero
  end.

(** What holds of every state of [nonceLoop] when a cancelled worker
    sends: the stop channels are closed in order, and all of them before
    the first read; the workers whose results are read have returned and
    no other has; [max] is what the collecting loop makes of the results
    read. *)
Record loop_inv (s : loop_state) : Prop := mkLoopInv {
  inv_workers_length : length (loop_workers s) = nonceCh_cap;
  inv_stops_length : length (stopChs s) = nonceCh_cap;
  inv_closes_le : (closes_done (loop_caller_pc s) <= nonceCh_cap)%nat;
  inv_reads_le : (reads_done (loop_caller_pc s) <= nonceCh_cap)%nat;
  inv_stops : forall k, (k < nonceCh_cap)%nat ->
    stopChs s !! k = Some (k <? closes_done (loop_caller_pc s))%nat;
  inv_returned : forall k w, loop_workers s !! k = Some w ->
    (w = LReturn <-> (k < reads_done (loop_caller_pc s))%nat);
  inv_collected : length (collected s) = reads_done (loop_caller_pc s);
  inv_max : loop_caller_pc s <> LEnd ->
    loop_max (loop_caller_pc s) = collect (collected s) /\
    loop_output s = [];
  inv_out : loop_caller_pc s = LEnd ->
    loop_output s = fst (nonceLoop_finish (collected s));
}.

(** How far the caller is from the end. *)
Definition loop_caller_rank (m : loop_caller) : nat :=
  match m with
  | LSignal => 2 * nonceCh_cap + 4
  | LClose i => 2 * nonceCh_cap - i + 3
  | LRead i _ => nonceCh_cap - i + 2
  | LFinish _ => 1
  | LEnd => 0
  end.

(** 1 for a worker that is still searching. *)
Definition searching (w : loop_worker) : nat :=
  match w with LSelect _ => 1 | LSend _ | LReturn => 0 end.

Fixpoint loop_total (ws : list loop_worker) : nat :=
  match ws with
  | [] => 0
  | w :: rest => searching w + loop_total rest
  end.

Definition loop_rank (s : loop_state) : nat :=
  loop_total (loop_workers s) + loop_caller_rank (loop_caller_pc s).

(** The step that brings the end nearer once the signal is received: the
    caller's if it is enabled, else the one of the worker whose result the
    caller waits for. *)
Definition loop_next (s : loop_state) : loop_action :=
  match loop_caller_step s with
  | Some _ => LCaller
  | None =>
      match loop_caller_pc s with
      | LRead i _ => LWorker i
      | _ => LCaller
      end
  end.

Fixpoint loop_drive (fuel : nat) (s : loop_state) : list loop_action :=
  match fuel with
  | O => []
  | S fuel' =>
      if loop_ended s then []
      else
        match loop_fire (loop_next s) s with
        | Some s' => loop_next s :: loop_drive fuel' s'
        | None => []
        end
  end.

(** The test [chk] on the state [sched] leads to from [s0]. *)
Definition loop_after (sched : list loop_action) (s0 : loop_state)
    (chk : loop_state -> bool) : bool :=
  match loop_run sched s0 with
  | Some s => chk s
  | None => false
  end.

(** Whether nothing can move: every worker is at its send or has
    returned, and the caller cannot step. *)
Definition loop_deadlockedb (s : loop_state) : bool :=
  forallb (fun w => match w with LSelect _ => false | _ => true end)
    (loop_workers s) &&
  match loop_caller_step s with None => true | Some _ => false end.

End Miner.

(** ** A small environment to run the drivers in

    An 8-bit stand-in for the hash: the digest is the sum of the length of
    the data and of the four limbs, reduced to 8 bits, and its difficulty is
    the count of its leading zero bits.  The validity check hashes again
    and compares, and the increment carries from [A] upward. *)
Module Sample.

Definition digest (data : list Byte.byte) (nonce : Uint256) : Z :=
  (Z.of_nat (length data) + A nonce + B nonce + C nonce + D nonce) mod 2 ^ 8.

Definition leading_zeros (h : Z) : Z :=
  if h <=? 0 then 8 else Z.max 0 (8 - (Z.log2 h + 1)).

Definition inc (u : Uint256) : Uint256 :=
  let a := wrap64 (A u + 1) in
  if negb (a =? 0) then {| A := a; B := B u; C := C u; D := D u |} else
  let b := wrap64 (B u + 1) in
  if negb (b =? 0) then {| A := a; B := b; C := C u; D := D u |} else
  let c := wrap64 (C u + 1) in
  if negb (c =? 0) then {| A := a; B := b; C := c; D := D u |} else
  {| A := a; B := b; C := c; D := wrap64 (D u + 1) |}.

Definition env (target cpus : Z) : MinerEnv :=
  {| Digest := Z;
     Digest_zero := 0;
     PublicKey := list Byte.byte;
     Serialize := fun key => key;
     HashBlock := digest;
     Hash_Difficulty := leading_zeros;
     Inc := inc;
     IsIDPubNonceValid := fun id nonce key => id =? digest key nonce;
     publicKey := [];
     difficulty := target;
     cpuCount := cpus;
     on_cancel := fun _ => Some (Uint256_zero, 0, 0) |}.

(** The same with a worker that stops without a result when cancelled. *)
Definition silent_env (target cpus : Z) : MinerEnv :=
  {| Digest := Z;
     Digest_zero := 0;
     PublicKey := list Byte.byte;
     Serialize := fun key => key;
     HashBlock := digest;
     Hash_Difficulty := leading_zeros;
     Inc := inc;
     IsIDPubNonceValid := fun id nonce key => id =? digest key nonce;
     publicKey := [];
     difficulty := target;
     cpuCount := cpus;
     on_cancel := fun _ => None |}.

(** [n] times the same actions. *)
Fixpoint times (n : nat) (sched : list action) : list action :=
  match n with
  | O => []
  | S n' => sched ++ times n' sched
  end.

(** One move of each of the workers [from], ..., [from + n - 1]. *)
Fixpoint each (n from : nat) : list action :=
  match n with
  | O => []
  | S n' => Worker from :: each n' (S from)
  end.

(** Two workers and the target 7, worker 0 drawing 0 and worker 1
    drawing 1.  Worker 0 hashes its first nonce to difficulty 7, reports
    it and sends its result; worker 1 goes 99 times round its loop before
    the printer has run, then hashes once more and is at its progress
    send with 100 samples queued; the caller receives the result and
    closes [stopCh]; of the two cases of its [select] that are ready the
    printer takes the closed [stopCh]. *)
Definition stall_draws : list Z := [0; 1].

Definition stall_schedule : list action :=
  [Worker 0; Worker 0; Worker 0] ++
  times 99 [Worker 1; Worker 1; Worker 1] ++
  [Worker 1; Caller; Caller; Printer on_stop].

(** 128 workers and the target 0, every worker drawing 0.  All workers
    pass their [select] and hash; worker 0 reports and sends its result;
    the caller receives it and closes [stopCh]; the printer takes the
    closed [stopCh]; the workers 1 to 99 report, which fills the progress
    channel, and send their results. *)
Definition crowd_draws : list Z := replicate 128 0.

Definition crowd_schedule : list action :=
  each 128 0 ++
  [Worker 0; Worker 0; Caller; Caller; Printer on_stop] ++
  each 99 1 ++ each 99 1.

(** Four results of difficulties 5, 9, 3 and 9. *)
Definition result (a d : Z) : @NonceInfo (env 24 4) :=
  @mkNonceInfo (env 24 4)
    {| A := a; B := 0; C := 0; D := 0 |}
    d
    (digest [] {| A := a; B := 0; C := 0; D := 0 |}).

Definition four_results : list (@NonceInfo (env 24 4)) :=
  [result 11 5; result 12 9; result 13 3; result 14 9].

(** A result whose digest is not the hash of its nonce. *)
Definition forged : @NonceInfo (env 24 4) :=
  @mkNonceInfo (env 24 4) {| A := 12; B := 0; C := 0; D := 0 |} 9 5.

End Sample.

From Stdlib Require Import Sorted.

(** ** More of [nonceGen]: the printer, the search, the shutdown, the
    return *)

Section MinerMore.
Context {env : MinerEnv}.

(** *** What the printer goroutine writes *)

(** The seconds and the difficulty a progress line shows. *)
Definition shown (e : event) : option (Z * Z) :=
  match e with
  | Printf_mining count current _ => Some (count, current)
  | _ => None
  end.

(** The progress lines of an output, in the order written. *)
Definition displayed (out : list event) : list (Z * Z) := omap shown out.

(** The target a progress line shows. *)
Definition shown_target (e : event) : option Z :=
  match e with
  | Printf_mining _ _ target => Some target
  | _ => None
  end.

(** One progress line shows no more seconds and no greater difficulty
    than another. *)
Definition display_le (p q : Z * Z) : Prop :=
  fst p <= fst q /\ snd p <= snd q.

(** From one progress line to the next: one second more and the same
    difficulty, or the same second and a greater difficulty. *)
Definition display_next (p q : Z * Z) : Prop :=
  (fst q = fst p + 1 /\ snd q = snd p) \/ (fst q = fst p /\ snd p < snd q).

(** The lines [l] follow one another from [p] on. *)
Fixpoint display_chain (p : Z * Z) (l : list (Z * Z)) : Prop :=
  match l with
  | [] => True
  | q :: rest => display_next p q /\ display_chain q rest
  end.

(** The lines written so far follow one another from 0 seconds and
    difficulty 0, and the last of them shows the printer's [count] and
    [current]. *)
Definition inv_display (s : state) : Prop :=
  display_chain (0, 0) (displayed (output s)) /\
  match printer_pc s with
  | PSelect count current =>
      List.last (displayed (output s)) (0, 0) = (count, current)
  | PReturn => True
  end.

(** Every progress line shows the target of the flag. *)
Definition inv_target (s : state) : Prop :=
  Forall (fun e => forall t, shown_target e = Some t -> t = difficulty) (output s).

(** *** What the workers try *)

(** The nonces a worker goes through from [st]: [st], [st.Inc()], ... *)
Definition tries (st : Uint256) (k : nat) : Uint256 := Nat.iter k Inc st.

(** The difficulty a worker computes for the nonce [j]. *)
Definition score (j : Uint256) : Z :=
  Hash_Difficulty (HashBlock publicKeyBytes j).

(** No nonce before the [k]-th from [st] meets the target. *)
Definition none_before (st : Uint256) (k : nat) : Prop :=
  forall k', (k' < k)%nat -> score (tries st k') < difficulty.

(** A worker started at [st] is at a nonce none before which meets the
    target, with the hash and the score of that nonce. *)
Definition worker_on (st : Uint256) (w : worker) : Prop :=
  match w with
  | WSelect j => exists k, j = tries st k /\ none_before st k
  | WProgress j h d | WCheck j h d =>
      (exists k, j = tries st k /\ none_before st k) /\
      h = HashBlock publicKeyBytes j /\ d = Hash_Difficulty h
  | WReturn => True
  end.

(** A result holds the first nonce from [st] that meets the target,
    with its hash and its score. *)
Definition first_hit_from (st : Uint256) (n : NonceInfo) : Prop :=
  exists k,
    Nonce n = tries st k /\
    none_before st k /\
    difficulty <= score (Nonce n) /\
    Hash n = HashBlock publicKeyBytes (Nonce n) /\
    Difficulty n = score (Nonce n).

(** A result holds the first hit of some worker. *)
Definition first_hit (rs : list Z) (n : NonceInfo) : Prop :=
  exists i st, starts rs !! i = Some st /\ first_hit_from st n.

(** Every worker is on its way from its start, and every result in
    flight is a first hit. *)
Definition inv_search (rs : list Z) (s : state) : Prop :=
  Forall2 worker_on (starts rs) (workers s) /\
  (forall n, in_flight s n -> first_hit rs n).

(** In the run [sched] from [init rs] a worker has hashed a nonce of score
    [d]: after some of the steps of the run, worker [i] is at its progress
    send with the [k]-th nonce from its start, none before which meets the
    target, with the hash of that nonce and with [d], the score of that
    hash. *)
Definition hashed (rs : list Z) (sched : list action) (d : Z) : Prop :=
  exists sched1 sched2 s1 i st k,
    sched = sched1 ++ sched2 /\
    run sched1 (init rs) = Some s1 /\
    starts rs !! i = Some st /\
    none_before st k /\
    workers s1 !! i =
      Some (WProgress (tries st k) (HashBlock publicKeyBytes (tries st k)) d) /\
    d = score (tries st k).

(** Every sample queued, the printer's [current] unless it is 0 and the
    difficulty of every progress line unless it is 0 are scores of nonces
    hashed in the run [sched]. *)
Definition inv_shown (rs : list Z) (sched : list action) (s : state) : Prop :=
  Forall (hashed rs sched) (progressCh s) /\
  match printer_pc s with
  | PSelect _ current => current = 0 \/ hashed rs sched current
  | PReturn => True
  end /\
  Forall (fun p => snd p = 0 \/ hashed rs sched (snd p))
    (displayed (output s)).

(** [nonceGen] ends as the check of a first hit says. *)
Definition inv_end (rs : list Z) (s : state) : Prop :=
  forall o, caller_pc s = MEnd o ->
    exists n, first_hit rs n /\ o = snd (nonceGen_finish n).

(** The result with the [k]-th nonce from [st]. *)
Definition result_at (st : Uint256) (k : nat) : NonceInfo :=
  {| Nonce := tries st k;
     Difficulty := score (tries st k);
     Hash := HashBlock publicKeyBytes (tries st k) |}.

(** *** After [close(stopCh)] *)

(** How far a goroutine is from its return once [stopCh] is closed: a
    worker at its [select] returns; one at its progress send sends, tests
    and, at worst, comes to the [select] once more. *)
Definition shutdown_worker_rank (w : worker) : nat :=
  match w with
  | WSelect _ => 1
  | WProgress _ _ _ => 4
  | WCheck _ _ _ => 2
  | WReturn => 0
  end.

Definition shutdown_rank (s : state) : nat :=
  total shutdown_worker_rank (workers s) + length (progressCh s) +
  printer_rank (printer_pc s) + caller_rank (caller_pc s).

(** The steps of a schedule that are not ticks. *)
Definition moves (sched : list action) : nat :=
  length (filter (fun a => is_tick a = false) sched).

(** The printer returns on the closed [stopCh] only, and once the caller
    has received a result one worker at least has returned. *)
Definition inv_received (s : state) : Prop :=
  (printer_pc s = PReturn -> stopCh s = true) /\
  (caller_pc s <> MReceive ->
     (length (nonceCh s) + total active (workers s) + 1 <= nonceCh_cap)%nat).

(** *** With one CPU *)

(** A step other than a tick that a lone worker's [nonceGen] can take:
    the caller's, else the printer's on the closed [stopCh], else the
    worker's, else the printer's receive of a sample. *)
Definition lone_next (s : state) : action :=
  match caller_step s with
  | Some _ => Caller
  | None =>
      match printer_step on_stop s with
      | Some _ => Printer on_stop
      | None =>
          match worker_step 0 s with
          | Some _ => Worker 0
          | None => Printer on_progress
          end
      end
  end.

(** The schedule that follows [lone_next] for [fuel] steps or to the
    end. *)
Fixpoint lone_drive (fuel : nat) (s : state) : list action :=
  match fuel with
  | O => []
  | S fuel' =>
      if ended s then []
      else
        match fire (lone_next s) s with
        | Some s' => lone_next s :: lone_drive fuel' s'
        | None => []
        end
  end.

(** How far the lone worker is from its return when the [K]-th nonce
    from its start meets the target and it is at the [k]-th. *)
Definition lone_worker_rank (K k : nat) (w : worker) : nat :=
  match w with
  | WSelect _ => 4 * (K - k) + 4
  | WProgress _ _ _ => 4 * (K - k) + 3
  | WCheck _ _ _ => 4 * (K - k) + 1
  | WReturn => 0
  end.

(** The lone worker, started at [st], is at the [k]-th nonce, and the
    state is at the distance [m] from the end. *)
Definition lone_at (st : Uint256) (K : nat) (s : state) (m : nat) : Prop :=
  exists w k,
    workers s = [w] /\
    match w with
    | WSelect j => j = tries st k /\ (k <= K)%nat
    | WProgress j h d | WCheck j h d =>
        j = tries st k /\ (k <= K)%nat /\
        h = HashBlock publicKeyBytes j /\ d = Hash_Difficulty h
    | WReturn => True
    end /\
    m = (lone_worker_rank K k w + length (progressCh s) +
         printer_rank (printer_pc s) + caller_rank (caller_pc s))%nat.

(** *** The report of a run that returns *)

(** What the output of a run that returns ends with. *)
Definition report_of (n : NonceInfo) : list event :=
  [ Printf_newline; Printf_nonce n; Printf_node_id (Hash n) ].

(** An event is a line of [fmt.Printf]. *)
Definition is_Printf (e : event) : bool :=
  match e with
  | Printf_nonce _ | Printf_node_id _ | Printf_newline
  | Printf_mining _ _ _ => true
  | Infof_verify_result _ | Fatal_invalid_nonce _ _ => false
  end.

(** What has been written with [fmt.Printf], in the order written. *)
Definition printed (out : list event) : list event :=
  List.filter is_Printf out.

(** An event is an entry of [Fatal]. *)
Definition is_Fatal (e : event) : bool :=
  match e with Fatal_invalid_nonce _ _ => true | _ => false end.

(** An event is a progress line. *)
Definition is_progress_line (e : event) : bool :=
  match e with Printf_mining _ _ _ => true | _ => false end.

(** Before the caller ends only progress lines are written; when it
    returns, the result is one the check accepts and its report closes
    the output. *)
Definition inv_report (s : state) : Prop :=
  match caller_pc s with
  | MEnd (Returned r) =>
      exists n pre,
        r = Some n /\
        IsIDPubNonceValid (Hash n) (Nonce n) publicKey = true /\
        forallb is_progress_line pre = true /\
        output s = pre ++ report_of n
  | MEnd (os_Exit _) => True
  | _ => forallb is_progress_line (output s) = true
  end.

(** *** Tests on the state a schedule leads to *)

Definition caller_returned (s : state) : bool :=
  match caller_pc s with MEnd (Returned _) => true | _ => false end.

Definition one_result (s : state) : bool :=
  match nonceCh s with [_] => true | _ => false end.

End MinerMore.
From Stdlib Require String Ascii.

(** * The commands [help] and [transfer]

    [help.go] and the file of the [transfer] command.  What a command
    does is kept as the list of its calls to the outside, in order, with
    the way it ends. *)
Module Cli.
Import Stdlib.Strings.String Stdlib.Strings.Ascii.
Local Open Scope string_scope.

(** The bytes [\n], [\t] and the double quote of a Go string literal. *)
Definition LF : string := String "010"%char EmptyString.
Definition TAB : string := String "009"%char EmptyString.
Definition QUOTE : string := String "034"%char EmptyString.

(** A raw string literal, line by line: every line ends in [\n]. *)
Fixpoint lines (ls : list string) : string :=
  match ls with
  | [] => EmptyString
  | l :: rest => l ++ LF ++ lines rest
  end.

(** Whether every byte of a string is an ASCII byte. *)
Fixpoint is_ASCII (s : string) : bool :=
  match s with
  | EmptyString => true
  | String c rest => (nat_of_ascii c <? 128)%nat && is_ASCII rest
  end.

(** [*flag.FlagSet]: the name it was made with and what
    [PrintDefaults] writes for the flags defined in it. *)
Record FlagSet : Type := mkFlagSet {
  FlagSet_Name : string;
  PrintDefaults : string;
}.

(** [flag.NewFlagSet(name, flag.ExitOnError)]: no flag is defined yet. *)
Definition NewFlagSet (name : string) : FlagSet :=
  {| FlagSet_Name := name; PrintDefaults := EmptyString |}.

(** [Command], with the fields the two files use; a flag set is a
    pointer and may be [nil]. *)
Record Command : Type := mkCommand {
  UsageLine : string;
  Short : string;
  Long : string;
  Flag : option FlagSet;
  CommonFlag : option FlagSet;
  DebugFlag : option FlagSet;
}.

(** [CmdHelp] of [help.go]. *)
Definition CmdHelp : Command :=
  {| UsageLine := "cql help [command]";
     Short := "show help of sub commands";
     Long := lines [ EmptyString;
                     "Use " ++ QUOTE ++ "cql help <command>" ++ QUOTE ++
                     " for more information about a command." ];
     Flag := Some (NewFlagSet EmptyString);
     CommonFlag := Some (NewFlagSet EmptyString);
     DebugFlag := Some (NewFlagSet EmptyString) |}.

(** [CmdVersion] of [help.go], [CmdIDMiner] and [CmdTransfer], as they
    are declared; [init] defines their flags afterwards. *)
Definition CmdVersion : Command :=
  {| UsageLine := "cql version";
     Short := "show build version information";
     Long := lines [ EmptyString;
                     "Use " ++ QUOTE ++ "cql help <command>" ++ QUOTE ++
                     " for more information about a command." ];
     Flag := Some (NewFlagSet EmptyString);
     CommonFlag := Some (NewFlagSet EmptyString);
     DebugFlag := Some (NewFlagSet EmptyString) |}.

Definition CmdIDMiner : Command :=
  {| UsageLine := "cql idminer [common params] [-difficulty number] [-loop [true]]";
     Short := "calculate nonce and node id for config.yaml file";
     Long := lines [ EmptyString;
                     "IDMiner calculates legal node id and it's nonce. Default parameters are difficulty of 24 and";
                     "no endless loop.";
                     "e.g.";
                     "    cql idminer -difficulty 24";
                     EmptyString;
                     "If you want mining a good id, use:";
                     "    cql idminer -config ~/.cql/config.yaml -loop -difficulty 24" ];
     Flag := Some (NewFlagSet "IDMiner params");
     CommonFlag := Some (NewFlagSet "Common params");
     DebugFlag := Some (NewFlagSet "Debug params") |}.

Definition CmdTransfer : Command :=
  {| UsageLine := "cql transfer [common params] [-wait-tx-confirm] [-to-user wallet | -to-dsn dsn] [-amount count] [-token token_type]";
     Short := "transfer token to target account";
     Long := lines [ EmptyString;
                     "Transfer transfers your token to the target account or database.";
                     "The command arguments are target wallet address(or dsn), amount of token, and token type.";
                     "e.g.";
                     "    cql transfer -to-user=43602c17adcc96acf2f68964830bb6ebfbca6834961c0eca0915fcc5270e0b40 -amount=100 -token=Particle";
                     EmptyString;
                     "Since CovenantSQL is built on top of the blockchain, you need to wait for the transaction";
                     "confirmation before the transfer takes effect.";
                     "e.g.";
                     "    cql transfer -wait-tx-confirm -to-dsn=" ++ QUOTE ++
                     "cqlprotocol://xxxx" ++ QUOTE ++
                     " -amount=100 -token=Particle" ];
     Flag := Some (NewFlagSet "Transfer params");
     CommonFlag := Some (NewFlagSet "Common params");
     DebugFlag := Some (NewFlagSet "Debug params") |}.

(** ** What the two files take from outside

    The rest of package [internal] ([Command.Name], [CqlCommands],
    [addCommonFlags], [addConfigFlag], the flag [-wait-tx-confirm] and
    [wait]), the packages [client], [types] and [crypto/hash], and the
    formatting of package [fmt].  The flags of the [transfer] command are
    fixed for one invocation and carried along. *)
Class CliEnv : Type := {
  (** [fmt.Sprintf(format, args...)], all arguments strings *)
  Sprintf : string -> list string -> string;
  (** [cmd.Name()] *)
  Command_Name : Command -> string;
  (** the package variable [CqlCommands] *)
  CqlCommands : list Command;
  (** [addCommonFlags(cmd)] and [addConfigFlag(cmd)] define flags in the
      flag sets of [cmd]: the command afterwards *)
  addCommonFlags : Command -> Command;
  addConfigFlag : Command -> Command;
  (** [client.DBScheme] and [client.DBSchemeAlias], two names in ASCII *)
  DBScheme : string;
  DBSchemeAlias : string;
  DBScheme_ASCII : is_ASCII DBScheme = true;
  DBSchemeAlias_ASCII : is_ASCII DBSchemeAlias = true;
  (** [types.TokenType], [types.FromString] and [unit.Listed()] *)
  TokenType : Type;
  FromString : string -> TokenType;
  Listed : TokenType -> bool;
  (** [error], [hash.Hash] and [hash.NewHashFromStr] *)
  error : Type;
  hash_Hash : Type;
  NewHashFromStr : string -> hash_Hash + error;
  (** the hash of a transaction, and what [client.TransferToken] and
      [wait] return *)
  TxHash : Type;
  TransferToken : hash_Hash -> Z -> TokenType -> TxHash + error;
  wait : TxHash -> option error;
  (** the package variables set from the flags *)
  toUser : string;
  toDSN : string;
  amount : Z;
  tokenType : string;
  waitTxConfirmation : bool;
}.

(** How a piece of code ends: it runs to its end with a value, executes
    [return], ends the process through [Exit()], or panics. *)
Inductive ending (T : Type) : Type :=
| Done (value : T)
| Return
| Exited
| Panicked.
Arguments Done {T} value.
Arguments Return {T}.
Arguments Exited {T}.
Arguments Panicked {T}.

Section Commands.
Context {env : CliEnv}.

(** A call to the outside. *)
Inductive call : Type :=
| Do_commonFlagsInit (cmd : Command)
    (* commonFlagsInit(cmd) *)
| Do_configInit
    (* configInit() *)
| Log_Error (err : option error) (msg : string)
    (* ConsoleLog.Error(msg), ConsoleLog.WithError(err).Error(msg) *)
| Log_Info (msg : string)
    (* ConsoleLog.Info(msg) *)
| Do_SetExitStatus (n : Z)
    (* SetExitStatus(n) *)
| Do_Exit
    (* Exit() *)
| Write_Stdout (text : string)
    (* a write to os.Stdout *)
| Do_TransferToken (targetAccount : hash_Hash) (amount : Z) (unit : TokenType)
    (* client.TransferToken(targetAccount, amount, unit) *)
| Do_wait (txHash : TxHash).
    (* wait(txHash) *)

(** The calls made, in order, and the ending. *)
Definition M (T : Type) : Type := (list call * ending T)%type.

Definition ret {T} (value : T) : M T := ([], Done value).

Definition bind {T U} (m : M T) (k : T -> M U) : M U :=
  match m with
  | (calls, Done value) =>
      let (calls', e) := k value in ((calls ++ calls')%list, e)
  | (calls, Return) => (calls, Return)
  | (calls, Exited) => (calls, Exited)
  | (calls, Panicked) => (calls, Panicked)
  end.

#[local] Instance M_bind : MBind M := fun T U k m => bind m k.

(** One call that comes back. *)
Definition perform (c : call) : M unit := ([c], Done tt).

(** [Exit()] ends the process: nothing after it is run.  ([runHelp]
    relies on it when it reads [args[0]] after [MainUsage()].) *)
Definition Exit : M unit := ([Do_Exit], Exited).

(** The statement [return]. *)
Definition return_ {T} : M T := ([], Return).

(** A panic of the run time. *)
Definition panic {T} : M T := ([], Panicked).

(** [if cond { body }] *)
Definition when (cond : bool) (body : M unit) : M unit :=
  if cond then body else ret tt.

(** The body of a function without result: a [return] in it ends the
    function, not its caller. *)
Definition func (body : M unit) : M unit :=
  match body with
  | (calls, Return) => (calls, Done tt)
  | _ => body
  end.

(** ** [help.go] *)

Definition printParamHelp (flagSet : FlagSet) : M unit :=
  func (
    when (negb (FlagSet_Name flagSet =? EmptyString))
      (perform (Write_Stdout (Sprintf (LF ++ "%s:" ++ LF) [FlagSet_Name flagSet]))) ;;
    (* flagSet.SetOutput(os.Stdout); flagSet.PrintDefaults() *)
    perform (Write_Stdout (PrintDefaults flagSet))
  ).

Definition printCommandHelp (cmd : Command) : M unit :=
  func (
    perform (Write_Stdout (Sprintf ("usage: %s" ++ LF) [UsageLine cmd])) ;;
    perform (Write_Stdout (Sprintf (Long cmd) [])) ;;
    match Flag cmd with
    | Some flagSet => printParamHelp flagSet
    | None => ret tt
    end ;;
    match CommonFlag cmd with
    | Some flagSet => printParamHelp flagSet
    | None => ret tt
    end ;;
    match DebugFlag cmd with
    | Some flagSet => printParamHelp flagSet
    | None => ret tt
    end
  ).

Definition helpHead : string :=
  lines [ "cql is a tool for managing CQL database.";
          EmptyString;
          "Usage:";
          EmptyString;
          "    cql <command> [params] [arguments]";
          EmptyString;
          "The commands are:";
          EmptyString ].

Definition helpCommon : string :=
  lines [ EmptyString;
          "The common params for commands (except help and version) are:";
          EmptyString ].

Definition helpDebug : string :=
  lines [ EmptyString;
          "The debug params for commands (except help and version) are:";
          EmptyString ].

Definition helpTail : string :=
  lines [ EmptyString;
          "Use " ++ QUOTE ++ "cql help <command>" ++ QUOTE ++
          " for more information about a command." ].

(** The loop of [MainUsage] over the commands, from the buffer [output]
    on. *)
Fixpoint MainUsage_commands (cmds : list Command) (output : string) : string :=
  match cmds with
  | [] => output
  | cmd :: rest =>
      if Command_Name cmd =? "help" then MainUsage_commands rest output
      else
        MainUsage_commands rest
          (output ++
           Sprintf (TAB ++ "%-10s" ++ TAB ++ "%s" ++ LF)
             [Command_Name cmd; Short cmd])
  end.

(** [MainUsage]: the text is put together in a buffer and written in
    one piece, as a format; writing the defaults of a flag set that is
    [nil] panics. *)
Definition MainUsage : M unit :=
  func (
    let output := helpHead in
    let output := MainUsage_commands CqlCommands output in
    let CmdHelp := addConfigFlag (addCommonFlags CmdHelp) in
    let output := output ++ helpCommon in
    match CommonFlag CmdHelp with
    | None => panic
    | Some flagSet =>
        let output := output ++ PrintDefaults flagSet in
        let output := output ++ helpDebug in
        match DebugFlag CmdHelp with
        | None => panic
        | Some flagSet =>
            let output := output ++ PrintDefaults flagSet in
            let output := output ++ helpTail in
            perform (Write_Stdout (Sprintf output [])) ;;
            Exit
        end
    end
  ).

(** The loop of [runHelp] over the commands and what follows it. *)
Fixpoint runHelp_commands (cmdName : string) (cmds : list Command) : M unit :=
  match cmds with
  | [] =>
      (* Not support command *)
      perform (Do_SetExitStatus 2) ;;
      MainUsage
  | command :: rest =>
      if negb (Command_Name command =? cmdName)
      then runHelp_commands cmdName rest
      else printCommandHelp command ;; return_
  end.

Definition runHelp (cmd : Command) (args : list string) : M unit :=
  func (
    when (negb (List.length args =? 1)%nat)
      (when (1 <? List.length args)%nat
         (* Don't support multiple commands *)
         (perform (Do_SetExitStatus 2)) ;;
       MainUsage) ;;
    match args with
    | [] => panic               (* args[0] *)
    | cmdName :: _ => runHelp_commands cmdName CqlCommands
    end
  ).

(** ** The [transfer] command *)

(** [strings.HasPrefix(s, prefix)] *)
Definition HasPrefix (s prefix : string) : bool := String.prefix prefix s.

(** Whether the byte [c] is one of [cutset]. *)
Fixpoint in_cutset (c : ascii) (cutset : string) : bool :=
  match cutset with
  | EmptyString => false
  | String x rest => Ascii.eqb c x || in_cutset c rest
  end.

(** [strings.TrimLeft(s, cutset)] for a [cutset] of ASCII bytes, as the
    two it is called with are: the leading bytes of [s] that are in
    [cutset] are removed.  (A byte of [s] that belongs to a longer code
    point is in no such set.) *)
Fixpoint TrimLeft (s cutset : string) : string :=
  match s with
  | EmptyString => EmptyString
  | String c rest => if in_cutset c cutset then TrimLeft rest cutset else s
  end.

(** Every byte of [s] is one of [cutset]. *)
Fixpoint all_in (s cutset : string) : bool :=
  match s with
  | EmptyString => true
  | String c rest => in_cutset c cutset && all_in rest cutset
  end.

(** A string is empty or begins with a byte of neither scheme's
    cutset. *)
Definition clear_start (id : string) : Prop :=
  match id with
  | EmptyString => True
  | String c _ =>
      in_cutset c (DBScheme ++ "://") = false /\
      in_cutset c (DBSchemeAlias ++ "://") = false
  end.

(** The address [runTransfer] takes from the flag [-to-dsn]. *)
Definition dsn_address (toDSN : string) : string :=
  let toDSN := TrimLeft toDSN (DBScheme ++ "://") in
  TrimLeft toDSN (DBSchemeAlias ++ "://").

Definition runTransfer (cmd : Command) (args : list string) : M unit :=
  func (
    perform (Do_commonFlagsInit cmd) ;;
    when ((0 <? List.length args)%nat
          || ((toUser =? EmptyString) && (toDSN =? EmptyString))
          || (tokenType =? EmptyString))
      (perform (Log_Error None
             "transfer command need to-user(or to-dsn) address and token type as param") ;;
       perform (Do_SetExitStatus 1) ;;
       printCommandHelp cmd ;;
       Exit) ;;
    when (negb (toUser =? EmptyString) && negb (toDSN =? EmptyString))
      (perform (Log_Error None
             "transfer command accepts either to-user or to-dsn as param") ;;
       perform (Do_SetExitStatus 1) ;;
       printCommandHelp cmd ;;
       Exit) ;;
    let unit := FromString tokenType in
    when (negb (Listed unit))
      (perform (Log_Error None "transfer token failed: invalid token type") ;;
       perform (Do_SetExitStatus 1) ;;
       return_) ;;
    addr ← (if negb (toUser =? EmptyString)
             then ret toUser
             else
               when (negb (HasPrefix toDSN DBScheme)
                     && negb (HasPrefix toDSN DBSchemeAlias))
                 (perform (Log_Error None
                        "transfer token failed: invalid dsn provided, use address start with 'cqlprotocol://'") ;;
                  perform (Do_SetExitStatus 1) ;;
                  return_) ;;
               ret (dsn_address toDSN));
    targetAccountHash ←
      match NewHashFromStr addr with
      | inl h => ret h
      | inr err =>
          perform (Log_Error (Some err) "target account address is not valid") ;;
          perform (Do_SetExitStatus 1) ;;
          return_
      end;
    let targetAccount := targetAccountHash in
    perform Do_configInit ;;
    perform (Do_TransferToken targetAccount amount unit) ;;
    txHash ←
      match TransferToken targetAccount amount unit with
      | inl h => ret h
      | inr err =>
          perform (Log_Error (Some err) "transfer token failed") ;;
          perform (Do_SetExitStatus 1) ;;
          return_
      end;
    when waitTxConfirmation
      (perform (Do_wait txHash) ;;
       match wait txHash with
       | Some err =>
           perform (Log_Error (Some err) "transfer token failed") ;;
           perform (Do_SetExitStatus 1) ;;
           return_
       | None => ret tt
       end) ;;
    perform (Log_Info "succeed in sending transaction to CQL")
  ).

(** *** What is read off the calls *)

Definition is_transfer (c : call) : bool :=
  match c with Do_TransferToken _ _ _ => true | _ => false end.

Definition is_exit_status (c : call) : bool :=
  match c with Do_SetExitStatus _ => true | _ => false end.

Definition is_write (c : call) : bool :=
  match c with Write_Stdout _ => true | _ => false end.

(** The success line of [runTransfer]. *)
Definition success_line : call :=
  Log_Info "succeed in sending transaction to CQL".

(** The first command of the list that goes by the name [cmdName]. *)
Fixpoint lookup_command (cmdName : string) (cmds : list Command) : option Command :=
  match cmds with
  | [] => None
  | command :: rest =>
      if Command_Name command =? cmdName then Some command
      else lookup_command cmdName rest
  end.

End Commands.

(** ** A small environment to run the commands in

    The four commands as they are declared, named by the word that
    follows [cql] in their usage line; the schemes [covenantsql] and
    [cqlprotocol]; a format is followed by its arguments; an address is
    valid when it is 4 bytes long, and every transfer goes through. *)
Module Sample.

Definition name_of (cmd : Command) : string :=
  let words := substring 4 (String.length (UsageLine cmd) - 4) (UsageLine cmd) in
  match index 0 " " words with
  | Some i => substring 0 i words
  | None => words
  end.

Definition env (user dsn : string) : CliEnv :=
  {| Sprintf := fun format args => format ++ String.concat "," args;
     Command_Name := name_of;
     CqlCommands := [CmdIDMiner; CmdTransfer; CmdVersion; CmdHelp];
     addCommonFlags := fun cmd => cmd;
     addConfigFlag := fun cmd => cmd;
     DBScheme := "covenantsql";
     DBSchemeAlias := "cqlprotocol";
     DBScheme_ASCII := eq_refl;
     DBSchemeAlias_ASCII := eq_refl;
     TokenType := string;
     FromString := fun s => s;
     Listed := fun unit => unit =? "Particle";
     error := unit;
     hash_Hash := string;
     NewHashFromStr := fun s => if (String.length s =? 4)%nat then inl s else inr tt;
     TxHash := string;
     TransferToken := fun target _ _ => inl ("tx-" ++ target);
     wait := fun _ => None;
     toUser := user;
     toDSN := dsn;
     amount := 100;
     tokenType := "Particle";
     waitTxConfirmation := true |}.

End Sample.

End Cli.
(** ** Facts on the partitions *)

Lemma pow2_64 : 2 ^ 64 = 18446744073709551616.
Proof. reflexivity. Qed.

Lemma pow2_32 : 2 ^ 32 = 4294967296.
Proof. reflexivity. Qed.

Lemma wrap64_small z : 0 <= z < 2 ^ 64 -> wrap64 z = z.
Proof. intros H. unfold wrap64. now apply Z.mod_small. Qed.

Module LinearFacts.
Import Linear.

Lemma step_mul_bound N i :
  1 <= N -> 0 <= i < N -> 0 <= step N * i <= MaxUint64 - step N.
Proof.
  intros HN Hi. unfold step.
  assert (H0 : 0 <= MaxUint64 / N) by (apply Z.div_pos; unfold MaxUint64; lia).
  assert (H1 : N * (MaxUint64 / N) <= MaxUint64)
    by (apply Z.mul_div_le; lia).
  split; [nia|]. nia.
Qed.

Lemma step_large N : 1 <= N < 2 ^ 32 -> 2 ^ 32 <= step N.
Proof.
  intros HN. unfold step.
  apply Z.div_le_lower_bound; [lia|].
  unfold MaxUint64. rewrite pow2_64. rewrite pow2_32 in *. nia.
Qed.

Lemma start_D_wrapped N i r :
  1 <= N -> 0 <= i < N -> is_uint32 r ->
  D (start N i r) = (step N * i + r) mod 2 ^ 64.
Proof.
  intros HN Hi Hr. simpl. unfold wrap64.
  now rewrite Zplus_mod_idemp_l.
Qed.

Lemma start_D_exact N i r :
  1 <= N < 2 ^ 32 -> 0 <= i < N -> is_uint32 r ->
  D (start N i r) = step N * i + r.
Proof.
  intros HN Hi Hr. rewrite start_D_wrapped by (auto; lia).
  apply Z.mod_small.
  pose proof (step_mul_bound N i ltac:(lia) Hi) as Hb.
  pose proof (step_large N HN) as Hs.
  unfold is_uint32 in Hr. unfold MaxUint64 in Hb. lia.
Qed.

End LinearFacts.

Module BitSlicedFacts.
Import BitSliced.

Lemma step_floor N : 1 <= N -> step N = 256 / N /\ 0 <= step N /\ N * step N <= 256.
Proof.
  intros HN. unfold step. rewrite Z.quot_div_nonneg by lia.
  split; [reflexivity|]. split.
  - apply Z.div_pos; lia.
  - apply Z.mul_div_le; lia.
Qed.

Lemma startBit_range N i :
  1 <= N -> 0 <= i < N ->
  0 <= startBit N i /\ startBit N i + step N <= 256 /\ startBit N i < 256.
Proof.
  intros HN Hi. destruct (step_floor N HN) as (_ & H0 & H1).
  unfold startBit. nia.
Qed.

Lemma position_div N i :
  1 <= N -> 0 <= i < N ->
  position N i = startBit N i / 64 /\ 0 <= position N i <= 3.
Proof.
  intros HN Hi. destruct (startBit_range N i HN Hi) as (H0 & _ & H1).
  unfold position. rewrite Z.quot_div_nonneg by lia.
  split; [reflexivity|]. split.
  - apply Z.div_pos; lia.
  - apply Z.lt_succ_r. apply Z.div_lt_upper_bound; lia.
Qed.

Lemma shift_mod N i :
  1 <= N -> 0 <= i < N ->
  shift N i = startBit N i mod 64 /\ 0 <= shift N i < 64.
Proof.
  intros HN Hi. destruct (startBit_range N i HN Hi) as (H0 & _ & H1).
  unfold shift. rewrite Z.rem_mod_nonneg by lia.
  split; [reflexivity|]. apply Z.mod_pos_bound. lia.
Qed.

Lemma pow2_shift_bound sh : 0 <= sh < 64 -> 1 <= 2 ^ sh <= 2 ^ 63.
Proof.
  intros H. split.
  - apply (Z.pow_le_mono_r 2 0 sh); lia.
  - apply Z.pow_le_mono_r; lia.
Qed.

Lemma seed_exact sh r :
  0 <= sh < 64 -> is_uint32 r -> seed sh r = 2 ^ sh + r.
Proof.
  intros Hs Hr. unfold seed. rewrite Z.shiftl_1_l.
  pose proof (pow2_shift_bound sh Hs) as Hp.
  assert (H63 : 2 ^ 63 = 9223372036854775808) by reflexivity.
  unfold is_uint32 in Hr. rewrite pow2_32 in Hr.
  rewrite (wrap64_small (2 ^ sh)) by (rewrite pow2_64; lia).
  apply wrap64_small. rewrite pow2_64. lia.
Qed.

Lemma limb_start N i r k :
  1 <= N -> 0 <= i < N -> 0 <= k <= 3 ->
  limb k (start N i r) =
    if k =? position N i then seed (shift N i) r else 0.
Proof.
  intros HN Hi Hk. destruct (position_div N i HN Hi) as (_ & Hp).
  unfold start, limb.
  assert (Hc : position N i = 0 \/ position N i = 1 \/
               position N i = 2 \/ position N i = 3) by lia.
  assert (Hk' : k = 0 \/ k = 1 \/ k = 2 \/ k = 3) by lia.
  destruct Hc as [-> | [-> | [-> | ->]]];
    destruct Hk' as [-> | [-> | [-> | ->]]]; reflexivity.
Qed.

Lemma limb_start_exact N i r k :
  1 <= N -> 0 <= i < N -> is_uint32 r -> 0 <= k <= 3 ->
  limb k (start N i r) =
    if k =? startBit N i / 64 then 2 ^ (startBit N i mod 64) + r else 0.
Proof.
  intros HN Hi Hr Hk. rewrite limb_start by assumption.
  destruct (position_div N i HN Hi) as (-> & _).
  destruct (shift_mod N i HN Hi) as (Hs & Hb).
  destruct (k =? startBit N i / 64); [|reflexivity].
  rewrite seed_exact by assumption. now rewrite Hs.
Qed.

Lemma value_limbs u :
  Uint256_value u =
    limb 0 u + 2 ^ 64 * limb 1 u + 2 ^ 128 * limb 2 u + 2 ^ 192 * limb 3 u.
Proof. reflexivity. Qed.

Lemma start_value N i r :
  1 <= N -> 0 <= i < N -> is_uint32 r ->
  Uint256_value (start N i r) =
    2 ^ startBit N i + 2 ^ (64 * (startBit N i / 64)) * r.
Proof.
  intros HN Hi Hr. rewrite value_limbs.
  rewrite !limb_start_exact by (assumption || lia).
  destruct (position_div N i HN Hi) as (Hpd & Hp). rewrite Hpd in Hp.
  destruct (startBit_range N i HN Hi) as (H0 & _ & H1).
  set (sb := startBit N i) in *.
  assert (Hsb : sb = 64 * (sb / 64) + sb mod 64) by (apply Z.div_mod; lia).
  assert (Hm : 0 <= sb mod 64 < 64) by (apply Z.mod_pos_bound; lia).
  assert (Hpow : 2 ^ sb = 2 ^ (64 * (sb / 64)) * 2 ^ (sb mod 64))
    by (rewrite <- Z.pow_add_r by lia; now rewrite <- Hsb).
  rewrite Hpow. clear Hpow Hsb.
  assert (Hc : sb / 64 = 0 \/ sb / 64 = 1 \/ sb / 64 = 2 \/ sb / 64 = 3) by lia.
  destruct Hc as [-> | [-> | [-> | ->]]]; cbn [Z.eqb Pos.eqb];
    change (64 * 0) with 0; change (64 * 1) with 64;
    change (64 * 2) with 128; change (64 * 3) with 192; lia.
Qed.

End BitSlicedFacts.

(** ** The two partitions, as the miner computes them *)

Lemma pow2_gap s s' r r' :
  0 <= s -> s + 32 < s' -> is_uint32 r -> is_uint32 r' ->
  2 ^ s + r < 2 ^ s' + r'.
Proof.
  intros Hs Hgap Hr Hr'. unfold is_uint32 in *.
  assert (H1 : 1 <= 2 ^ s) by (apply (Z.pow_le_mono_r 2 0 s); lia).
  assert (H2 : 2 ^ (s + 33) <= 2 ^ s') by (apply Z.pow_le_mono_r; lia).
  rewrite Z.pow_add_r in H2 by lia.
  assert (H33 : 2 ^ 33 = 2 * 2 ^ 32) by reflexivity.
  nia.
Qed.

Lemma linear_start_lt N i j ri rj :
  1 <= N < 2 ^ 32 -> 0 <= i < j -> j < N -> is_uint32 ri -> is_uint32 rj ->
  D (Linear.start N i ri) < D (Linear.start N j rj).
Proof.
  intros HN Hij Hj Hri Hrj.
  rewrite !LinearFacts.start_D_exact by (assumption || lia).
  pose proof (LinearFacts.step_large N HN) as Hs.
  unfold is_uint32 in *. nia.
Qed.

Lemma linear_value N i r :
  Uint256_value (Linear.start N i r) = 2 ^ 192 * D (Linear.start N i r).
Proof. unfold Uint256_value. simpl. lia. Qed.

Lemma bitsliced_start_neq_lt N i j ri rj :
  1 <= N -> 0 <= i < j -> j < N -> is_uint32 ri -> is_uint32 rj ->
  32 < BitSliced.step N \/ (1 <= BitSliced.step N /\ ri = rj) ->
  BitSliced.start N i ri <> BitSliced.start N j rj.
Proof.
  intros HN Hij Hj Hri Hrj Hcond Heq.
  assert (Hi : 0 <= i < N) by lia. assert (Hj' : 0 <= j < N) by lia.
  destruct (BitSlicedFacts.startBit_range N i HN Hi) as (Hi0 & _ & Hi1).
  destruct (BitSlicedFacts.startBit_range N j HN Hj') as (Hj0 & _ & Hj1).
  set (bi := BitSliced.startBit N i) in *.
  set (bj := BitSliced.startBit N j) in *.
  assert (Hdiff : bj - bi = (j - i) * BitSliced.step N)
    by (unfold bi, bj, BitSliced.startBit; lia).
  assert (Hmi : 0 <= bi mod 64 < 64) by (apply Z.mod_pos_bound; lia).
  assert (Hmj : 0 <= bj mod 64 < 64) by (apply Z.mod_pos_bound; lia).
  assert (Hdi : bi = 64 * (bi / 64) + bi mod 64) by (apply Z.div_mod; lia).
  assert (Hdj : bj = 64 * (bj / 64) + bj mod 64) by (apply Z.div_mod; lia).
  assert (Hqi : 0 <= bi / 64 <= 3).
  { split; [apply Z.div_pos; lia|].
    apply Z.lt_succ_r, Z.div_lt_upper_bound; lia. }
  pose proof (BitSlicedFacts.limb_start_exact N i ri (bi / 64) HN Hi Hri Hqi) as Li.
  pose proof (BitSlicedFacts.limb_start_exact N j rj (bi / 64) HN Hj' Hrj Hqi) as Lj.
  rewrite Heq in Li. rewrite Li in Lj. clear Li Heq.
  fold bi bj in Lj. rewrite Z.eqb_refl in Lj.
  pose proof (BitSlicedFacts.pow2_shift_bound _ Hmi) as Hpi.
  destruct (Z.eqb_spec (bi / 64) (bj / 64)) as [Hq | Hq].
  - assert (Hm : bj mod 64 - bi mod 64 = (j - i) * BitSliced.step N) by lia.
    destruct Hcond as [Hbig | [Hone ->]].
    + assert (Hlt : 2 ^ (bi mod 64) + ri < 2 ^ (bj mod 64) + rj)
        by (apply pow2_gap; (assumption || nia)).
      lia.
    + assert (Hp : 2 ^ (bi mod 64) = 2 ^ (bj mod 64)) by lia.
      apply Z.pow_inj_r in Hp; nia.
  - unfold is_uint32 in Hri. lia.
Qed.

(** C4, as the code has it.  The stride of [nonceLoop] is the largest
    64-bit value divided by the worker count; the starting nonce of worker
    [i] has the limbs [A], [B] and [C] zero and the limb [D] equal to
    [step * i] plus the 32-bit random offset, reduced to 64 bits; below
    [2^32] workers nothing is lost in the reduction. *)
Theorem linear_partition_start N i r :
  1 <= N -> 0 <= i < N -> is_uint32 r ->
  Linear.step N = MaxUint64 / N /\
  A (Linear.start N i r) = 0 /\
  B (Linear.start N i r) = 0 /\
  C (Linear.start N i r) = 0 /\
  D (Linear.start N i r) = (Linear.step N * i + r) mod 2 ^ 64 /\
  (N < 2 ^ 32 -> D (Linear.start N i r) = Linear.step N * i + r).
Proof.
  intros HN Hi Hr. repeat split.
  - now apply LinearFacts.start_D_wrapped.
  - intros Hlt. apply LinearFacts.start_D_exact; (assumption || lia).
Qed.

Lemma linear_partition_start_witness :
  Linear.step 4 = 4611686018427387903 /\
  D (Linear.start 4 3 17) = 4611686018427387903 * 3 + 17.
Proof.
  assert (Hr : is_uint32 17) by (unfold is_uint32; lia).
  destruct (linear_partition_start 4 3 17 ltac:(lia) ltac:(lia) Hr)
    as (Hs & _ & _ & _ & _ & Hd).
  split.
  - rewrite Hs. reflexivity.
  - rewrite (Hd ltac:(lia)), Hs. reflexivity.
Defined.

(** C4, as the description has it, fails: with four workers the stride is
    [(2^64 - 1) / 4], not [(2^256 - 1) / 4]. *)
Lemma linear_step_not_256bit :
  Linear.step 4 = 4611686018427387903 /\ Linear.step 4 <> MaxUint256 / 4.
Proof. split; [reflexivity|]. vm_compute. discriminate. Qed.

(** C5.  [nonceGen] cuts the 256 bits into ranges of [256 / N] bits, range
    [i] starting at bit [i * (256 / N)] and ending where range [i + 1]
    starts, all within the 256 bits; the starting nonce of worker [i] has
    the limb holding that bit equal to the single bit plus the 32-bit random
    jitter and the three other limbs zero. *)
Theorem bit_sliced_partition_start N i r :
  1 <= N -> 0 <= i < N -> is_uint32 r ->
  let sb := i * (256 / N) in
  BitSliced.startBit N i = sb /\
  0 <= sb /\ sb + 256 / N <= 256 /\ sb < 256 /\
  BitSliced.startBit N (i + 1) = sb + 256 / N /\
  (forall k, 0 <= k <= 3 ->
     limb k (BitSliced.start N i r) =
       if k =? sb / 64 then 2 ^ (sb mod 64) + r else 0) /\
  Uint256_value (BitSliced.start N i r) = 2 ^ sb + 2 ^ (64 * (sb / 64)) * r.
Proof.
  intros HN Hi Hr sb.
  destruct (BitSlicedFacts.step_floor N HN) as (Hs & _).
  assert (Hsb : BitSliced.startBit N i = sb)
    by (unfold sb, BitSliced.startBit; now rewrite Hs).
  destruct (BitSlicedFacts.startBit_range N i HN Hi) as (H0 & H1 & H2).
  rewrite Hsb, Hs in *.
  split; [reflexivity|]. split; [assumption|]. split; [assumption|].
  split; [assumption|]. split.
  - unfold BitSliced.startBit, sb. rewrite Hs. lia.
  - split.
    + intros k Hk. rewrite <- Hsb. now apply BitSlicedFacts.limb_start_exact.
    + rewrite <- Hsb. now apply BitSlicedFacts.start_value.
Qed.

Lemma bit_sliced_partition_start_witness :
  BitSliced.startBit 4 3 = 192 /\
  BitSliced.start 4 3 5 = {| A := 0; B := 0; C := 0; D := 6 |} /\
  limb 3 (BitSliced.start 4 3 5) = 2 ^ 0 + 5.
Proof.
  assert (Hr : is_uint32 5) by (unfold is_uint32; lia).
  destruct (bit_sliced_partition_start 4 3 5 ltac:(lia) ltac:(lia) Hr)
    as (Hs & _ & _ & _ & _ & Hl & _).
  split; [exact Hs|]. split; [reflexivity|].
  exact (Hl 3 ltac:(lia)).
Defined.

(** C6, as the code has it.  The linear starting nonces are strictly
    increasing in the worker index, hence pairwise distinct, when there are
    fewer than [2^32] workers; the bit-sliced starting nonces are pairwise
    distinct when the bit ranges are wider than the 32-bit jitter (up to
    seven workers), and for any non-empty ranges when two workers draw the
    same jitter. *)
Theorem starting_nonces_distinct N i j ri rj :
  1 <= N -> 0 <= i < N -> 0 <= j < N -> is_uint32 ri -> is_uint32 rj ->
  (N < 2 ^ 32 -> i < j ->
     D (Linear.start N i ri) < D (Linear.start N j rj) /\
     Uint256_value (Linear.start N i ri) < Uint256_value (Linear.start N j rj)) /\
  (N < 2 ^ 32 -> i <> j -> Linear.start N i ri <> Linear.start N j rj) /\
  (32 < BitSliced.step N \/ (1 <= BitSliced.step N /\ ri = rj) ->
     i <> j -> BitSliced.start N i ri <> BitSliced.start N j rj).
Proof.
  intros HN Hi Hj Hri Hrj. split; [|split].
  - intros Hlt Hij.
    assert (Hd : D (Linear.start N i ri) < D (Linear.start N j rj))
      by (apply linear_start_lt; (assumption || lia)).
    split; [exact Hd|]. rewrite !linear_value. lia.
  - intros Hlt Hij Heq.
    destruct (Z.lt_total i j) as [Hc | [Hc | Hc]]; [|lia|].
    + pose proof (linear_start_lt N i j ri rj ltac:(lia) ltac:(lia)
                    ltac:(lia) Hri Hrj) as Hd.
      rewrite Heq in Hd. lia.
    + pose proof (linear_start_lt N j i rj ri ltac:(lia) ltac:(lia)
                    ltac:(lia) Hrj Hri) as Hd.
      rewrite Heq in Hd. lia.
  - intros Hcond Hij.
    destruct (Z.lt_total i j) as [Hc | [Hc | Hc]]; [|lia|].
    + apply bitsliced_start_neq_lt; (assumption || lia).
    + intros Heq. symmetry in Heq. revert Heq.
      apply bitsliced_start_neq_lt; (assumption || lia).
Qed.

Lemma starting_nonces_distinct_witness :
  D (Linear.start 4 1 7) < D (Linear.start 4 2 3) /\
  BitSliced.start 4 1 7 <> BitSliced.start 4 2 3.
Proof.
  assert (H7 : is_uint32 7) by (unfold is_uint32; lia).
  assert (H3 : is_uint32 3) by (unfold is_uint32; lia).
  destruct (starting_nonces_distinct 4 1 2 7 3 ltac:(lia) ltac:(lia)
              ltac:(lia) H7 H3) as (Hlin & _ & Hbit).
  split.
  - apply Hlin; lia.
  - apply Hbit; [left; vm_compute; reflexivity | lia].
Defined.

(** C6, as the description has it, fails.  With eight workers the ranges
    are 32 bits wide: worker 0 drawing the jitter [2^32 - 1] and worker 1
    drawing [0] both start at [A = 2^32].  With [2^32] workers the linear
    stride is [2^32 - 1], and the same two draws give workers 0 and 1 the
    same limb [D]. *)
Lemma starting_nonces_collide :
  is_uint32 (2 ^ 32 - 1) /\ is_uint32 0 /\
  BitSliced.start 8 0 (2 ^ 32 - 1) = BitSliced.start 8 1 0 /\
  Linear.start (2 ^ 32) 0 (2 ^ 32 - 1) = Linear.start (2 ^ 32) 1 0.
Proof.
  split; [unfold is_uint32; lia|]. split; [unfold is_uint32; lia|].
  split; reflexivity.
Qed.

(** ** The collecting loop of [nonceLoop] *)

Section Collect.
Context {env : MinerEnv}.

(** What the loop has done when it ends, from any iteration on: [max] is
    at least every result seen and the [max] it started from; either no
    result replaced it, or it is the first of the results that reach its
    difficulty, which is above the one it started from. *)
Lemma collect_from_spec results : forall max from i,
  let m := fst (collect_from max from i results) in
  let w := snd (collect_from max from i results) in
  Forall (fun r => Difficulty r <= Difficulty m) results /\
  Difficulty max <= Difficulty m /\
  ((m = max /\ w = from) \/
   (exists k, w = Some (i + k)%nat /\ results !! k = Some m /\
              Difficulty max < Difficulty m /\
              forall k' r, (k' < k)%nat -> results !! k' = Some r ->
                           Difficulty r < Difficulty m)).
Proof.
  induction results as [|newNonce rest IH]; intros max from i; cbn zeta.
  - simpl. split; [constructor|]. split; [lia|]. now left.
  - simpl. destruct (Z.ltb_spec (Difficulty max) (Difficulty newNonce)) as [Hlt | Hge].
    + specialize (IH newNonce (Some i) (S i)). cbn zeta in IH.
      destruct IH as (Hall & Hle & Hcase).
      split; [constructor; assumption|]. split; [lia|]. right.
      destruct Hcase as [[Hm Hw] | (k & Hw & Hk & Hgt & Hfirst)].
      * exists 0%nat. rewrite Hw, Hm. repeat split.
        -- f_equal. lia.
        -- lia.
        -- intros k' r Hk'. lia.
      * exists (S k). repeat split.
        -- rewrite Hw. f_equal. lia.
        -- exact Hk.
        -- lia.
        -- intros [|k'] r Hk' Hr; simpl in Hr.
           ++ injection Hr as <-. exact Hgt.
           ++ apply (Hfirst k'); [lia | exact Hr].
    + specialize (IH max from (S i)). cbn zeta in IH.
      destruct IH as (Hall & Hle & Hcase).
      split; [constructor; [lia | assumption]|]. split; [lia|].
      destruct Hcase as [[Hm Hw] | (k & Hw & Hk & Hgt & Hfirst)].
      * left. now split.
      * right. exists (S k). repeat split.
        -- rewrite Hw. f_equal. lia.
        -- exact Hk.
        -- exact Hgt.
        -- intros [|k'] r Hk' Hr; simpl in Hr.
           ++ injection Hr as <-. lia.
           ++ apply (Hfirst k'); [lia | exact Hr].
Qed.

Lemma collect_from_fold results : forall max from i,
  fst (collect_from max from i results) = fold_left collect_step results max.
Proof.
  induction results as [|newNonce rest IH]; intros max from i; simpl.
  - reflexivity.
  - unfold collect_step at 2.
    destruct (Difficulty max <? Difficulty newNonce); apply IH.
Qed.

Lemma winner_positive results k :
  winner results = Some k ->
  results !! k = Some (collect results) /\ 0 < Difficulty (collect results).
Proof.
  intros Hw. unfold winner, collect, collect_loop in *.
  destruct (collect_from_spec results NonceInfo_zero None 0%nat)
    as (_ & _ & [[_ Hn] | (k0 & Hk0 & Hl & Hgt & _)]).
  - rewrite Hn in Hw. discriminate.
  - rewrite Hk0 in Hw. injection Hw as <-. simpl in Hgt. now split.
Qed.

Lemma collect_all_zero results :
  Forall (fun r => Difficulty r = 0) results ->
  collect results = NonceInfo_zero /\ winner results = None.
Proof.
  intros Hz. unfold winner, collect, collect_loop.
  destruct (collect_from_spec results NonceInfo_zero None 0%nat)
    as (_ & _ & [[Hm Hn] | (k0 & _ & Hl & Hgt & _)]).
  - now split.
  - exfalso. rewrite Forall_forall in Hz.
    apply list_elem_of_lookup_2 in Hl.
    specialize (Hz _ Hl). simpl in Hgt. lia.
Qed.

Lemma collect_none_above_zero results :
  Forall (fun r => Difficulty r <= 0) results ->
  collect results = NonceInfo_zero /\ winner results = None.
Proof.
  intros Hz. unfold winner, collect, collect_loop.
  destruct (collect_from_spec results NonceInfo_zero None 0%nat)
    as (_ & _ & [[Hm Hn] | (k0 & _ & Hl & Hgt & _)]).
  - now split.
  - exfalso. rewrite Forall_forall in Hz.
    apply list_elem_of_lookup_2 in Hl.
    specialize (Hz _ Hl). simpl in Hgt. lia.
Qed.

(** C2, as the code has it.  When some collected result has a positive
    difficulty, [max] ends as one of the collected results: none has a
    greater difficulty, and every result read before it has a smaller
    one, so of several results of the greatest difficulty the first one
    read is kept.  When no collected result has a difficulty above 0,
    [max] ends as the zero value it started with and no collected result
    is kept. *)
Theorem collect_selects_first_maximum results :
  (Exists (fun r => 0 < Difficulty r) results ->
   exists k,
     winner results = Some k /\
     results !! k = Some (collect results) /\
     Forall (fun r => Difficulty r <= Difficulty (collect results)) results /\
     (forall k' r, (k' < k)%nat -> results !! k' = Some r ->
                   Difficulty r < Difficulty (collect results))) /\
  (Forall (fun r => Difficulty r <= 0) results ->
   collect results = NonceInfo_zero /\ winner results = None).
Proof.
  split; [|apply collect_none_above_zero].
  intros Hpos. unfold winner, collect, collect_loop.
  destruct (collect_from_spec results NonceInfo_zero None 0%nat)
    as (Hall & _ & [[Hm _] | (k & Hw & Hl & _ & Hfirst)]).
  - exfalso. rewrite Hm in Hall. simpl in Hall.
    rewrite Exists_exists in Hpos. destruct Hpos as (r & Hin & Hr).
    rewrite Forall_forall in Hall. specialize (Hall r Hin). lia.
  - exists k. repeat split; assumption.
Qed.

(** C10.  [max] starts as the zero value of [mine.NonceInfo]; an
    iteration changes it only to a result of strictly greater difficulty;
    so the result [max] ends as, if it is any worker's, has a positive
    difficulty, and a result of difficulty 0 is never the one kept.  When
    every collected result has difficulty 0, no result is kept and
    [nonceLoop] verifies and prints the zero value. *)
Theorem collect_keeps_zero_placeholder results :
  collect results = fold_left collect_step results NonceInfo_zero /\
  collect [] = NonceInfo_zero /\
  Difficulty NonceInfo_zero = 0 /\
  Nonce NonceInfo_zero = Uint256_zero /\
  Hash NonceInfo_zero = Digest_zero /\
  (forall max newNonce,
      collect_step max newNonce <> max ->
      Difficulty max < Difficulty newNonce /\ collect_step max newNonce = newNonce) /\
  (forall k, winner results = Some k ->
      exists r, results !! k = Some r /\ 0 < Difficulty r) /\
  (forall k r, results !! k = Some r -> Difficulty r = 0 ->
      winner results <> Some k) /\
  (Forall (fun r => Difficulty r = 0) results ->
      collect results = NonceInfo_zero /\
      winner results = None /\
      nonceLoop_finish results =
        ([ Infof_verify_result (IsIDPubNonceValid Digest_zero Uint256_zero publicKey);
           Printf_nonce NonceInfo_zero;
           Printf_node_id Digest_zero ],
         Returned None)).
Proof.
  split; [apply collect_from_fold|].
  repeat split.
  - unfold collect_step in *.
    destruct (Z.ltb_spec (Difficulty max) (Difficulty newNonce)); [assumption | congruence].
  - unfold collect_step in *.
    destruct (Z.ltb_spec (Difficulty max) (Difficulty newNonce)); [reflexivity | congruence].
  - intros k Hw. destruct (winner_positive results k Hw) as (Hl & Hp).
    eexists. split; [exact Hl | exact Hp].
  - intros k r Hl Hr Hw. destruct (winner_positive results k Hw) as (Hl' & Hp).
    rewrite Hl in Hl'. injection Hl' as ->. lia.
  - now apply collect_all_zero.
  - now apply collect_all_zero.
  - unfold nonceLoop_finish, nonceLoop_report.
    destruct (collect_all_zero results H) as (-> & _). reflexivity.
Qed.

End Collect.

(** ** [nonceGen] as a machine *)

Section OneShot.
Context {env : MinerEnv}.

(** *** The step function and the step rules agree *)

Lemma fire_step a s s' : fire a s = Some s' -> step a s s'.
Proof.
  destruct a as [i | c |]; simpl.
  - unfold worker_step.
    destruct (workers s !! i) as [[j | j h d | j h d |]|] eqn:Hw; try discriminate.
    + destruct (stopCh s) eqn:Hs; intros [= <-].
      * now apply step_cancelled with j.
      * now apply step_hash.
    + destruct (Nat.ltb_spec (length (progressCh s)) progressCh_cap);
        intros [= <-]. now apply step_progress.
    + destruct (Z.leb_spec difficulty d).
      * destruct (Nat.ltb_spec (length (nonceCh s)) nonceCh_cap);
          intros [= <-]. now apply step_emit.
      * intros [= <-]. now apply step_next with h d.
  - unfold printer_step.
    destruct (printer_pc s) as [count current|] eqn:Hp; try discriminate.
    destruct c.
    + destruct (stopCh s) eqn:Hs; intros [= <-].
      now apply step_printer_stop with count current.
    + destruct (progressCh s) as [|mined rest] eqn:Hq; try discriminate.
      destruct (Z.ltb_spec current mined); intros [= <-].
      * now apply step_printer_best with current.
      * now apply step_printer_skip with count current mined.
    + intros [= <-]. now apply step_printer_tick.
  - unfold caller_step.
    destruct (caller_pc s) as [| nonce | nonce | nonce | o] eqn:Hc; try discriminate.
    + destruct (nonceCh s) as [|nonce rest] eqn:Hq; intros [= <-].
      now apply step_receive.
    + intros [= <-]. now apply step_close.
    + destruct (forallb returned (workers s)) eqn:Hall; simpl; try discriminate.
      destruct (printer_pc s) eqn:Hp; intros [= <-].
      now apply step_wait.
    + intros [= <-]. now apply step_finish.
Qed.

Lemma step_fire a s s' : step a s s' -> fire a s = Some s'.
Proof.
  destruct 1; simpl; unfold worker_step, printer_step, caller_step;
    repeat match goal with
           | H : _ = _ |- _ => rewrite H
           end; try reflexivity.
  - destruct (Nat.ltb_spec (length (progressCh s)) progressCh_cap); [reflexivity | lia].
  - destruct (Z.leb_spec difficulty d); [|lia].
    destruct (Nat.ltb_spec (length (nonceCh s)) nonceCh_cap); [reflexivity | lia].
  - destruct (Z.leb_spec difficulty d); [lia | reflexivity].
  - destruct (Z.ltb_spec current mined); [reflexivity | lia].
  - destruct (Z.ltb_spec current mined); [lia | reflexivity].
Qed.

Lemma run_step a rest s s' :
  step a s s' -> run (a :: rest) s = run rest s'.
Proof. intros Hstep. simpl. now rewrite (step_fire _ _ _ Hstep). Qed.

(** A fact that holds at the start and that every step keeps holds of
    every state a schedule leads to. *)
Lemma run_invariant (P : state -> Prop) :
  (forall a s s', P s -> step a s s' -> P s') ->
  forall sched s s', P s -> run sched s = Some s' -> P s'.
Proof.
  intros Hstep. induction sched as [|a rest IH]; intros s s' Hs Hrun; simpl in Hrun.
  - now injection Hrun as <-.
  - destruct (fire a s) as [s1|] eqn:Hf; [|discriminate].
    apply (IH s1); [|assumption].
    apply (Hstep a s); [assumption | now apply fire_step].
Qed.

(** *** Sums over the workers *)

Lemma total_insert f ws i w w' :
  ws !! i = Some w ->
  (total f (<[i := w']> ws) + f w = total f ws + f w')%nat.
Proof.
  revert i. induction ws as [|x rest IH]; intros [|i] Hl; simpl in *;
    try discriminate.
  - injection Hl as ->. lia.
  - specialize (IH i Hl). lia.
Qed.

Lemma total_lookup f ws i w :
  ws !! i = Some w -> (f w <= total f ws)%nat.
Proof.
  revert i. induction ws as [|x rest IH]; intros [|i] Hl; simpl in *;
    try discriminate.
  - injection Hl as ->. lia.
  - specialize (IH i Hl). lia.
Qed.

Lemma total_map_WSelect f sts :
  (forall j, f (WSelect j) = f (WSelect Uint256_zero)) ->
  total f (map WSelect sts) = (f (WSelect Uint256_zero) * length sts)%nat.
Proof.
  intros Hf. induction sts as [|st rest IH]; simpl; [lia|].
  rewrite IH, (Hf st). lia.
Qed.

Lemma starts_from_length rs : forall i, length (starts_from i rs) = length rs.
Proof. induction rs as [|r rest IH]; intros i; simpl; [reflexivity | now rewrite IH]. Qed.

(** *** Results agree with the hash *)

Lemma inv_consistent_init rs : inv_consistent (init rs).
Proof.
  unfold inv_consistent, init; simpl. split; [|split].
  - apply Forall_forall. intros w Hw.
    apply list_elem_of_fmap in Hw as (st & -> & _). exact I.
  - constructor.
  - intros n [=].
Qed.

Lemma inv_consistent_step a s s' :
  inv_consistent s -> step a s s' -> inv_consistent s'.
Proof.
  intros (Hw & Hq & Hc) Hstep. unfold inv_consistent.
  destruct Hstep; simpl;
    repeat match goal with
           | H : caller_pc _ = _ |- _ => rewrite H in Hc; simpl in Hc
           end;
    (split; [|split]); try assumption; try (now apply Forall_insert).
  - (* the progress is sent *)
    apply Forall_insert; [assumption|].
    exact (Forall_lookup_1 _ _ _ _ Hw H).
  - (* the result is sent *)
    pose proof (Forall_lookup_1 _ _ _ _ Hw H) as (Hh & Hd).
    apply Forall_app. split; [assumption|].
    constructor; [|constructor]. unfold consistent; simpl.
    subst h d. repeat split. assumption.
  - (* the caller receives: the rest of the queue *)
    rewrite H0 in Hq. now apply Forall_cons in Hq as (_ & Hrest).
  - (* the caller receives: the result it holds *)
    rewrite H0 in Hq. apply Forall_cons in Hq as (Hn & _).
    now intros n [= <-].
  - (* the caller is done *)
    intros n. unfold nonceGen_finish.
    destruct (IsIDPubNonceValid (Hash nonce) (Nonce nonce) publicKey); simpl.
    + intros [= <-]. now apply Hc.
    + discriminate.
Qed.

Lemma reachable_consistent rs s : reachable rs s -> inv_consistent s.
Proof.
  intros (sched & Hrun).
  apply (run_invariant inv_consistent inv_consistent_step sched (init rs));
    [apply inv_consistent_init | exact Hrun].
Qed.

(** *** The result channel never fills *)

Lemma init_workers_length rs : length (workers (init rs)) = length rs.
Proof. simpl. rewrite length_map. apply starts_from_length. Qed.

Lemma inv_nonceCh_init rs : draws_ok rs -> inv_nonceCh (init rs).
Proof.
  intros (Hlen & _). unfold inv_nonceCh.
  rewrite init_workers_length. simpl.
  rewrite (total_map_WSelect active) by reflexivity.
  unfold starts. rewrite starts_from_length. simpl.
  unfold nonceCh_cap. repeat split; lia.
Qed.

(** The sum of [f] after worker [i] has moved, in terms of the sum
    before. *)
Ltac worker_sum f :=
  match goal with
  | H : workers ?s !! ?i = Some ?w |- context [<[?i := ?w']> (workers ?s)] =>
      let E := fresh "Hsum" in
      pose proof (total_insert f (workers s) i w w' H) as E;
      let t1 := fresh "after" in
      let t0 := fresh "before" in
      set (t1 := total f (<[i := w']> (workers s))) in *;
      set (t0 := total f (workers s)) in *;
      cbv beta iota delta [active returned unsent worker_rank] in E
  end.

Lemma inv_nonceCh_step a s s' :
  inv_nonceCh s -> step a s s' -> inv_nonceCh s'.
Proof.
  intros (Hlen & Hsum & Hstop & Heq) Hstep. unfold inv_nonceCh.
  destruct Hstep; simpl; rewrite ?length_insert, ?length_app; simpl;
    try worker_sum active;
    repeat match goal with
           | H : caller_pc _ = _ |- _ => rewrite H in *
           | H : nonceCh _ = _ |- _ => rewrite H in *
           | H : stopCh _ = _ |- _ => rewrite H in *
           end;
    simpl in *;
    repeat split; try (assumption || discriminate || reflexivity || lia);
    try (intros Hm; specialize (Heq Hm); lia);
    try (intros Hm; rewrite Hm in Hstop; discriminate).
Qed.

Lemma reachable_nonceCh rs s : draws_ok rs -> reachable rs s -> inv_nonceCh s.
Proof.
  intros Hrs (sched & Hrun).
  apply (run_invariant inv_nonceCh inv_nonceCh_step sched (init rs));
    [now apply inv_nonceCh_init | exact Hrun].
Qed.

Lemma nonceCh_has_room s i w :
  inv_nonceCh s -> workers s !! i = Some w -> returned w = false ->
  (length (nonceCh s) < nonceCh_cap)%nat.
Proof.
  intros (_ & Hsum & _) Hw Hr.
  pose proof (total_lookup active (workers s) i w Hw) as Hle.
  unfold active in Hle at 1. rewrite Hr in Hle. lia.
Qed.


Lemma returned_worker_blocked s i :
  workers s !! i = Some WReturn -> fire (Worker i) s = None.
Proof. intros Hw. simpl. unfold worker_step. now rewrite Hw. Qed.

(** What a worker sends, once its progress sample is sent.  In every state
    [nonceGen] can be in, a worker at the test
    [currentDifficulty >= difficulty] carries the hash of its current nonce
    and the score of that hash; when the score meets the target its next
    step sends the result made of that nonce, that score and that hash on
    [nonceCh], which has room for it, and the worker has returned.  From
    its [select], with [stopCh] open, a nonce whose score meets the target
    and room for the progress sample, the three steps of one round of the
    loop end so.  Every result queued or held by the caller therefore
    hashes back to its own digest and score, and meets the target. *)
Theorem worker_emits_consistent_result rs sched s :
  draws_ok rs -> run sched (init rs) = Some s ->
  (forall i j h d,
     workers s !! i = Some (WCheck j h d) ->
     h = HashBlock publicKeyBytes j /\ d = Hash_Difficulty h /\
     (difficulty <= d ->
      exists s',
        fire (Worker i) s = Some s' /\
        nonceCh s' =
          nonceCh s ++ [{| Nonce := j; Difficulty := d; Hash := h |}] /\
        workers s' !! i = Some WReturn /\
        fire (Worker i) s' = None)) /\
  (forall i j,
     workers s !! i = Some (WSelect j) ->
     stopCh s = false ->
     difficulty <= Hash_Difficulty (HashBlock publicKeyBytes j) ->
     (length (progressCh s) < progressCh_cap)%nat ->
     exists s',
       run [Worker i; Worker i; Worker i] s = Some s' /\
       progressCh s' =
         progressCh s ++ [Hash_Difficulty (HashBlock publicKeyBytes j)] /\
       nonceCh s' =
         nonceCh s ++ [{| Nonce := j;
                          Difficulty := Hash_Difficulty (HashBlock publicKeyBytes j);
                          Hash := HashBlock publicKeyBytes j |}] /\
       workers s' !! i = Some WReturn) /\
  (forall n, in_flight s n ->
     Hash n = HashBlock publicKeyBytes (Nonce n) /\
     Difficulty n = Hash_Difficulty (Hash n) /\
     difficulty <= Difficulty n).
Proof.
  intros Hrs Hrun.
  assert (Hreach : reachable rs s) by (now exists sched).
  destruct (reachable_consistent rs s Hreach) as (Hw & Hq & Hc).
  pose proof (reachable_nonceCh rs s Hrs Hreach) as Hroom.
  split; [|split].
  - intros i j h d Hi.
    destruct (Forall_lookup_1 _ _ _ _ Hw Hi) as (Hh & Hd).
    split; [exact Hh|]. split; [exact Hd|]. intros Hmeets.
    pose proof (nonceCh_has_room s i _ Hroom Hi eq_refl) as Hlt.
    eexists. split; [|split; [|split]].
    + apply step_fire. eapply step_emit; eassumption.
    + reflexivity.
    + simpl. apply list_lookup_insert_eq. now apply lookup_lt_Some in Hi.
    + apply returned_worker_blocked. simpl.
      apply list_lookup_insert_eq. now apply lookup_lt_Some in Hi.
  - intros i j Hi Hopen Hmeets Hprog.
    assert (Hlt : (i < length (workers s))%nat) by (now apply lookup_lt_Some in Hi).
    set (h := HashBlock publicKeyBytes j) in *.
    set (d := Hash_Difficulty h) in *.
    pose proof (step_hash i j s Hi Hopen) as H1. fold h d in H1.
    set (s1 := set_worker i (WProgress j h d) s) in *.
    assert (Hi1 : workers s1 !! i = Some (WProgress j h d))
      by (simpl; now apply list_lookup_insert_eq).
    pose proof (step_progress i j h d s1 Hi1 Hprog) as H2.
    set (s2 := set_worker i (WCheck j h d)
                 (set_progressCh (progressCh s1 ++ [d]) s1)) in *.
    assert (Hi2 : workers s2 !! i = Some (WCheck j h d)).
    { simpl. apply list_lookup_insert_eq. now rewrite length_insert. }
    assert (Hroom2 : inv_nonceCh s2).
    { apply (inv_nonceCh_step (Worker i) s1); [|exact H2].
      now apply (inv_nonceCh_step (Worker i) s). }
    pose proof (nonceCh_has_room s2 i _ Hroom2 Hi2 eq_refl) as Hlt2.
    pose proof (step_emit i j h d s2 Hi2 Hmeets Hlt2) as H3.
    eexists. split; [|split; [|split]].
    + rewrite (run_step _ _ _ _ H1), (run_step _ _ _ _ H2),
        (run_step _ _ _ _ H3). reflexivity.
    + reflexivity.
    + reflexivity.
    + simpl. apply list_lookup_insert_eq. now rewrite !length_insert.
  - intros n [Hin | Hheld].
    + rewrite Forall_forall in Hq. now apply Hq.
    + now apply Hc.
Qed.

(** *** The progress channel *)


Lemma inv_progressCh_step a s s' :
  inv_progressCh s -> step a s s' -> inv_progressCh s'.
Proof.
  unfold inv_progressCh. intros Hle Hstep.
  destruct Hstep; simpl; rewrite ?length_app; simpl;
    repeat match goal with
           | H : progressCh _ = _ |- _ => rewrite H in Hle; simpl in Hle
           end; lia.
Qed.

Lemma reachable_progressCh rs s : reachable rs s -> inv_progressCh s.
Proof.
  intros (sched & Hrun).
  apply (run_invariant inv_progressCh inv_progressCh_step sched (init rs));
    [unfold inv_progressCh; simpl; lia | exact Hrun].
Qed.

(** What one step does to the queue of samples: nothing, one more at the
    back, or the first one taken by the printer. *)
Lemma step_progressCh a s s' :
  step a s s' ->
  progressCh s' = progressCh s \/
  (exists d, progressCh s' = progressCh s ++ [d]) \/
  (a = Printer on_progress /\ exists d, progressCh s = d :: progressCh s').
Proof.
  destruct 1; simpl; eauto.
Qed.

(** C9, as the code has it.  The progress report is a blocking send on a
    channel buffered for 100 samples.  With fewer than 100 queued it goes
    through at once, the sample joining the back of the queue; with 100
    queued the worker cannot move, no step but the printer's receive
    changes that, and after such a receive the send goes through.  No
    step removes a sample other than the printer's receive of the oldest
    one. *)
Theorem progress_send_blocks_when_full rs sched s i j h d :
  run sched (init rs) = Some s ->
  workers s !! i = Some (WProgress j h d) ->
  (length (progressCh s) <= progressCh_cap)%nat /\
  ((length (progressCh s) < progressCh_cap)%nat ->
     exists s', fire (Worker i) s = Some s' /\
                progressCh s' = progressCh s ++ [d] /\
                workers s' !! i = Some (WCheck j h d)) /\
  (length (progressCh s) = progressCh_cap ->
     fire (Worker i) s = None /\
     (forall a s', fire a s = Some s' -> a <> Printer on_progress ->
        workers s' !! i = Some (WProgress j h d) /\
        length (progressCh s') = progressCh_cap /\
        fire (Worker i) s' = None) /\
     (forall s', fire (Printer on_progress) s = Some s' ->
        exists s'', fire (Worker i) s' = Some s'' /\
                    progressCh s'' = tail (progressCh s) ++ [d])) /\
  (forall a s', fire a s = Some s' ->
     progressCh s' = progressCh s \/
     (exists d', progressCh s' = progressCh s ++ [d']) \/
     (a = Printer on_progress /\ exists d', progressCh s = d' :: progressCh s')).
Proof.
  intros Hrun Hi.
  assert (Hreach : reachable rs s) by (now exists sched).
  pose proof (reachable_progressCh rs s Hreach) as Hcap.
  assert (Hlt : (i < length (workers s))%nat) by (now apply lookup_lt_Some in Hi).
  assert (Hblocked : forall s0, workers s0 !! i = Some (WProgress j h d) ->
            length (progressCh s0) = progressCh_cap -> fire (Worker i) s0 = None).
  { intros s0 Hw Hfull. simpl. unfold worker_step. rewrite Hw.
    destruct (Nat.ltb_spec (length (progressCh s0)) progressCh_cap); [lia | reflexivity]. }
  split; [exact Hcap|]. split; [|split].
  - intros Hroom. eexists. split; [|split].
    + apply step_fire. eapply step_progress; eassumption.
    + reflexivity.
    + simpl. now apply list_lookup_insert_eq.
  - intros Hfull. split; [now apply Hblocked|]. split.
    + intros a s' Hfire Hne.
      assert (Hkeep : workers s' !! i = Some (WProgress j h d) /\
                      length (progressCh s') = progressCh_cap).
      { destruct a as [i' | c |].
        - destruct (Nat.eq_dec i' i) as [-> | Hii].
          + rewrite (Hblocked s Hi Hfull) in Hfire. discriminate.
          + apply fire_step in Hfire. inversion Hfire; subst; simpl;
              rewrite ?list_lookup_insert_ne by assumption;
              rewrite ?length_app; simpl; try (split; [assumption | lia]).
        - apply fire_step in Hfire. inversion Hfire; subst; simpl;
            try (split; assumption). all: congruence.
        - apply fire_step in Hfire. inversion Hfire; subst; simpl;
            split; assumption. }
      destruct Hkeep as (Hw' & Hfull'). repeat split; try assumption.
      now apply Hblocked.
    + intros s' Hfire. apply fire_step in Hfire.
      inversion Hfire; subst;
        match goal with
        | Hq : progressCh s = _ :: _ |- _ =>
            rewrite Hq in Hfull; simpl in Hfull;
            eexists; split;
              [ apply step_fire; eapply step_progress; simpl;
                [exact Hi | lia]
              | simpl; rewrite Hq; reflexivity ]
        end.
  - intros a s' Hfire. apply step_progressCh. now apply fire_step.
Qed.

Lemma forallb_lookup {T} (f : T -> bool) (l : list T) i x :
  forallb f l = true -> l !! i = Some x -> f x = true.
Proof.
  revert i. induction l as [|y rest IH]; intros [|i] Hall Hl; simpl in *;
    try discriminate; apply andb_prop in Hall as (Hy & Hrest).
  - now injection Hl as <-.
  - now apply (IH i).
Qed.

(** The test for a state in which nothing can move is right. *)
Lemma deadlockedb_sound s : deadlockedb s = true -> deadlocked s.
Proof.
  unfold deadlockedb. intros Hb.
  apply andb_prop in Hb as (Hb & Hcaller).
  apply andb_prop in Hb as (Hworkers & Hprinter).
  intros [i | c |]; simpl.
  - unfold worker_step.
    destruct (workers s !! i) as [w|] eqn:Hw; [|reflexivity].
    pose proof (forallb_lookup _ _ _ _ Hworkers Hw) as Hblk.
    destruct w as [j | j h d | j h d |]; simpl in Hblk; try discriminate.
    + apply negb_true_iff in Hblk. now rewrite Hblk.
    + apply andb_prop in Hblk as (Hge & Hfull).
      apply negb_true_iff in Hfull. now rewrite Hge, Hfull.
    + reflexivity.
  - unfold printer_step. destruct (printer_pc s); [discriminate | reflexivity].
  - destruct (caller_step s); [discriminate | reflexivity].
Qed.


(** *** A target that every hash meets *)

Section FirstTry.
Hypothesis target_zero : difficulty = 0.
Hypothesis score_nonneg : forall h, 0 <= Hash_Difficulty h.

Lemma workers_at_update sts ws i w w' :
  Forall2 worker_at sts ws ->
  ws !! i = Some w ->
  (forall st, worker_at st w -> worker_at st w') ->
  Forall2 worker_at sts (<[i := w']> ws).
Proof.
  intros Hat Hw Himp.
  destruct (Forall2_lookup_r _ _ _ _ _ Hat Hw) as (st & Hst & Hwst).
  rewrite <- (list_insert_id sts i st Hst).
  apply Forall2_insert; [assumption | now apply Himp].
Qed.

Lemma workers_at_init sts : Forall2 worker_at sts (map WSelect sts).
Proof. induction sts; simpl; constructor; [reflexivity | assumption]. Qed.

Lemma inv_first_try_init rs : draws_ok rs -> inv_first_try rs (init rs).
Proof.
  intros (Hlen & _). unfold inv_first_try, init; simpl. split; [|split].
  - apply workers_at_init.
  - intros n [Hin | Hheld]; simpl in *; [inversion Hin | discriminate].
  - rewrite (total_map_WSelect unsent) by reflexivity.
    unfold starts. rewrite starts_from_length. unfold nonceCh_cap. simpl. lia.
Qed.

Lemma worker_passes s i j h d :
  inv_consistent s -> workers s !! i = Some (WCheck j h d) -> difficulty <= d.
Proof.
  intros (Hw & _) Hi.
  destruct (Forall_lookup_1 _ _ _ _ Hw Hi) as (_ & ->).
  rewrite target_zero. apply score_nonneg.
Qed.

Lemma inv_first_try_step rs a s s' :
  inv_consistent s -> inv_first_try rs s -> step a s s' ->
  inv_first_try rs s'.
Proof.
  intros Hcons (Hat & Hfl & Hsum) Hstep. unfold inv_first_try.
  destruct Hstep;
    try (match goal with
         | H : workers _ !! _ = Some (WCheck _ _ _), L : _ < difficulty |- _ =>
             pose proof (worker_passes _ _ _ _ _ Hcons H); lia
         end).
  all: split; [|split].
  all: try (simpl; eapply workers_at_update; [eassumption | eassumption |];
            intros st; simpl; tauto).
  all: try (simpl; assumption).
  all: try (simpl; rewrite ?length_app; simpl; try worker_sum unsent;
            repeat match goal with
                   | H : progressCh _ = _ |- _ => rewrite H in Hsum; simpl in Hsum
                   end; lia).
  all: try (intros n [Hin | Hheld]; simpl in *; apply Hfl;
            [left; assumption | right; assumption]).
  - (* the result is sent *)
    intros n [Hin | Hheld]; simpl in *.
    + apply elem_of_app in Hin as [Hin | Hin].
      * apply Hfl. now left.
      * apply list_elem_of_singleton in Hin as ->. simpl.
        destruct (Forall2_lookup_r _ _ _ _ _ Hat H) as (st & Hst & Hj).
        simpl in Hj. subst j. eapply list_elem_of_lookup_2. exact Hst.
    + apply Hfl. now right.
  - (* the caller receives *)
    intros n [Hin | Hheld]; simpl in *; apply Hfl; left; rewrite H0.
    + apply elem_of_cons. now right.
    + injection Hheld as <-. apply elem_of_cons. now left.
  - (* the caller closes the channel *)
    intros n [Hin | Hheld]; simpl in *; apply Hfl; [now left|].
    right. rewrite H. exact Hheld.
  - (* the caller has waited *)
    intros n [Hin | Hheld]; simpl in *; apply Hfl; [now left|].
    right. rewrite H. exact Hheld.
  - (* the caller is done *)
    intros n [Hin | Hheld]; simpl in *; apply Hfl; [now left|].
    right. rewrite H. simpl. revert Hheld. unfold nonceGen_finish.
    destruct (IsIDPubNonceValid (Hash nonce) (Nonce nonce) publicKey); simpl;
      [trivial | discriminate].
Qed.

End FirstTry.


(** *** [nonceGen] ends when every hash meets the target *)

Lemma first_active_Some ws : forall k i,
  first_active k ws = Some i ->
  exists w, ws !! (i - k)%nat = Some w /\ returned w = false /\ (k <= i)%nat.
Proof.
  induction ws as [|x rest IH]; intros k i Hf; simpl in Hf; [discriminate|].
  destruct (returned x) eqn:Hx.
  - destruct (IH (S k) i Hf) as (w & Hw & Hr & Hle).
    exists w. replace (i - k)%nat with (S (i - S k)) by lia.
    repeat split; (assumption || lia).
  - injection Hf as <-. exists x. rewrite Nat.sub_diag. now repeat split.
Qed.

Lemma first_active_None ws : forall k,
  first_active k ws = None ->
  forallb returned ws = true /\ total active ws = 0%nat.
Proof.
  induction ws as [|x rest IH]; intros k Hf; simpl in *; [now split|].
  unfold active at 1. destruct (returned x) eqn:Hx; [|discriminate].
  destruct (IH (S k) Hf) as (-> & ->). now split.
Qed.


Section Ends.
Hypothesis target_zero : difficulty = 0.
Hypothesis score_nonneg : forall h, 0 <= Hash_Difficulty h.
Hypothesis accepts : forall j,
  IsIDPubNonceValid (HashBlock publicKeyBytes j) j publicKey = true.

Lemma inv_returns_step a s s' :
  inv_consistent s -> inv_returns s -> step a s s' -> inv_returns s'.
Proof.
  intros (_ & _ & Hc) Hret Hstep. unfold inv_returns.
  destruct Hstep; simpl; try assumption; try discriminate.
  intros o [= <-]. exists nonce.
  destruct (Hc nonce) as (Hh & _); [now rewrite H|].
  unfold nonceGen_finish. unfold publicKeyBytes in *.
  rewrite Hh. unfold publicKeyBytes in accepts. now rewrite accepts.
Qed.

Lemma inv_all_init rs : draws_ok rs -> inv_all rs (init rs).
Proof.
  intros Hrs. split; [|split; [|split]].
  - apply inv_consistent_init.
  - now apply inv_nonceCh_init.
  - now apply inv_first_try_init.
  - intros o Ho. discriminate.
Qed.

Lemma inv_all_step rs a s s' : inv_all rs s -> step a s s' -> inv_all rs s'.
Proof.
  intros (Hc & Hn & Hf & Hr) Hstep. split; [|split; [|split]].
  - now apply (inv_consistent_step a s).
  - now apply (inv_nonceCh_step a s).
  - now apply (inv_first_try_step target_zero score_nonneg rs a s).
  - now apply (inv_returns_step a s).
Qed.

Lemma inv_all_run rs sched s s' :
  inv_all rs s -> run sched s = Some s' -> inv_all rs s'.
Proof. apply (run_invariant (inv_all rs) (inv_all_step rs)). Qed.

(** Every step but a tick brings the end nearer. *)
Lemma rank_step a s s' :
  inv_consistent s -> step a s s' ->
  if is_tick a then rank s' = rank s else (rank s' < rank s)%nat.
Proof.
  intros Hcons Hstep. unfold rank.
  destruct Hstep;
    try (match goal with
         | H : workers _ !! _ = Some (WCheck _ _ _), L : _ < difficulty |- _ =>
             pose proof (worker_passes target_zero score_nonneg _ _ _ _ _ Hcons H); lia
         end);
    simpl; rewrite ?length_app; simpl; try worker_sum worker_rank;
    repeat match goal with
           | H : caller_pc _ = _ |- _ => rewrite H
           | H : printer_pc _ = _ |- _ => rewrite H
           | H : progressCh _ = _ |- _ => rewrite H
           end; simpl; lia.
Qed.

Lemma rank_run sched : forall s s',
  inv_consistent s -> run sched s = Some s' ->
  (length (filter (fun a => is_tick a = false) sched) + rank s' <= rank s)%nat.
Proof.
  induction sched as [|a rest IH]; intros s s' Hc Hrun; simpl in Hrun.
  - injection Hrun as <-. simpl. lia.
  - destruct (fire a s) as [s1|] eqn:Hf; [|discriminate].
    apply fire_step in Hf.
    pose proof (rank_step a s s1 Hc Hf) as Hr.
    specialize (IH s1 s' (inv_consistent_step a s s1 Hc Hf) Hrun).
    rewrite filter_cons. destruct (is_tick a) eqn:Ht.
    + rewrite decide_False by discriminate. lia.
    + rewrite decide_True by reflexivity. simpl. lia.
Qed.

(** With no more workers than the progress channel has room for
    samples, the step [next_action] names is enabled until the end. *)
Lemma next_action_enabled rs s :
  (1 <= nonceCh_cap <= progressCh_cap)%nat ->
  inv_all rs s -> ended s = false ->
  is_tick (next_action s) = false /\
  exists s', fire (next_action s) s = Some s'.
Proof.
  intros Hcap (Hc & Hn & Hf & _) Hend. unfold next_action.
  destruct (caller_step s) as [s1|] eqn:Hcaller; [split; [reflexivity | now exists s1]|].
  destruct (printer_step on_stop s) as [s1|] eqn:Hprinter;
    [split; [reflexivity | now exists s1]|].
  destruct (first_active 0 (workers s)) as [i|] eqn:Hfirst.
  - split; [reflexivity|].
    destruct (first_active_Some _ _ _ Hfirst) as (w & Hw & Hr & _).
    rewrite Nat.sub_0_r in Hw. simpl. unfold worker_step. rewrite Hw.
    destruct w as [j | j h d | j h d |]; try discriminate.
    + destruct (stopCh s); eauto.
    + destruct Hf as (_ & _ & Hsum).
      pose proof (total_lookup unsent (workers s) i _ Hw) as Hle. simpl in Hle.
      destruct (Nat.ltb_spec (length (progressCh s)) progressCh_cap); [eauto | lia].
    + pose proof (worker_passes target_zero score_nonneg s i j h d Hc Hw) as Hp.
      pose proof (nonceCh_has_room s i _ Hn Hw eq_refl) as Hroom.
      destruct (Z.leb_spec difficulty d); [|lia].
      destruct (Nat.ltb_spec (length (nonceCh s)) nonceCh_cap); [eauto | lia].
  - exfalso. destruct (first_active_None _ _ Hfirst) as (Hall & Hzero).
    destruct Hn as (_ & _ & Hstop & Heq).
    unfold caller_step in Hcaller. unfold ended in Hend.
    unfold printer_step in Hprinter.
    destruct (caller_pc s) as [| n | n | n | o]; try discriminate.
    + destruct (nonceCh s) eqn:Hq; [|discriminate].
      specialize (Heq eq_refl). simpl in Heq. lia.
    + rewrite Hall in Hcaller. simpl in Hcaller, Hstop.
      destruct (printer_pc s); [|discriminate].
      rewrite Hstop in Hprinter. discriminate.
Qed.

(** Following [next_action] reaches the end within [rank s] steps. *)
Lemma drive_ends rs : forall fuel s,
  (1 <= nonceCh_cap <= progressCh_cap)%nat ->
  inv_all rs s -> (rank s <= fuel)%nat ->
  exists s', run (drive fuel s) s = Some s' /\ ended s' = true.
Proof.
  induction fuel as [|fuel IH]; intros s Hcap Hinv Hrank; simpl.
  - exists s. split; [reflexivity|]. unfold rank in Hrank. unfold ended.
    destruct (caller_pc s); simpl in Hrank; (reflexivity || lia).
  - destruct (ended s) eqn:Hend; [now exists s|].
    destruct (next_action_enabled rs s Hcap Hinv Hend) as (Htick & s1 & Hfire).
    rewrite Hfire. simpl. rewrite Hfire.
    pose proof (fire_step _ _ _ Hfire) as Hstep.
    pose proof (rank_step _ _ _ (proj1 Hinv) Hstep) as Hr.
    rewrite Htick in Hr.
    apply IH; [assumption | now apply (inv_all_step rs (next_action s) s) | lia].
Qed.

End Ends.


(** With a target of 0 and at most 100 workers, whatever the schedule:
    no worker leaves its starting nonce and every result in flight has
    the starting nonce of a worker; at most [rank (init rs)] steps other
    than ticks are taken; short of the end some step other than a tick is
    enabled; at the end the caller returns a result.  One schedule that
    reaches the end is [drive]'s. *)
Theorem nonceGen_target_zero_ends rs :
  difficulty = 0 ->
  (forall h, 0 <= Hash_Difficulty h) ->
  (forall j, IsIDPubNonceValid (HashBlock publicKeyBytes j) j publicKey = true) ->
  1 <= cpuCount <= 100 ->
  draws_ok rs ->
  (forall sched s,
     run sched (init rs) = Some s ->
     Forall2 worker_at (starts rs) (workers s) /\
     (forall n, in_flight s n -> Nonce n ∈ starts rs) /\
     (length (filter (fun a => is_tick a = false) sched) + rank s
        <= rank (init rs))%nat /\
     (ended s = false ->
        exists a s', is_tick a = false /\ fire a s = Some s') /\
     (ended s = true ->
        exists n, caller_pc s = MEnd (Returned (Some n)) /\
                  Nonce n ∈ starts rs)) /\
  (exists sched s n,
     run sched (init rs) = Some s /\
     caller_pc s = MEnd (Returned (Some n)) /\
     Nonce n ∈ starts rs /\
     Hash n = HashBlock publicKeyBytes (Nonce n) /\
     Difficulty n = Hash_Difficulty (Hash n)).
Proof.
  intros Hzero Hscore Hvalid Hcpu Hrs.
  assert (Hcap : (1 <= nonceCh_cap <= progressCh_cap)%nat)
    by (unfold nonceCh_cap, progressCh_cap; lia).
  pose proof (inv_all_init rs Hrs) as Hinit.
  assert (Hend : forall s, inv_all rs s -> ended s = true ->
            exists n, caller_pc s = MEnd (Returned (Some n)) /\
                      Nonce n ∈ starts rs /\ consistent n).
  { intros s (Hc & _ & (_ & Hfl & _) & Hret) He. unfold ended in He.
    destruct (caller_pc s) as [| | | | o] eqn:Hpc; try discriminate.
    destruct (Hret o Hpc) as (n & ->). exists n.
    split; [reflexivity|]. split.
    - apply Hfl. right. now rewrite Hpc.
    - destruct Hc as (_ & _ & Hc). apply Hc. now rewrite Hpc. }
  split.
  - intros sched s Hrun.
    pose proof (inv_all_run Hzero Hscore Hvalid rs sched _ _ Hinit Hrun) as Hinv.
    destruct Hinv as (Hc & Hn & (Hat & Hfl & Hsum) & Hret) eqn:E. clear E.
    split; [exact Hat|]. split; [exact Hfl|]. split; [|split].
    + apply (rank_run Hzero Hscore sched (init rs) s);
        [apply inv_consistent_init | exact Hrun].
    + intros He.
      destruct (next_action_enabled Hzero Hscore rs s Hcap Hinv He)
        as (Ht & s' & Hf).
      now exists (next_action s), s'.
    + intros He. destruct (Hend s Hinv He) as (n & Hpc & Hin & _). now exists n.
  - destruct (drive_ends Hzero Hscore Hvalid rs (rank (init rs)) (init rs)
                Hcap Hinit (Nat.le_refl _)) as (s & Hrun & He).
    pose proof (inv_all_run Hzero Hscore Hvalid rs _ _ _ Hinit Hrun) as Hinv.
    destruct (Hend s Hinv He) as (n & Hpc & Hin & Hh & Hd & _).
    exists (drive (rank (init rs)) (init rs)), s, n. now repeat split.
Qed.


(** *** The end of [nonceGen] *)

Lemma inv_halt_init rs : inv_halt (init rs).
Proof. unfold inv_halt, init; simpl. repeat split. discriminate. Qed.

Lemma returned_no_step s i w :
  forallb returned (workers s) = true -> workers s !! i = Some w -> w = WReturn.
Proof.
  intros Hall Hw. pose proof (forallb_lookup _ _ _ _ Hall Hw) as Hr.
  now destruct w.
Qed.

Lemma inv_halt_step a s s' : inv_halt s -> step a s s' -> inv_halt s'.
Proof.
  intros (Hdone & Hquiet & Hcode) Hstep. unfold inv_halt.
  destruct Hstep; simpl.
  1-5: (split; [|split; [exact Hquiet | exact Hcode]]);
       destruct (caller_pc _) as [| | | n | o]; try exact I;
       destruct Hdone as (Hall & _);
       match goal with
       | H : workers _ !! _ = Some _ |- _ =>
           pose proof (returned_no_step _ _ _ Hall H); discriminate
       end.
  1-4: match goal with
       | H : printer_pc ?st = PSelect _ _ |- _ =>
           destruct (caller_pc st) as [| | | n | o];
             try (destruct Hdone as (_ & Hp); congruence);
             (split; [exact I|]); (split; [|exact Hcode]);
             rewrite ?forallb_app; simpl; rewrite ?Hquiet; reflexivity
       end.
  - (* the caller receives *)
    rewrite H in Hquiet.
    split; [exact I|]. split; [exact Hquiet|]. discriminate.
  - (* the caller closes the channel *)
    rewrite H in Hquiet.
    split; [exact I|]. split; [exact Hquiet|]. discriminate.
  - (* the caller has waited *)
    rewrite H in Hquiet.
    split; [now split|]. split; [exact Hquiet|]. discriminate.
  - (* the caller is done *)
    rewrite H in Hquiet, Hdone.
    split; [exact Hdone|]. unfold nonceGen_finish.
    destruct (IsIDPubNonceValid (Hash nonce) (Nonce nonce) publicKey); simpl.
    + split; [exact I|]. discriminate.
    + split; [|now intros code [= <-]].
      rewrite forallb_app, Hquiet. reflexivity.
Qed.

Lemma reachable_halt rs s : reachable rs s -> inv_halt s.
Proof.
  intros (sched & Hrun).
  apply (run_invariant inv_halt inv_halt_step sched (init rs));
    [apply inv_halt_init | exact Hrun].
Qed.

(** Once the caller has ended nothing moves. *)
Lemma ended_deadlocked s o :
  inv_halt s -> caller_pc s = MEnd o -> deadlocked s.
Proof.
  intros (Hdone & _) Hpc. rewrite Hpc in Hdone. destruct Hdone as (Hall & Hp).
  intros [i | c |]; simpl.
  - unfold worker_step. destruct (workers s !! i) as [w|] eqn:Hw; [|reflexivity].
    now rewrite (returned_no_step _ _ _ Hall Hw).
  - unfold printer_step. now rewrite Hp.
  - unfold caller_step. now rewrite Hpc.
Qed.


End OneShot.

(** C7.  When the check rejects the result, [nonceGen] prints the newline,
    logs the fatal entry and the process exits with status 1: neither of
    the two lines reporting the identity is written and nothing is
    returned.  This holds of every run: the caller at the check with a
    result that is rejected ends with status 1, no run that ends with a
    status has written an identity, and nothing moves after it.
    [nonceLoop] logs the verdict, prints the two lines for the result it
    holds and returns. *)
Theorem verification_failure_outcomes {env : MinerEnv} nonce results :
  (IsIDPubNonceValid (Hash nonce) (Nonce nonce) publicKey = false ->
     nonceGen_finish nonce =
       ([ Printf_newline; Fatal_invalid_nonce nonce (Hash nonce) ], os_Exit 1) /\
     forallb quiet (fst (nonceGen_finish nonce)) = true) /\
  (forall rs sched s,
     run sched (init rs) = Some s ->
     (caller_pc s = MFinish nonce ->
      IsIDPubNonceValid (Hash nonce) (Nonce nonce) publicKey = false ->
      exists s',
        fire Caller s = Some s' /\
        caller_pc s' = MEnd (os_Exit 1) /\
        output s' = output s ++ [ Printf_newline; Fatal_invalid_nonce nonce (Hash nonce) ] /\
        forallb quiet (output s') = true /\
        deadlocked s') /\
     (forall code, caller_pc s = MEnd (os_Exit code) ->
        code = 1 /\ forallb quiet (output s) = true /\ deadlocked s)) /\
  (IsIDPubNonceValid (Hash (collect results)) (Nonce (collect results)) publicKey = false ->
     nonceLoop_finish results =
       ([ Infof_verify_result false;
          Printf_nonce (collect results);
          Printf_node_id (Hash (collect results)) ],
        Returned None)).
Proof.
  assert (Hgen : IsIDPubNonceValid (Hash nonce) (Nonce nonce) publicKey = false ->
            nonceGen_finish nonce =
              ([ Printf_newline; Fatal_invalid_nonce nonce (Hash nonce) ], os_Exit 1)).
  { intros Hbad. unfold nonceGen_finish. now rewrite Hbad. }
  split; [|split].
  - intros Hbad. split; [now apply Hgen|]. now rewrite (Hgen Hbad).
  - intros rs sched s Hrun.
    assert (Hhalt : inv_halt s) by (apply (reachable_halt rs); now exists sched).
    split.
    + intros Hpc Hbad.
      assert (Hfire : fire Caller s =
                Some (set_caller (MEnd (snd (nonceGen_finish nonce)))
                        (print (fst (nonceGen_finish nonce)) s)))
        by (simpl; unfold caller_step; now rewrite Hpc).
      pose proof (inv_halt_step _ _ _ Hhalt (fire_step _ _ _ Hfire)) as Hhalt'.
      rewrite (Hgen Hbad) in Hfire, Hhalt'. simpl in Hfire, Hhalt'.
      eexists. split; [exact Hfire|]. split; [reflexivity|].
      split; [reflexivity|]. split.
      * now destruct Hhalt' as (_ & Hq & _).
      * now apply (ended_deadlocked _ (os_Exit 1) Hhalt').
    + intros code Hpc. destruct Hhalt as (Hdone & Hq & Hcode) eqn:E. clear E.
      split; [now apply Hcode|]. split.
      * now rewrite Hpc in Hq.
      * now apply (ended_deadlocked s (os_Exit code)).
  - intros Hbad. unfold nonceLoop_finish, nonceLoop_report. now rewrite Hbad.
Qed.

(** ** The drivers run in the sample environment *)

Lemma sample_score_nonneg h : 0 <= Sample.leading_zeros h.
Proof. unfold Sample.leading_zeros. destruct (h <=? 0); lia. Qed.

Lemma crowd_draws_ok : @draws_ok (Sample.env 0 128) Sample.crowd_draws.
Proof.
  split; [reflexivity|].
  apply Forall_replicate. unfold is_uint32. lia.
Qed.

Lemma after_true {env : MinerEnv} sched s0 chk :
  after sched s0 chk = true ->
  exists s, run sched s0 = Some s /\ chk s = true.
Proof.
  unfold after. destruct (run sched s0) as [s|]; [|discriminate].
  intros Hchk. now exists s.
Qed.

Lemma deadlocked_run {env : MinerEnv} s sched s' :
  deadlocked s -> run sched s = Some s' -> s' = s.
Proof.
  intros Hdead Hrun. destruct sched as [|a rest]; simpl in Hrun.
  - now injection Hrun as <-.
  - rewrite (Hdead a) in Hrun. discriminate.
Qed.

Lemma at_progress_send_true {env : MinerEnv} i s :
  at_progress_send i s = true ->
  exists j h d, workers s !! i = Some (WProgress j h d).
Proof.
  unfold at_progress_send.
  destruct (workers s !! i) as [[j | j h d | j h d |]|]; try discriminate.
  intros _. now exists j, h, d.
Qed.

Lemma printer_returned_true {env : MinerEnv} s :
  printer_returned s = true -> printer_pc s = PReturn.
Proof. unfold printer_returned. now destruct (printer_pc s). Qed.

Lemma caller_waits_true {env : MinerEnv} s :
  caller_waits s = true -> exists n, caller_pc s = MWait n.
Proof.
  unfold caller_waits. destruct (caller_pc s) as [| | n | |]; try discriminate.
  intros _. now exists n.
Qed.

(** C9, as the description has it, fails.  In the run of
    [Sample.stall_schedule] worker 1 is at its progress send with 100
    samples queued and cannot move; the printer has returned, so that no
    sample will be received any more, and the caller waits for worker 1:
    nothing can move and [nonceGen] has not ended. *)
Lemma progress_send_stalls_worker :
  exists s,
    @run (Sample.env 7 2) Sample.stall_schedule
      (@init (Sample.env 7 2) Sample.stall_draws) = Some s /\
    length (progressCh s) = progressCh_cap /\
    (exists j h d, workers s !! 1%nat = Some (WProgress j h d)) /\
    fire (Worker 1) s = None /\
    printer_pc s = PReturn /\
    ended s = false /\
    deadlocked s.
Proof.
  destruct (@after_true (Sample.env 7 2) Sample.stall_schedule
              (@init (Sample.env 7 2) Sample.stall_draws)
              (fun s => deadlockedb s
                        && (length (progressCh s) =? progressCh_cap)%nat
                        && at_progress_send 1 s
                        && printer_returned s
                        && negb (ended s)))
    as (s & Hrun & Hchk); [vm_compute; reflexivity|].
  do 4 (apply andb_prop in Hchk as (Hchk & ?)).
  apply deadlockedb_sound in Hchk.
  exists s. split; [exact Hrun|]. split; [apply Nat.eqb_eq; assumption|].
  split; [apply at_progress_send_true; assumption|]. split; [apply Hchk|].
  split; [apply printer_returned_true; assumption|].
  split; [apply negb_true_iff; assumption | exact Hchk].
Qed.

(** C8 on a machine of 128 processors.  The target is 0, every score is
    non-negative and the check accepts every result that hashes back; in the
    run of [Sample.crowd_schedule] worker 127 is at its progress send with
    100 samples queued, the printer has returned and the caller is in
    [wg.Wait()]: nothing can move and [nonceGen] has not ended. *)
Theorem nonceGen_target_zero_deadlock :
  @difficulty (Sample.env 0 128) = 0 /\
  (forall h, 0 <= @Hash_Difficulty (Sample.env 0 128) h) /\
  (forall j, @IsIDPubNonceValid (Sample.env 0 128)
               (@HashBlock (Sample.env 0 128) (@publicKeyBytes (Sample.env 0 128)) j)
               j (@publicKey (Sample.env 0 128)) = true) /\
  @draws_ok (Sample.env 0 128) Sample.crowd_draws /\
  exists s,
    @run (Sample.env 0 128) Sample.crowd_schedule
      (@init (Sample.env 0 128) Sample.crowd_draws) = Some s /\
    length (progressCh s) = progressCh_cap /\
    printer_pc s = PReturn /\
    (exists n, caller_pc s = MWait n) /\
    (exists j h d, workers s !! 127%nat = Some (WProgress j h d)) /\
    ended s = false /\
    deadlocked s.
Proof.
  split; [reflexivity|]. split; [exact sample_score_nonneg|].
  split; [intros j; apply Z.eqb_refl|]. split; [exact crowd_draws_ok|].
  destruct (@after_true (Sample.env 0 128) Sample.crowd_schedule
              (@init (Sample.env 0 128) Sample.crowd_draws)
              (fun s => deadlockedb s
                        && (length (progressCh s) =? progressCh_cap)%nat
                        && printer_returned s
                        && caller_waits s
                        && at_progress_send 127 s
                        && negb (ended s)))
    as (s & Hrun & Hchk); [vm_compute; reflexivity|].
  do 5 (apply andb_prop in Hchk as (Hchk & ?)).
  apply deadlockedb_sound in Hchk.
  exists s. split; [exact Hrun|]. split; [apply Nat.eqb_eq; assumption|].
  split; [apply printer_returned_true; assumption|].
  split; [apply caller_waits_true; assumption|].
  split; [apply at_progress_send_true; assumption|].
  split; [apply negb_true_iff; assumption | exact Hchk].
Qed.

(** C1 on a machine of 128 processors with the target 0.  In the run of
    [Sample.crowd_schedule] worker 127 is at its progress send with its
    current nonce, the hash of that nonce and the score of that hash, and
    the score meets the target; 100 samples are queued and the printer has
    returned.  Nothing can move: whatever is scheduled from there on, the
    state is the same, so that the worker neither sends its result nor
    returns. *)
Theorem worker_with_hit_never_emits :
  @draws_ok (Sample.env 0 128) Sample.crowd_draws /\
  exists s j h d,
    @run (Sample.env 0 128) Sample.crowd_schedule
      (@init (Sample.env 0 128) Sample.crowd_draws) = Some s /\
    workers s !! 127%nat = Some (WProgress j h d) /\
    h = @HashBlock (Sample.env 0 128) (@publicKeyBytes (Sample.env 0 128)) j /\
    d = @Hash_Difficulty (Sample.env 0 128) h /\
    @difficulty (Sample.env 0 128) <= d /\
    length (progressCh s) = progressCh_cap /\
    printer_pc s = PReturn /\
    fire (Worker 127) s = None /\
    forall sched s', run sched s = Some s' -> s' = s.
Proof.
  split; [exact crowd_draws_ok|].
  destruct (@after_true (Sample.env 0 128) Sample.crowd_schedule
              (@init (Sample.env 0 128) Sample.crowd_draws)
              (fun s => deadlockedb s
                        && (length (progressCh s) =? progressCh_cap)%nat
                        && printer_returned s
                        && at_progress_send 127 s))
    as (s & Hrun & Hchk); [vm_compute; reflexivity|].
  do 3 (apply andb_prop in Hchk as (Hchk & ?)).
  apply deadlockedb_sound in Hchk.
  destruct (at_progress_send_true 127 s) as (j & h & d & Hw); [assumption|].
  assert (Hreach : reachable Sample.crowd_draws s)
    by (exists Sample.crowd_schedule; exact Hrun).
  destruct (reachable_consistent _ s Hreach) as (Hall & _ & _).
  destruct (Forall_lookup_1 _ _ _ _ Hall Hw) as (Hh & Hd).
  exists s, j, h, d. split; [exact Hrun|]. split; [exact Hw|].
  split; [exact Hh|]. split; [exact Hd|].
  split; [rewrite Hd; apply sample_score_nonneg|].
  split; [apply Nat.eqb_eq; assumption|].
  split; [apply printer_returned_true; assumption|].
  split; [apply Hchk|].
  intros sched s' Hrun'. exact (deadlocked_run s sched s' Hchk Hrun').
Qed.

(** C2, as the description has it, fails.  A single collected result of
    difficulty 0, which is the one of greatest difficulty, is not what
    [max] ends as: [max] keeps the zero value it started with. *)
Lemma collect_skips_zero_difficulty :
  Sample.leading_zeros (Sample.digest [] {| A := 200; B := 0; C := 0; D := 0 |}) = 0 /\
  collect [Sample.result 200 0] = NonceInfo_zero /\
  winner [Sample.result 200 0] = None /\
  collect [Sample.result 200 0] ∉ [Sample.result 200 0].
Proof.
  split; [reflexivity|]. split; [reflexivity|]. split; [reflexivity|].
  rewrite list_elem_of_singleton. discriminate.
Qed.

(** The difficulties 5, 9, 3 and 9: the second result is kept. *)
Example collect_four_results :
  winner Sample.four_results = Some 1%nat /\
  collect Sample.four_results = Sample.result 12 9.
Proof. split; reflexivity. Qed.

Lemma collect_selects_first_maximum_witness :
  (exists k,
     winner Sample.four_results = Some k /\
     Sample.four_results !! k = Some (Sample.result 12 9) /\
     forall k' r, (k' < k)%nat -> Sample.four_results !! k' = Some r ->
                  Difficulty r < 9) /\
  collect [Sample.result 200 0; Sample.result 201 0] = NonceInfo_zero /\
  winner [Sample.result 200 0; Sample.result 201 0] = None.
Proof.
  split.
  - assert (Hpos : Exists (fun r => 0 < Difficulty r) Sample.four_results)
      by (apply Exists_cons_hd; simpl; lia).
    destruct (proj1 (collect_selects_first_maximum Sample.four_results) Hpos)
      as (k & Hw & Hl & _ & Hfirst).
    exists k. split; [exact Hw|]. split; [exact Hl|]. exact Hfirst.
  - apply (proj2 (collect_selects_first_maximum
                    [Sample.result 200 0; Sample.result 201 0])).
    repeat constructor; simpl; lia.
Defined.

Lemma collect_keeps_zero_placeholder_witness :
  collect [Sample.result 200 0; Sample.result 201 0] = NonceInfo_zero /\
  winner [Sample.result 200 0; Sample.result 201 0] = None /\
  winner Sample.four_results <> Some 2%nat.
Proof.
  destruct (collect_keeps_zero_placeholder [Sample.result 200 0; Sample.result 201 0])
    as (_ & _ & _ & _ & _ & _ & _ & _ & Hzero).
  destruct Hzero as (Hc & Hw & _).
  { repeat constructor. }
  destruct (collect_keeps_zero_placeholder Sample.four_results)
    as (_ & _ & _ & _ & _ & _ & Hpos & _ & _).
  split; [exact Hc|]. split; [exact Hw|].
  intros Hw2. destruct (Hpos 2%nat Hw2) as (r & Hr & Hd).
  vm_compute in Hw2. discriminate.
Defined.


Lemma verification_failure_outcomes_witness :
  nonceGen_finish Sample.forged =
    ([ Printf_newline; Fatal_invalid_nonce Sample.forged (Hash Sample.forged) ],
     os_Exit 1) /\
  nonceLoop_finish [Sample.forged] =
    ([ Infof_verify_result false; Printf_nonce Sample.forged;
       Printf_node_id (Hash Sample.forged) ],
     Returned None).
Proof.
  destruct (verification_failure_outcomes Sample.forged [Sample.forged])
    as (Hgen & _ & Hloop).
  split.
  - apply Hgen. reflexivity.
  - apply Hloop. reflexivity.
Defined.

Lemma worker_emits_consistent_result_witness :
  exists s s' n,
    @run (Sample.env 7 2) [Worker 0; Worker 0]
      (@init (Sample.env 7 2) Sample.stall_draws) = Some s /\
    fire (Worker 0) s = Some s' /\
    nonceCh s' = nonceCh s ++ [n] /\
    Hash n = HashBlock (@publicKeyBytes (Sample.env 7 2)) (Nonce n) /\
    workers s' !! 0%nat = Some WReturn.
Proof.
  destruct (@after_true (Sample.env 7 2) [Worker 0; Worker 0]
              (@init (Sample.env 7 2) Sample.stall_draws)
              (at_passing_check 0))
    as (s & Hrun & Hchk); [vm_compute; reflexivity|].
  assert (Hrs : @draws_ok (Sample.env 7 2) Sample.stall_draws).
  { split; [reflexivity|]. repeat constructor; unfold is_uint32; lia. }
  destruct (@worker_emits_consistent_result (Sample.env 7 2)
              Sample.stall_draws _ s Hrs Hrun) as (Hcheck & _ & _).
  unfold at_passing_check in Hchk.
  destruct (workers s !! 0%nat) as [[j | j h d | j h d |]|] eqn:Hw;
    try discriminate.
  destruct (Hcheck 0%nat j h d Hw) as (Hh & _ & Hemit).
  destruct Hemit as (s' & Hf & Hq & Hw' & _); [apply Z.leb_le; exact Hchk|].
  exists s, s'. eexists. split; [exact Hrun|]. split; [exact Hf|].
  split; [exact Hq|]. split; [exact Hh | exact Hw'].
Defined.

Lemma progress_send_blocks_when_full_witness :
  exists s s' d,
    @run (Sample.env 7 2) [Worker 1]
      (@init (Sample.env 7 2) Sample.stall_draws) = Some s /\
    fire (Worker 1) s = Some s' /\
    progressCh s' = progressCh s ++ [d].
Proof.
  destruct (@after_true (Sample.env 7 2) [Worker 1]
              (@init (Sample.env 7 2) Sample.stall_draws)
              (fun s => at_progress_send 1 s
                        && (length (progressCh s) <? progressCh_cap)%nat))
    as (s & Hrun & Hchk); [vm_compute; reflexivity|].
  apply andb_prop in Hchk as (Hat & Hroom).
  destruct (at_progress_send_true _ _ Hat) as (j & h & d & Hw).
  destruct (@progress_send_blocks_when_full (Sample.env 7 2)
              Sample.stall_draws _ s 1%nat j h d Hrun Hw) as (_ & Hsend & _).
  destruct Hsend as (s' & Hf & Hq & _); [apply Nat.ltb_lt; exact Hroom|].
  exists s, s', d. split; [exact Hrun|]. split; [exact Hf | exact Hq].
Defined.

Lemma nonceGen_target_zero_ends_witness :
  exists sched s n,
    @run (Sample.env 0 4) sched (@init (Sample.env 0 4) [1; 2; 3; 4]) = Some s /\
    caller_pc s = MEnd (Returned (Some n)) /\
    Nonce n ∈ @starts (Sample.env 0 4) [1; 2; 3; 4].
Proof.
  assert (Hrs : @draws_ok (Sample.env 0 4) [1; 2; 3; 4]).
  { split; [reflexivity|]. repeat constructor; unfold is_uint32; lia. }
  destruct (@nonceGen_target_zero_ends (Sample.env 0 4) [1; 2; 3; 4]
              eq_refl sample_score_nonneg (fun j => Z.eqb_refl _)
              ltac:(simpl; lia) Hrs) as (_ & sched & s & n & Hrun & Hpc & Hin & _).
  now exists sched, s, n.
Defined.

(** ** [nonceLoop] as a machine *)

Section Loop.
Context {env : MinerEnv}.

Lemma loop_total_insert ws i w w' :
  ws !! i = Some w ->
  (loop_total (<[i := w']> ws) + searching w = loop_total ws + searching w')%nat.
Proof.
  revert i. induction ws as [|x rest IH]; intros [|i] Hl; simpl in *;
    try discriminate.
  - injection Hl as ->. lia.
  - specialize (IH i Hl). lia.
Qed.

Lemma loop_starts_from_length rs : forall i,
  length (loop_starts_from i rs) = length rs.
Proof. induction rs as [|r rest IH]; intros i; simpl; [reflexivity | now rewrite IH]. Qed.

Lemma collect_snoc results n :
  collect (results ++ [n]) = collect_step (collect results) n.
Proof.
  unfold collect, collect_loop.
  rewrite !collect_from_fold, fold_left_app. reflexivity.
Qed.

Lemma loop_run_invariant (P : loop_state -> Prop) :
  (forall a s s', P s -> loop_fire a s = Some s' -> P s') ->
  forall sched s s', P s -> loop_run sched s = Some s' -> P s'.
Proof.
  intros Hstep. induction sched as [|a rest IH]; intros s s' Hs Hrun; simpl in Hrun.
  - now injection Hrun as <-.
  - destruct (loop_fire a s) as [s1|] eqn:Hf; [|discriminate].
    apply (IH s1); [now apply (Hstep a s) | assumption].
Qed.

Lemma loop_inv_init rs :
  length rs = Z.to_nat cpuCount -> loop_inv (loop_init rs).
Proof.
  intros Hlen. constructor; simpl;
    rewrite ?length_map, ?loop_starts_from_length, ?length_replicate;
    unfold nonceCh_cap; try lia.
  - intros k Hk. apply lookup_replicate_2. lia.
  - intros k w Hw. apply list_lookup_fmap_Some in Hw as (st & -> & _).
    split; [discriminate | lia].
  - intros _. split; reflexivity.
  - discriminate.
Qed.

Section Sends.
Hypothesis sends : forall j, is_Some (on_cancel j).

(** What a worker at its [select] does next is not to return. *)
Lemma loop_worker_next s i j s' :
  loop_workers s !! i = Some (LSelect j) ->
  loop_worker_step i s = Some s' ->
  exists next,
    next <> LReturn /\
    (stopChs s !! i = Some true -> searching next = 0%nat) /\
    s' = {| loop_workers := <[i := next]> (loop_workers s);
            stopChs := stopChs s;
            loop_caller_pc := loop_caller_pc s;
            collected := collected s;
            loop_output := loop_output s |}.
Proof.
  intros Hw. unfold loop_worker_step. rewrite Hw. intros [= <-].
  eexists. split; [|split; [|reflexivity]].
  - destruct (stopChs s !! i) as [[|]|].
    + destruct (sends j) as (c & ->). discriminate.
    + destruct (difficulty <=? _); discriminate.
    + destruct (difficulty <=? _); discriminate.
  - intros ->. destruct (sends j) as (c & ->). reflexivity.
Qed.

Lemma loop_inv_worker_step i s s' :
  loop_inv s -> loop_worker_step i s = Some s' -> loop_inv s'.
Proof.
  intros Hinv Hfire.
  destruct (loop_workers s !! i) as [[j | n |]|] eqn:Hw;
    try (unfold loop_worker_step in Hfire; rewrite Hw in Hfire; discriminate).
  destruct (loop_worker_next s i j s' Hw Hfire) as (next & Hnext & _ & ->).
  destruct Hinv as [Hlw Hls Hcd Hrd Hstops Hret Hcol Hmax Hout].
  constructor; simpl; rewrite ?length_insert; try assumption.
  intros k w Hk. destruct (Nat.eq_dec k i) as [-> | Hki].
  - rewrite list_lookup_insert_eq in Hk by (now apply lookup_lt_Some in Hw).
    injection Hk as <-. split; [intros; contradiction|].
    intros Hlt. destruct (Hret i _ Hw) as (_ & Hback).
    now specialize (Hback Hlt).
  - rewrite list_lookup_insert_ne in Hk by auto. now apply Hret.
Qed.

Lemma ltb_succ k i :
  k <> i -> (k <? S i)%nat = (k <? i)%nat.
Proof.
  intros Hki. destruct (Nat.ltb_spec k i), (Nat.ltb_spec k (S i)); (reflexivity || lia).
Qed.

Lemma loop_inv_caller_step s s' :
  loop_inv s -> loop_caller_step s = Some s' -> loop_inv s'.
Proof.
  intros [Hlw Hls Hcd Hrd Hstops Hret Hcol Hmax Hout] Hfire.
  unfold loop_caller_step in Hfire.
  destruct (loop_caller_pc s) as [| i | i max | max |] eqn:Hpc; simpl in *.
  - (* the signal *)
    injection Hfire as <-. constructor; simpl; try assumption; try lia.
    + intros _. apply Hmax. discriminate.
    + discriminate.
  - destruct (Nat.ltb_spec i nonceCh_cap) as [Hi | Hi]; injection Hfire as <-.
    + (* one stop channel closed *)
      constructor; simpl; rewrite ?length_insert; try assumption; try lia.
      * intros k Hk. destruct (Nat.eq_dec k i) as [-> | Hki].
        -- rewrite list_lookup_insert_eq by lia.
           f_equal. symmetry. apply Nat.ltb_lt. lia.
        -- rewrite list_lookup_insert_ne by auto.
           rewrite (Hstops k Hk). now rewrite ltb_succ.
      * intros _. apply Hmax. discriminate.
      * discriminate.
    + (* all of them closed *)
      assert (i = nonceCh_cap) as -> by lia.
      constructor; simpl; try assumption; try lia.
      * intros _. destruct (collected s); [|simpl in Hcol; lia].
        split; [reflexivity|]. apply Hmax. discriminate.
      * discriminate.
  - destruct (Nat.ltb_spec i nonceCh_cap) as [Hi | Hi].
    + (* one result read *)
      destruct (loop_workers s !! i) as [[j | n |]|] eqn:Hw; try discriminate.
      injection Hfire as <-.
      constructor; simpl; rewrite ?length_insert, ?length_app; simpl;
        try assumption; try lia.
      * intros k w Hk. destruct (Nat.eq_dec k i) as [-> | Hki].
        -- rewrite list_lookup_insert_eq in Hk by lia.
           injection Hk as <-. split; [lia | reflexivity].
        -- rewrite list_lookup_insert_ne in Hk by auto.
           rewrite (Hret k w Hk). lia.
      * intros _. destruct Hmax as (Hm & Ho); [discriminate|].
        split; [|exact Ho]. rewrite collect_snoc. now rewrite <- Hm.
      * discriminate.
    + (* all of them read *)
      assert (i = nonceCh_cap) as -> by lia.
      injection Hfire as <-.
      constructor; simpl; try assumption; try lia.
      * intros _. apply Hmax. discriminate.
      * discriminate.
  - (* the report *)
    injection Hfire as <-.
    constructor; simpl; try assumption; try lia.
    + intros Hne. now contradiction Hne.
    + intros _. destruct Hmax as (Hm & ->); [discriminate|].
      unfold nonceLoop_finish. simpl. now rewrite Hm.
  - discriminate.
Qed.

Lemma loop_inv_step a s s' :
  loop_inv s -> loop_fire a s = Some s' -> loop_inv s'.
Proof.
  destruct a as [i|]; simpl.
  - apply loop_inv_worker_step.
  - apply loop_inv_caller_step.
Qed.


(** No step takes the caller further from the end; the caller's steps and
    those of a worker whose stop channel is closed bring it nearer. *)
Lemma loop_rank_step a s s' :
  loop_inv s -> loop_fire a s = Some s' ->
  (loop_rank s' <= loop_rank s)%nat /\
  (match a with
   | LCaller => True
   | LWorker i => stopChs s !! i = Some true
   end -> (loop_rank s' < loop_rank s)%nat).
Proof.
  intros Hinv Hfire. unfold loop_rank.
  destruct a as [i|]; simpl in Hfire.
  - destruct (loop_workers s !! i) as [[j | n |]|] eqn:Hw;
      try (unfold loop_worker_step in Hfire; rewrite Hw in Hfire; discriminate).
    destruct (loop_worker_next s i j s' Hw Hfire) as (next & _ & Hclosed & ->).
    simpl. pose proof (loop_total_insert (loop_workers s) i _ next Hw) as Hsum.
    simpl in Hsum. split.
    + destruct next; simpl in Hsum; lia.
    + intros Hstop. specialize (Hclosed Hstop). lia.
  - destruct Hinv as [Hlw Hls Hcd Hrd Hstops Hret Hcol Hmax Hout].
    unfold loop_caller_step in Hfire.
    destruct (loop_caller_pc s) as [| i | i max | max |] eqn:Hpc; simpl in *.
    + injection Hfire as <-. simpl. lia.
    + destruct (Nat.ltb_spec i nonceCh_cap); injection Hfire as <-; simpl; lia.
    + destruct (Nat.ltb_spec i nonceCh_cap).
      * destruct (loop_workers s !! i) as [[j | n |]|] eqn:Hw; try discriminate.
        injection Hfire as <-. simpl.
        pose proof (loop_total_insert (loop_workers s) i _ LReturn Hw) as Hsum.
        simpl in Hsum. lia.
      * injection Hfire as <-. simpl. lia.
    + injection Hfire as <-. simpl. lia.
    + discriminate.
Qed.

(** Once the signal is received the step [loop_next] names is enabled
    until the end, and it is the caller's or that of a worker whose stop
    channel is closed. *)
Lemma loop_next_enabled s :
  loop_inv s -> signalled s = true -> loop_ended s = false ->
  (exists s', loop_fire (loop_next s) s = Some s') /\
  match loop_next s with
  | LCaller => True
  | LWorker i => stopChs s !! i = Some true
  end.
Proof.
  intros [Hlw Hls Hcd Hrd Hstops Hret Hcol Hmax Hout] Hsig Hend.
  unfold loop_next.
  destruct (loop_caller_step s) as [s1|] eqn:Hcaller.
  { split; [now exists s1 | exact I]. }
  unfold loop_caller_step in Hcaller.
  unfold signalled in Hsig. unfold loop_ended in Hend.
  destruct (loop_caller_pc s) as [| i | i max | max |] eqn:Hpc;
    try discriminate.
  - destruct (i <? nonceCh_cap)%nat; discriminate.
  - destruct (Nat.ltb_spec i nonceCh_cap) as [Hi | Hi]; [|discriminate].
    simpl in *.
    assert (Hstop : stopChs s !! i = Some true).
    { rewrite (Hstops i Hi). f_equal. apply Nat.ltb_lt. lia. }
    split; [|exact Hstop].
    destruct (loop_workers s !! i) as [[j | n |]|] eqn:Hw; try discriminate.
    + simpl. unfold loop_worker_step. rewrite Hw. eauto.
    + destruct (Hret i LReturn Hw) as (Hlt & _). specialize (Hlt eq_refl). lia.
    + apply lookup_ge_None in Hw. lia.
Qed.

Lemma loop_drive_ends : forall fuel s,
  loop_inv s -> signalled s = true -> (loop_rank s <= fuel)%nat ->
  exists s', loop_run (loop_drive fuel s) s = Some s' /\ loop_ended s' = true.
Proof.
  induction fuel as [|fuel IH]; intros s Hinv Hsig Hrank; simpl.
  - exists s. split; [reflexivity|]. unfold loop_rank in Hrank. unfold loop_ended.
    destruct (loop_caller_pc s); simpl in Hrank; (reflexivity || lia).
  - destruct (loop_ended s) eqn:Hend; [now exists s|].
    destruct (loop_next_enabled s Hinv Hsig Hend) as ((s1 & Hfire) & Hkind).
    rewrite Hfire. simpl. rewrite Hfire.
    destruct (loop_rank_step _ _ _ Hinv Hfire) as (_ & Hlt).
    specialize (Hlt Hkind).
    apply IH; [now apply (loop_inv_step (loop_next s) s) | | lia].
    clear - Hfire Hsig. unfold signalled in *.
    destruct (loop_next s) as [i|]; simpl in Hfire.
    + unfold loop_worker_step in Hfire.
      destruct (loop_workers s !! i) as [[j | n |]|]; try discriminate.
      injection Hfire as <-. exact Hsig.
    + unfold loop_caller_step in Hfire.
      destruct (loop_caller_pc s) as [| i | i max | max |]; try discriminate.
      * destruct (i <? nonceCh_cap)%nat; now injection Hfire as <-.
      * destruct (i <? nonceCh_cap)%nat.
        -- destruct (loop_workers s !! i) as [[j | n |]|]; try discriminate.
           now injection Hfire as <-.
        -- now injection Hfire as <-.
      * now injection Hfire as <-.
Qed.


End Sends.

Lemma loop_worker_step_index i s s' :
  loop_worker_step i s = Some s' -> (i < length (loop_workers s))%nat.
Proof.
  unfold loop_worker_step.
  destruct (loop_workers s !! i) eqn:Hw; [|discriminate].
  intros _. now apply lookup_lt_Some in Hw.
Qed.

(** The collection of [nonceLoop] with a worker that sends a result when
    it is cancelled.  The caller closes the stop channels in order and all
    of them before its first read; the results it has read are those of
    the first workers, one each, and these workers alone have returned; a
    worker that finds its stop channel closed is at its send after that
    step; while the caller collects, every step that can be taken brings
    the end nearer and one can be taken; and from the receipt of the
    signal on, the schedule of [loop_drive] reaches the end, with one
    result read per worker and, written from the verdict on, the report of
    [nonceLoop_finish].  Whether [mine.ComputeBlockNonce] is such a worker
    is for its own code to say. *)
Theorem collection_completes rs sched s :
  (forall j, is_Some (on_cancel j)) ->
  length rs = Z.to_nat cpuCount ->
  loop_run sched (loop_init rs) = Some s ->
  (collecting s = true ->
     forall k, (k < Z.to_nat cpuCount)%nat -> stopChs s !! k = Some true) /\
  (length (collected s) = reads_done (loop_caller_pc s) /\
   forall k w, loop_workers s !! k = Some w ->
     (w = LReturn <-> (k < reads_done (loop_caller_pc s))%nat)) /\
  (forall i j,
     loop_workers s !! i = Some (LSelect j) -> stopChs s !! i = Some true ->
     exists s' n, loop_fire (LWorker i) s = Some s' /\
                  loop_workers s' !! i = Some (LSend n)) /\
  (collecting s = true ->
     (forall a s', loop_fire a s = Some s' -> (loop_rank s' < loop_rank s)%nat) /\
     exists a s', loop_fire a s = Some s') /\
  (signalled s = true ->
     exists s',
       loop_run (loop_drive (loop_rank s) s) s = Some s' /\
       loop_caller_pc s' = LEnd /\
       length (collected s') = Z.to_nat cpuCount /\
       loop_output s' = fst (nonceLoop_finish (collected s'))).
Proof.
  intros Hsends Hlen Hrun.
  assert (Hinv : loop_inv s).
  { apply (loop_run_invariant loop_inv (loop_inv_step Hsends) sched (loop_init rs));
      [now apply loop_inv_init | exact Hrun]. }
  assert (Hclosed : collecting s = true ->
            forall k, (k < nonceCh_cap)%nat -> stopChs s !! k = Some true).
  { intros Hcol k Hk. rewrite (inv_stops s Hinv k Hk). f_equal.
    apply Nat.ltb_lt. unfold collecting in Hcol.
    destruct (loop_caller_pc s); try discriminate. exact Hk. }
  split; [exact Hclosed|]. split; [|split; [|split]].
  - split; [apply (inv_collected s Hinv) | apply (inv_returned s Hinv)].
  - intros i j Hw Hstop.
    destruct (Hsends j) as (c & Hc).
    eexists. exists (sentinel c). split.
    + simpl. unfold loop_worker_step. rewrite Hw, Hstop, Hc. reflexivity.
    + simpl. apply list_lookup_insert_eq. now apply lookup_lt_Some in Hw.
  - intros Hcol. split.
    + intros a s' Hfire.
      destruct (loop_rank_step Hsends a s s' Hinv Hfire) as (_ & Hlt).
      apply Hlt. destruct a as [i|]; [|exact I].
      apply (Hclosed Hcol). simpl in Hfire.
      apply loop_worker_step_index in Hfire.
      now rewrite (inv_workers_length s Hinv) in Hfire.
    + assert (Hsig : signalled s = true)
        by (unfold collecting, signalled in *; now destruct (loop_caller_pc s)).
      assert (Hend : loop_ended s = false)
        by (unfold collecting, loop_ended in *; now destruct (loop_caller_pc s)).
      destruct (loop_next_enabled s Hinv Hsig Hend) as ((s' & Hfire) & _).
      now exists (loop_next s), s'.
  - intros Hsig.
    destruct (loop_drive_ends Hsends (loop_rank s) s Hinv Hsig (Nat.le_refl _))
      as (s' & Hrun' & Hend).
    assert (Hinv' : loop_inv s').
    { apply (loop_run_invariant loop_inv (loop_inv_step Hsends)
               (loop_drive (loop_rank s) s) s);
        [exact Hinv | exact Hrun']. }
    assert (Hpc : loop_caller_pc s' = LEnd)
      by (unfold loop_ended in Hend; now destruct (loop_caller_pc s')).
    exists s'. split; [exact Hrun'|]. split; [exact Hpc|]. split.
    + rewrite (inv_collected s' Hinv'), Hpc. reflexivity.
    + now apply (inv_out s' Hinv').
Qed.

End Loop.

Lemma loop_after_true {env : MinerEnv} sched s0 chk :
  loop_after sched s0 chk = true ->
  exists s, loop_run sched s0 = Some s /\ chk s = true.
Proof.
  unfold loop_after. destruct (loop_run sched s0) as [s|]; [|discriminate].
  intros Hchk. now exists s.
Qed.

Lemma loop_deadlockedb_sound {env : MinerEnv} s :
  loop_deadlockedb s = true -> loop_deadlocked s.
Proof.
  unfold loop_deadlockedb. intros Hb.
  apply andb_prop in Hb as (Hworkers & Hcaller).
  intros [i|]; simpl.
  - unfold loop_worker_step.
    destruct (loop_workers s !! i) as [w|] eqn:Hw; [|reflexivity].
    pose proof (forallb_lookup _ _ _ _ Hworkers Hw) as Hblk.
    destruct w; (discriminate || reflexivity).
  - destruct (loop_caller_step s); [discriminate | reflexivity].
Qed.

Lemma collection_completes_witness :
  exists s s',
    @loop_run (Sample.env 24 2) [LCaller; LCaller]
      (@loop_init (Sample.env 24 2) [5; 9]) = Some s /\
    loop_run (loop_drive (loop_rank s) s) s = Some s' /\
    loop_caller_pc s' = LEnd /\
    length (collected s') = 2%nat.
Proof.
  destruct (@loop_after_true (Sample.env 24 2) [LCaller; LCaller]
              (@loop_init (Sample.env 24 2) [5; 9]) signalled)
    as (s & Hrun & Hsig); [vm_compute; reflexivity|].
  destruct (@collection_completes (Sample.env 24 2) [5; 9] _ s
              (fun j => ex_intro _ _ eq_refl) eq_refl Hrun)
    as (_ & _ & _ & _ & Hends).
  destruct (Hends Hsig) as (s' & Hrun' & Hpc & Hlen & _).
  exists s, s'. split; [exact Hrun|]. split; [exact Hrun'|].
  split; [exact Hpc | exact Hlen].
Defined.

(** The collection of [nonceLoop] with a worker that stops without a
    result when it is cancelled: the read of its channel never completes: one worker, the signal
    received, its stop channel closed, the worker returned on it, and the
    caller at [<-nonceChs[0]] with nothing that can move. *)
Lemma silent_worker_blocks_collection :
  (forall j, @on_cancel (Sample.silent_env 24 1) j = None) /\
  exists s,
    @loop_run (Sample.silent_env 24 1) [LCaller; LCaller; LCaller; LWorker 0]
      (@loop_init (Sample.silent_env 24 1) [5]) = Some s /\
    collecting s = true /\
    loop_ended s = false /\
    loop_deadlocked s.
Proof.
  split; [reflexivity|].
  destruct (@loop_after_true (Sample.silent_env 24 1)
              [LCaller; LCaller; LCaller; LWorker 0]
              (@loop_init (Sample.silent_env 24 1) [5])
              (fun s => loop_deadlockedb s && collecting s && negb (loop_ended s)))
    as (s & Hrun & Hchk); [vm_compute; reflexivity|].
  do 2 (apply andb_prop in Hchk as (Hchk & ?)).
  exists s. split; [exact Hrun|]. split; [assumption|].
  split; [apply negb_true_iff; assumption|].
  apply loop_deadlockedb_sound. exact Hchk.
Qed.

(** ** More of [nonceGen]: the printer, the search, the shutdown, the
    return *)

Section MinerMoreFacts.
Context {env : MinerEnv}.

(** *** The progress lines *)

Lemma last_default {T} (l : list T) a d d' : List.last (a :: l) d = List.last (a :: l) d'.
Proof.
  revert a. induction l as [|x rest IH]; intros a; [reflexivity|].
  change (List.last (x :: rest) d = List.last (x :: rest) d'). apply IH.
Qed.

Lemma last_cons_head {T} (l : list T) a d : List.last (a :: l) d = List.last l a.
Proof.
  destruct l as [|x rest]; [reflexivity|].
  change (List.last (x :: rest) d = List.last (x :: rest) a). apply last_default.
Qed.

Lemma chain_snoc l : forall p q,
  display_chain p l -> display_next (List.last l p) q -> display_chain p (l ++ [q]).
Proof.
  induction l as [|x rest IH]; intros p q Hc Hn.
  - simpl in *. split; [exact Hn | exact I].
  - destruct Hc as (Hpx & Hrest). rewrite last_cons_head in Hn.
    simpl. split; [exact Hpx|]. now apply IH.
Qed.

Lemma display_next_le p q : display_next p q -> display_le p q.
Proof. unfold display_next, display_le. lia. Qed.

Lemma chain_sorted l : forall p,
  display_chain p l ->
  StronglySorted display_le l /\ Forall (display_le p) l.
Proof.
  induction l as [|x rest IH]; intros p Hc.
  - split; constructor.
  - destruct Hc as (Hpx & Hrest). apply display_next_le in Hpx.
    destruct (IH x Hrest) as (Hs & Hall). split.
    + now constructor.
    + constructor; [exact Hpx|].
      eapply Forall_impl; [exact Hall|]. unfold display_le in *.
      intros q Hq. lia.
Qed.

Lemma displayed_app o1 o2 :
  displayed (o1 ++ o2) = displayed o1 ++ displayed o2.
Proof. apply omap_app. Qed.

Lemma displayed_finish nonce : displayed (fst (nonceGen_finish nonce)) = [].
Proof.
  unfold nonceGen_finish.
  now destruct (IsIDPubNonceValid (Hash nonce) (Nonce nonce) publicKey).
Qed.

Lemma inv_display_init rs : inv_display (init rs).
Proof. unfold inv_display, init; simpl. split; [exact I | reflexivity]. Qed.

Lemma inv_display_step a s s' : inv_display s -> step a s s' -> inv_display s'.
Proof.
  intros (Hchain & Hlast) Hstep. unfold inv_display.
  destruct Hstep; simpl; try (split; assumption).
  - (* the printer returns *)
    split; [exact Hchain | exact I].
  - (* a better sample *)
    rewrite H in Hlast. rewrite displayed_app. simpl. split.
    + apply chain_snoc; [exact Hchain|]. rewrite Hlast.
      right. simpl. split; [reflexivity | assumption].
    + apply List.last_last.
  - (* a tick *)
    rewrite H in Hlast. rewrite displayed_app. simpl. split.
    + apply chain_snoc; [exact Hchain|]. rewrite Hlast.
      left. simpl. split; reflexivity.
    + apply List.last_last.
  - (* the caller is done *)
    rewrite displayed_app, displayed_finish, app_nil_r. split; assumption.
Qed.

Lemma inv_target_step a s s' : inv_target s -> step a s s' -> inv_target s'.
Proof.
  unfold inv_target. intros Hall Hstep.
  destruct Hstep; simpl; try assumption.
  - apply Forall_app. split; [exact Hall|].
    constructor; [|constructor]. now intros t [= <-].
  - apply Forall_app. split; [exact Hall|].
    constructor; [|constructor]. now intros t [= <-].
  - apply Forall_app. split; [exact Hall|]. unfold nonceGen_finish.
    destruct (IsIDPubNonceValid (Hash nonce) (Nonce nonce) publicKey); simpl;
      repeat constructor; discriminate.
Qed.

(** X1.  Whatever the interleaving of the goroutines, the progress lines
    of [nonceGen] follow one another from 0 seconds and difficulty 0: each
    shows one second more than the line before it and the same difficulty,
    or the same second and a strictly greater difficulty.  So seconds and
    difficulty never go down from one line to a later one, neither is
    negative, and every line shows the target of the flag. *)
Theorem progress_lines_follow rs sched s :
  run sched (init rs) = Some s ->
  display_chain (0, 0) (displayed (output s)) /\
  StronglySorted display_le (displayed (output s)) /\
  Forall (fun p => 0 <= fst p /\ 0 <= snd p) (displayed (output s)) /\
  Forall (fun e => forall t, shown_target e = Some t -> t = difficulty)
    (output s).
Proof.
  intros Hrun.
  destruct (run_invariant inv_display inv_display_step sched (init rs) s
              (inv_display_init rs) Hrun) as (Hchain & _).
  destruct (chain_sorted _ _ Hchain) as (Hsorted & Hpos).
  split; [exact Hchain|]. split; [exact Hsorted|]. split; [exact Hpos|].
  apply (run_invariant inv_target inv_target_step sched (init rs) s);
    [constructor | exact Hrun].
Qed.

(** *** The nonces tried *)

Lemma Forall2_insert_r {X Y} (P : X -> Y -> Prop) xs ys i x y' :
  Forall2 P xs ys -> xs !! i = Some x -> P x y' ->
  Forall2 P xs (<[i := y']> ys).
Proof.
  intros Hall Hx Hp. rewrite <- (list_insert_id xs i x Hx).
  now apply Forall2_insert.
Qed.

Lemma none_before_next st k :
  none_before st k -> score (tries st k) < difficulty -> none_before st (S k).
Proof.
  intros Hk Hlast k' Hlt.
  destruct (Nat.eq_dec k' k) as [-> | Hne]; [exact Hlast|].
  apply Hk. lia.
Qed.

Lemma inv_search_init rs : inv_search rs (init rs).
Proof.
  unfold inv_search, init; simpl. split.
  - induction (starts rs) as [|st rest IH]; simpl; constructor; [|exact IH].
    exists 0%nat. split; [reflexivity|]. intros k' Hk. lia.
  - intros n [Hin | Hhold]; [now apply elem_of_nil in Hin | discriminate].
Qed.

Lemma inv_search_step rs a s s' :
  inv_search rs s -> step a s s' -> inv_search rs s'.
Proof.
  intros (Hw & Hfl) Hstep. unfold inv_search.
  destruct Hstep; simpl.
  - (* cancelled *)
    destruct (Forall2_lookup_r _ _ _ _ _ Hw H) as (st & Hst & Hon).
    split; [now apply (Forall2_insert_r _ _ _ _ st) | exact Hfl].
  - (* hash *)
    destruct (Forall2_lookup_r _ _ _ _ _ Hw H) as (st & Hst & Hon).
    split; [|exact Hfl].
    apply (Forall2_insert_r _ _ _ _ st); [assumption..|]. now split.
  - (* the progress is sent *)
    destruct (Forall2_lookup_r _ _ _ _ _ Hw H) as (st & Hst & Hon).
    split; [now apply (Forall2_insert_r _ _ _ _ st) | exact Hfl].
  - (* the result is sent *)
    destruct (Forall2_lookup_r _ _ _ _ _ Hw H) as (st & Hst & Hon).
    split; [now apply (Forall2_insert_r _ _ _ _ st)|].
    intros n [Hin | Hhold].
    + simpl in Hin. apply elem_of_app in Hin as [Hin | Hin].
      * apply Hfl. now left.
      * apply list_elem_of_singleton in Hin as ->.
        destruct Hon as ((k & -> & Hk) & -> & ->).
        exists i, st. split; [exact Hst|]. exists k. simpl. unfold score.
        repeat split; assumption.
    + apply Hfl. now right.
  - (* the next nonce *)
    destruct (Forall2_lookup_r _ _ _ _ _ Hw H) as (st & Hst & Hon).
    split; [|exact Hfl].
    apply (Forall2_insert_r _ _ _ _ st); [assumption..|].
    destruct Hon as ((k & -> & Hk) & -> & ->).
    exists (S k). split; [reflexivity|]. now apply none_before_next.
  - (* the printer returns *)
    split; assumption.
  - (* a better sample *)
    split; assumption.
  - (* a sample that is no better *)
    split; assumption.
  - (* a tick *)
    split; assumption.
  - (* the caller receives *)
    split; [exact Hw|].
    intros n [Hin | Hhold]; apply Hfl; left; rewrite H0.
    + simpl in Hin. now apply elem_of_cons; right.
    + simpl in Hhold. injection Hhold as <-. now apply elem_of_cons; left.
  - (* the caller closes *)
    split; [exact Hw|].
    intros n [Hin | Hhold]; apply Hfl; [now left | right].
    rewrite H. exact Hhold.
  - (* the caller has waited *)
    split; [exact Hw|].
    intros n [Hin | Hhold]; apply Hfl; [now left | right].
    rewrite H. exact Hhold.
  - (* the caller is done *)
    split; [exact Hw|].
    intros n [Hin | Hhold]; apply Hfl; [now left | right].
    rewrite H. simpl in Hhold |- *. unfold nonceGen_finish in Hhold.
    destruct (IsIDPubNonceValid (Hash nonce) (Nonce nonce) publicKey);
      simpl in Hhold; [exact Hhold | discriminate].
Qed.

(** X2.  Every result [nonceGen] has in its result channel, holds or
    returns carries the first nonce of one worker's sequence (its start,
    the start incremented, ...) whose score meets the target, with the
    hash and the score of that nonce: no worker skips a nonce and none
    reports a later hit. *)
Theorem result_is_first_hit rs sched s n :
  run sched (init rs) = Some s ->
  in_flight s n ->
  exists i st k,
    starts rs !! i = Some st /\
    Nonce n = tries st k /\
    (forall k', (k' < k)%nat -> score (tries st k') < difficulty) /\
    difficulty <= score (Nonce n) /\
    Hash n = HashBlock publicKeyBytes (Nonce n) /\
    Difficulty n = score (Nonce n).
Proof.
  intros Hrun Hin.
  destruct (run_invariant (inv_search rs) (inv_search_step rs) sched
              (init rs) s (inv_search_init rs) Hrun) as (_ & Hfl).
  destruct (Hfl n Hin) as (i & st & Hst & k & Hrest).
  now exists i, st, k.
Qed.

(** *** The scores shown *)

Lemma run_app sched1 sched2 s :
  run (sched1 ++ sched2) s =
    match run sched1 s with
    | Some s1 => run sched2 s1
    | None => None
    end.
Proof.
  revert s. induction sched1 as [|a rest IH]; intros s; simpl; [reflexivity|].
  destruct (fire a s); [apply IH | reflexivity].
Qed.

Lemma run_snoc sched a s0 s' :
  run (sched ++ [a]) s0 = Some s' ->
  exists s, run sched s0 = Some s /\ step a s s'.
Proof.
  rewrite run_app. destruct (run sched s0) as [s|]; [|discriminate].
  simpl. destruct (fire a s) as [s1|] eqn:Hfire; [|discriminate].
  intros [= <-]. exists s. split; [reflexivity | now apply fire_step].
Qed.

Lemma hashed_snoc rs sched a d :
  hashed rs sched d -> hashed rs (sched ++ [a]) d.
Proof.
  intros (sched1 & sched2 & s1 & i & st & k & -> & Hrest).
  exists sched1, (sched2 ++ [a]), s1, i, st, k.
  split; [now rewrite app_assoc | exact Hrest].
Qed.

Lemma inv_shown_snoc rs sched a s :
  inv_shown rs sched s -> inv_shown rs (sched ++ [a]) s.
Proof.
  intros (Hq & Hp & Hd). split; [|split].
  - eapply Forall_impl; [exact Hq|]. intros d. apply hashed_snoc.
  - destruct (printer_pc s) as [count current|]; [|exact I].
    destruct Hp as [-> | Hp]; [now left | right; now apply hashed_snoc].
  - eapply Forall_impl; [exact Hd|].
    intros p [Hz | Hsc]; [now left | right; now apply hashed_snoc].
Qed.

Lemma inv_shown_step rs sched a s s' :
  run sched (init rs) = Some s ->
  inv_search rs s -> inv_shown rs sched s -> step a s s' ->
  inv_shown rs (sched ++ [a]) s'.
Proof.
  intros Hrun (Hw & _) Hshown Hstep.
  assert (Hsent : forall i j h d,
            workers s !! i = Some (WProgress j h d) ->
            hashed rs (sched ++ [a]) d).
  { intros i j h d Hi.
    destruct (Forall2_lookup_r _ _ _ _ _ Hw Hi) as (st & Hst & Hon).
    destruct Hon as ((k & -> & Hk) & -> & ->).
    exists sched, [a], s, i, st, k. repeat split; assumption. }
  apply (inv_shown_snoc rs sched a) in Hshown.
  destruct Hshown as (Hq & Hp & Hd). unfold inv_shown.
  destruct Hstep; simpl; try (split; [|split]; assumption).
  - (* the progress is sent *)
    split; [|split; assumption].
    apply Forall_app. split; [exact Hq|]. constructor; [|constructor].
    now apply (Hsent i j h d).
  - (* the printer returns *)
    split; [exact Hq|]. split; [exact I | exact Hd].
  - (* a better sample *)
    rewrite H0 in Hq. apply Forall_cons in Hq as (Hm & Hrest).
    split; [exact Hrest|]. split; [now right|].
    rewrite displayed_app. apply Forall_app.
    split; [exact Hd|]. constructor; [now right | constructor].
  - (* a sample that is no better *)
    rewrite H0 in Hq. apply Forall_cons in Hq as (Hm & Hrest).
    split; [exact Hrest|]. split; assumption.
  - (* a tick *)
    rewrite H in Hp. split; [exact Hq|]. split; [exact Hp|].
    rewrite displayed_app. apply Forall_app.
    split; [exact Hd|]. constructor; [exact Hp | constructor].
  - (* the caller is done *)
    split; [exact Hq|]. split; [exact Hp|].
    now rewrite displayed_app, displayed_finish, app_nil_r.
Qed.

Lemma run_shown rs sched : forall s,
  run sched (init rs) = Some s -> inv_shown rs sched s.
Proof.
  induction sched as [|a sched IH] using rev_ind; intros s Hrun.
  - injection Hrun as <-. unfold inv_shown, init; simpl.
    split; [constructor|]. split; [now left | constructor].
  - destruct (run_snoc sched a (init rs) s Hrun) as (s0 & Hrun0 & Hstep).
    apply (inv_shown_step rs sched a s0 s Hrun0); [|now apply IH|exact Hstep].
    exact (run_invariant (inv_search rs) (inv_search_step rs) sched
             (init rs) s0 (inv_search_init rs) Hrun0).
Qed.

(** X3.  The difficulty a progress line shows is 0 or the score of a
    nonce that a worker has hashed in the run: after some of the steps of
    the run, a worker was at its progress send with that nonce, the
    [k]-th from its start with none before it meeting the target, with the
    hash of that nonce and with the difficulty shown, the score of that
    hash. *)
Theorem progress_lines_show_scores rs sched s :
  run sched (init rs) = Some s ->
  Forall (fun p =>
            snd p = 0 \/
            exists sched1 sched2 s1 i st k,
              sched = sched1 ++ sched2 /\
              run sched1 (init rs) = Some s1 /\
              starts rs !! i = Some st /\
              none_before st k /\
              workers s1 !! i =
                Some (WProgress (tries st k)
                        (HashBlock publicKeyBytes (tries st k)) (snd p)) /\
              snd p = score (tries st k))
    (displayed (output s)).
Proof.
  intros Hrun. destruct (run_shown rs sched s Hrun) as (_ & _ & Hd).
  exact Hd.
Qed.

(** *** After [close(stopCh)] *)

(** The sum of [f] after worker [i] has moved, in terms of the sum
    before. *)
Ltac sum_after f :=
  match goal with
  | H : workers ?s !! ?i = Some ?w |- context [<[?i := ?w']> (workers ?s)] =>
      let E := fresh "Hsum" in
      pose proof (total_insert f (workers s) i w w' H) as E;
      let t1 := fresh "after" in
      let t0 := fresh "before" in
      set (t1 := total f (<[i := w']> (workers s))) in *;
      set (t0 := total f (workers s)) in *;
      cbv beta iota delta [active returned shutdown_worker_rank] in E
  end.

Lemma shutdown_rank_step a s s' :
  stopCh s = true -> step a s s' ->
  stopCh s' = true /\
  if is_tick a then shutdown_rank s' = shutdown_rank s
  else (shutdown_rank s' < shutdown_rank s)%nat.
Proof.
  intros Hstop Hstep. unfold shutdown_rank.
  destruct Hstep; try congruence;
    (split; [try assumption; reflexivity|]);
    simpl; rewrite ?length_app; simpl; try sum_after shutdown_worker_rank;
    repeat match goal with
           | H : caller_pc _ = _ |- _ => rewrite H
           | H : printer_pc _ = _ |- _ => rewrite H
           | H : progressCh _ = _ |- _ => rewrite H
           end; simpl; lia.
Qed.

Lemma shutdown_no_hash a s s' i j h d :
  stopCh s = true -> step a s s' ->
  workers s' !! i = Some (WProgress j h d) ->
  workers s !! i = Some (WProgress j h d).
Proof.
  intros Hstop Hstep.
  destruct Hstep; simpl; try congruence; try (intros Hw; exact Hw);
    intros Hw; apply list_lookup_insert_Some in Hw as [(_ & Hw & _) | (_ & Hw)];
    (discriminate || exact Hw).
Qed.

Lemma shutdown_run sched : forall s s',
  stopCh s = true -> run sched s = Some s' ->
  stopCh s' = true /\
  (moves sched + shutdown_rank s' <= shutdown_rank s)%nat /\
  (forall i j h d,
     workers s' !! i = Some (WProgress j h d) ->
     workers s !! i = Some (WProgress j h d)).
Proof.
  unfold moves.
  induction sched as [|a rest IH]; intros s s' Hstop Hrun; simpl in Hrun.
  - injection Hrun as <-. simpl. split; [exact Hstop|]. split; [lia | auto].
  - destruct (fire a s) as [s1|] eqn:Hf; [|discriminate].
    apply fire_step in Hf.
    destruct (shutdown_rank_step a s s1 Hstop Hf) as (Hstop1 & Hr).
    destruct (IH s1 s' Hstop1 Hrun) as (Hstop' & Hle & Hsame).
    split; [exact Hstop'|]. split.
    + rewrite filter_cons. destruct (is_tick a) eqn:Ht.
      * rewrite decide_False by discriminate. lia.
      * rewrite decide_True by reflexivity. simpl. lia.
    + intros i j h d Hw.
      apply (shutdown_no_hash a s s1 i j h d Hstop Hf). now apply Hsame.
Qed.

Lemma inv_received_init rs : inv_received (init rs).
Proof. unfold inv_received, init; simpl. split; [discriminate | congruence]. Qed.

Lemma inv_received_step a s s' :
  inv_nonceCh s -> inv_received s -> step a s s' -> inv_received s'.
Proof.
  intros (_ & _ & _ & Heq) (Hp & Hc) Hstep. unfold inv_received.
  destruct Hstep; simpl; rewrite ?length_insert, ?length_app; simpl;
    try sum_after active;
    repeat match goal with
           | H : caller_pc _ = _ |- _ => rewrite H in *
           | H : nonceCh _ = _ |- _ => rewrite H in *
           | H : printer_pc _ = _ |- _ => rewrite H in *
           end;
    simpl in *;
    (split; [try assumption; try discriminate; try reflexivity;
             try (intros _; assumption)|]);
    try (intros Hm; specialize (Hc Hm); lia);
    try (intros _; specialize (Hc ltac:(discriminate)); lia);
    try (intros _; specialize (Heq eq_refl); lia).
Qed.

Lemma reachable_received rs s :
  draws_ok rs -> reachable rs s -> inv_received s.
Proof.
  intros Hrs (sched & Hrun).
  assert (Hboth : inv_nonceCh s /\ inv_received s); [|exact (proj2 Hboth)].
  apply (run_invariant (fun s => inv_nonceCh s /\ inv_received s)) with
    (sched := sched) (s := init rs); [| |exact Hrun].
  - intros a s0 s1 (Hn & Hr) Hstep. split.
    + now apply (inv_nonceCh_step a s0).
    + now apply (inv_received_step a s0).
  - split; [now apply inv_nonceCh_init | apply inv_received_init].
Qed.

Lemma shutdown_worker_rank_active ws :
  (total shutdown_worker_rank ws <= 4 * total active ws)%nat.
Proof.
  induction ws as [|w rest IH]; simpl; [lia|].
  destruct w; simpl; lia.
Qed.

(** X4.  Once [stopCh] is closed [nonceGen] is at most 4 N + 99 steps
    from the point where nothing moves any more, ticks of the printer's
    ticker aside (N the number of workers): [stopCh] stays closed, every
    step but a tick brings that point nearer, and no worker hashes a
    nonce it had not hashed already when [stopCh] was closed. *)
Theorem shutdown_is_bounded rs sched1 sched2 s s' :
  draws_ok rs ->
  run sched1 (init rs) = Some s ->
  stopCh s = true ->
  run sched2 s = Some s' ->
  stopCh s' = true /\
  (moves sched2 + shutdown_rank s' <= shutdown_rank s)%nat /\
  (shutdown_rank s <= 4 * nonceCh_cap + 99)%nat /\
  (forall i j h d,
     workers s' !! i = Some (WProgress j h d) ->
     workers s !! i = Some (WProgress j h d)).
Proof.
  intros Hrs Hrun1 Hstop Hrun2.
  destruct (shutdown_run sched2 s s' Hstop Hrun2) as (Hstop' & Hle & Hsame).
  split; [exact Hstop'|]. split; [exact Hle|]. split; [|exact Hsame].
  assert (Hreach : reachable rs s) by now exists sched1.
  destruct (reachable_nonceCh rs s Hrs Hreach) as (_ & _ & Hexp & _).
  destruct (reachable_received rs s Hrs Hreach) as (_ & Hrecv).
  pose proof (reachable_progressCh rs s Hreach) as Hq.
  pose proof (shutdown_worker_rank_active (workers s)) as Hw.
  unfold inv_progressCh, progressCh_cap in Hq. unfold shutdown_rank.
  rewrite Hstop in Hexp.
  destruct (caller_pc s) as [| n | n | n | o] eqn:Hpc; try discriminate;
    specialize (Hrecv ltac:(discriminate));
    destruct (printer_pc s); simpl; lia.
Qed.

(** *** The one way to hang *)

Lemma some_active ws :
  forallb returned ws = false \/ (0 < total active ws)%nat ->
  exists i w, ws !! i = Some w /\ returned w = false.
Proof.
  intros Hsome. destruct (first_active 0 ws) as [i|] eqn:Hfirst.
  - destruct (first_active_Some _ _ _ Hfirst) as (w & Hw & Hr & _).
    rewrite Nat.sub_0_r in Hw. now exists i, w.
  - destruct (first_active_None _ _ Hfirst) as (Hall & Hzero).
    destruct Hsome as [Hsome | Hsome]; [congruence | lia].
Qed.

(** What a worker is at when it cannot move though the result channel
    has room: it has returned, or it is at its progress send and the
    progress channel is full. *)
Lemma worker_stuck s i w :
  workers s !! i = Some w ->
  (returned w = false -> (length (nonceCh s) < nonceCh_cap)%nat) ->
  fire (Worker i) s = None ->
  w = WReturn \/
  (exists j h d, w = WProgress j h d) /\
  (progressCh_cap <= length (progressCh s))%nat.
Proof.
  intros Hw Hroom. simpl. unfold worker_step. rewrite Hw.
  destruct w as [j | j h d | j h d |].
  - destruct (stopCh s); discriminate.
  - destruct (Nat.ltb_spec (length (progressCh s)) progressCh_cap);
      [discriminate|].
    intros _. right. split; [now exists j, h, d | assumption].
  - specialize (Hroom eq_refl).
    destruct (difficulty <=? d); [|discriminate].
    destruct (Nat.ltb_spec (length (nonceCh s)) nonceCh_cap);
      [discriminate | lia].
  - intros _. now left.
Qed.

(** X5.  [nonceGen] hangs in one way only.  If, short of its end, no
    step other than a tick of the printer's ticker can be taken, then the
    caller is in [wg.Wait()] with a result, [stopCh] is closed, the printer
    has returned, the progress channel holds its 100 samples, every worker
    has returned or is at its progress send, and one at least is there;
    there are two workers or more. *)
Theorem hangs_only_at_progress_send rs sched s :
  1 <= cpuCount ->
  draws_ok rs ->
  run sched (init rs) = Some s ->
  ended s = false ->
  (forall a, is_tick a = false -> fire a s = None) ->
  (exists nonce, caller_pc s = MWait nonce) /\
  stopCh s = true /\
  printer_pc s = PReturn /\
  length (progressCh s) = progressCh_cap /\
  (forall i w,
     workers s !! i = Some w ->
     w = WReturn \/ exists j h d, w = WProgress j h d) /\
  (exists i j h d, workers s !! i = Some (WProgress j h d)) /\
  (2 <= nonceCh_cap)%nat.
Proof.
  intros Hcpu Hrs Hrun Hend Hstuck.
  assert (Hreach : reachable rs s) by now exists sched.
  pose proof (reachable_nonceCh rs s Hrs Hreach) as Hn.
  destruct (reachable_received rs s Hrs Hreach) as (Hprinter & Hrecv).
  pose proof (reachable_progressCh rs s Hreach) as Hfull.
  unfold inv_progressCh in Hfull.
  assert (Hroom : forall i w, workers s !! i = Some w -> returned w = false ->
                              (length (nonceCh s) < nonceCh_cap)%nat)
    by (intros i w; apply nonceCh_has_room; exact Hn).
  assert (Hworker : forall i w, workers s !! i = Some w ->
            w = WReturn \/
            (exists j h d, w = WProgress j h d) /\
            (progressCh_cap <= length (progressCh s))%nat).
  { intros i w Hw. apply (worker_stuck s i w Hw (Hroom i w Hw)).
    now apply Hstuck. }
  assert (Hblocked : forall i w, workers s !! i = Some w -> returned w = false ->
            (exists j h d, w = WProgress j h d) /\
            length (progressCh s) = progressCh_cap).
  { intros i w Hw Hr. destruct (Hworker i w Hw) as [-> | (Hat & Hlen)];
      [discriminate|]. split; [exact Hat | lia]. }
  destruct Hn as (_ & Hsum & Hstop & Heq).
  pose proof (Hstuck Caller eq_refl) as Hcaller.
  pose proof (Hstuck (Printer on_stop) eq_refl) as Hon_stop.
  pose proof (Hstuck (Printer on_progress) eq_refl) as Hon_progress.
  simpl in Hcaller, Hon_stop, Hon_progress.
  unfold caller_step in Hcaller. unfold printer_step in Hon_stop, Hon_progress.
  unfold ended in Hend.
  destruct (caller_pc s) as [| n | n | n | o] eqn:Hpc; try discriminate.
  - (* at the receive nothing is stuck *)
    exfalso. simpl in Hstop.
    destruct (nonceCh s) as [|n rest] eqn:Hq; [|discriminate].
    specialize (Heq eq_refl). simpl in Heq.
    destruct (some_active (workers s)) as (i & w & Hw & Hr).
    { right. unfold nonceCh_cap in Heq. lia. }
    destruct (Hblocked i w Hw Hr) as (_ & Hlen).
    destruct (printer_pc s) as [count current|].
    + destruct (progressCh s) as [|mined rest];
        [unfold progressCh_cap in Hlen; discriminate|].
      destruct (current <? mined); discriminate.
    + rewrite (Hprinter eq_refl) in Hstop. discriminate.
  - (* in [wg.Wait()] *)
    simpl in Hstop.
    destruct (printer_pc s) as [count current|] eqn:Hp.
    { rewrite Hstop in Hon_stop. discriminate. }
    rewrite andb_true_r in Hcaller.
    destruct (forallb returned (workers s)) eqn:Hall; [discriminate|].
    destruct (some_active (workers s) (or_introl Hall)) as (i & w & Hw & Hr).
    destruct (Hblocked i w Hw Hr) as ((j & h & d & ->) & Hlen).
    specialize (Hrecv ltac:(discriminate)).
    pose proof (total_lookup active (workers s) i _ Hw) as Hone.
    unfold active at 1 in Hone. simpl in Hone.
    split; [now exists n|]. split; [exact Hstop|]. split; [reflexivity|].
    split; [exact Hlen|]. split; [|split; [now exists i, j, h, d | lia]].
    intros i' w' Hw'. destruct (Hworker i' w' Hw') as [-> | (Hat & _)];
      [now left | now right].
Qed.

(** *** The report of a run that returns *)

Lemma inv_report_init rs : inv_report (init rs).
Proof. reflexivity. Qed.

Lemma inv_report_step a s s' :
  inv_halt s -> inv_report s -> step a s s' -> inv_report s'.
Proof.
  intros (Hhalt & _) Hrep Hstep. unfold inv_report in *.
  destruct Hstep; simpl; try exact Hrep.
  - (* a better sample *)
    destruct (caller_pc s) as [| n | n | n | [r | code]];
      try (destruct Hhalt as (_ & Hp); congruence);
      rewrite forallb_app, Hrep; reflexivity.
  - (* a tick *)
    destruct (caller_pc s) as [| n | n | n | [r | code]];
      try (destruct Hhalt as (_ & Hp); congruence);
      rewrite forallb_app, Hrep; reflexivity.
  - (* the caller receives *)
    now rewrite H in Hrep.
  - (* the caller closes *)
    now rewrite H in Hrep.
  - (* the caller has waited *)
    now rewrite H in Hrep.
  - (* the caller is done *)
    rewrite H in Hrep. unfold nonceGen_finish.
    destruct (IsIDPubNonceValid (Hash nonce) (Nonce nonce) publicKey) eqn:Hv;
      simpl; [|exact I].
    exists nonce, (output s). repeat split; assumption.
Qed.

Lemma reachable_report rs s : reachable rs s -> inv_report s.
Proof.
  intros (sched & Hrun).
  assert (Hboth : inv_halt s /\ inv_report s); [|exact (proj2 Hboth)].
  apply (run_invariant (fun s => inv_halt s /\ inv_report s)) with
    (sched := sched) (s := init rs); [| |exact Hrun].
  - intros a s0 s1 (Hh & Hr) Hstep. split.
    + now apply (inv_halt_step a s0).
    + now apply (inv_report_step a s0).
  - split; [apply inv_halt_init | apply inv_report_init].
Qed.

Lemma printed_progress_lines pre :
  forallb is_progress_line pre = true ->
  printed pre = pre /\ existsb is_Fatal pre = false.
Proof.
  unfold printed. induction pre as [|e rest IH]; simpl; [now split|].
  intros Hpre. apply andb_prop in Hpre as (He & Hrest).
  destruct (IH Hrest) as (Hp & Hf).
  destruct e; try discriminate. simpl. now rewrite Hp.
Qed.

(** X6.  When [nonceGen] returns, it returns a result that
    [kms.IsIDPubNonceValid] accepts; what it has written with [fmt.Printf]
    is progress lines only, then the newline, the line of that very nonce
    and the line of its node id, and nothing after them; no [Fatal] entry
    is logged; every worker and the printer have returned and [stopCh] is
    closed. *)
Theorem returned_result_is_reported rs sched s r :
  run sched (init rs) = Some s ->
  caller_pc s = MEnd (Returned r) ->
  exists n pre,
    r = Some n /\
    IsIDPubNonceValid (Hash n) (Nonce n) publicKey = true /\
    forallb is_progress_line pre = true /\
    printed (output s) =
      pre ++ [Printf_newline; Printf_nonce n; Printf_node_id (Hash n)] /\
    existsb is_Fatal (output s) = false /\
    forallb returned (workers s) = true /\
    printer_pc s = PReturn /\
    stopCh s = true.
Proof.
  intros Hrun Hpc.
  assert (Hreach : reachable rs s) by now exists sched.
  pose proof (reachable_report rs s Hreach) as Hrep.
  destruct (reachable_halt rs s Hreach) as (Hhalt & _).
  unfold inv_report in Hrep. rewrite Hpc in Hrep, Hhalt.
  destruct Hrep as (n & pre & -> & Hv & Hpre & Hout).
  destruct Hhalt as (Hws & Hp).
  destruct (printed_progress_lines pre Hpre) as (Hprinted & Hfatal).
  exists n, pre. split; [reflexivity|]. split; [exact Hv|].
  split; [exact Hpre|]. split.
  { rewrite Hout. unfold printed in *. rewrite List.filter_app, Hprinted.
    reflexivity. }
  split.
  { rewrite Hout, existsb_app, Hfatal. reflexivity. }
  split; [exact Hws|]. split; [exact Hp|].
  assert (Hstop : (fun s => printer_pc s = PReturn -> stopCh s = true) s);
    [|exact (Hstop Hp)].
  apply (run_invariant (fun s => printer_pc s = PReturn -> stopCh s = true))
    with (sched := sched) (s := init rs); [|discriminate|exact Hrun].
  intros a s0 s1 Hinv Hstep.
  destruct Hstep; simpl; try exact Hinv; try discriminate;
    try (intros _; assumption); reflexivity.
Qed.

(** *** With one CPU *)

Lemma total_active_zero ws :
  total active ws = 0%nat -> forallb returned ws = true.
Proof.
  induction ws as [|w rest IH]; simpl; [reflexivity|].
  unfold active at 1. destruct (returned w); simpl; [exact IH | lia].
Qed.

Lemma lone_workers s :
  nonceCh_cap = 1%nat -> inv_nonceCh s -> exists w, workers s = [w].
Proof.
  intros Hcap (Hlen & _). rewrite Hcap in Hlen.
  destruct (workers s) as [|w [|w' rest]]; try discriminate. now exists w.
Qed.

Lemma lone_next_enabled s :
  nonceCh_cap = 1%nat -> inv_nonceCh s -> inv_received s -> ended s = false ->
  is_tick (lone_next s) = false /\
  exists s', fire (lone_next s) s = Some s'.
Proof.
  intros Hcap Hn (Hp & Hc) Hend.
  destruct (lone_workers s Hcap Hn) as (w & Hws).
  destruct Hn as (_ & Hsum & Hstop & Heq).
  unfold lone_next.
  destruct (caller_step s) as [s1|] eqn:Hcaller;
    [split; [reflexivity | now exists s1]|].
  destruct (printer_step on_stop s) as [s1|] eqn:Hprinter;
    [split; [reflexivity | now exists s1]|].
  destruct (worker_step 0 s) as [s1|] eqn:Hworker;
    [split; [reflexivity | now exists s1]|].
  split; [reflexivity|]. simpl.
  unfold caller_step in Hcaller. unfold printer_step in Hprinter |- *.
  unfold worker_step in Hworker. unfold ended in Hend.
  rewrite Hws in *. simpl in Hworker, Hsum, Heq, Hc.
  destruct (caller_pc s) as [| n | n | n | o]; try discriminate.
  - (* the caller is at its receive *)
    destruct (nonceCh s) as [|n rest] eqn:Hq; [|discriminate].
    simpl in Hstop. rewrite Hstop in *.
    destruct (printer_pc s) as [count current|];
      [|specialize (Hp eq_refl); discriminate].
    destruct w as [j | j h d | j h d |]; try discriminate.
    + destruct (Nat.ltb_spec (length (progressCh s)) progressCh_cap);
        [discriminate|].
      destruct (progressCh s) as [|mined rest];
        [unfold progressCh_cap in *; simpl in *; lia|].
      destruct (current <? mined); eauto.
    + destruct (difficulty <=? d); [|discriminate].
      rewrite Hcap in Hworker. discriminate.
    + specialize (Heq eq_refl). simpl in Heq. unfold active in Heq.
      simpl in Heq. lia.
  - (* the caller waits *)
    exfalso. simpl in Hstop. rewrite Hstop in Hprinter.
    destruct (printer_pc s); [discriminate|].
    specialize (Hc ltac:(discriminate)).
    assert (Hz : total active [w] = 0%nat) by (simpl; lia).
    apply total_active_zero in Hz. rewrite Hz in Hcaller. discriminate.
Qed.

(** X7.  With one CPU [nonceGen] is never stuck: in every state it can
    come to, short of its end, a step other than a tick of the printer's
    ticker can be taken.  (With two workers it can be stuck for ever.) *)
Theorem lone_worker_never_stuck r sched s :
  cpuCount = 1 ->
  is_uint32 r ->
  run sched (init [r]) = Some s ->
  ended s = false ->
  is_tick (lone_next s) = false /\
  exists s', fire (lone_next s) s = Some s'.
Proof.
  intros Hcpu Hr Hrun Hend.
  assert (Hcap : nonceCh_cap = 1%nat) by (unfold nonceCh_cap; now rewrite Hcpu).
  assert (Hrs : draws_ok [r]).
  { split; [now rewrite Hcpu | now constructor]. }
  assert (Hreach : reachable [r] s) by now exists sched.
  apply lone_next_enabled; [exact Hcap | | | exact Hend].
  - now apply (reachable_nonceCh [r]).
  - now apply (reachable_received [r]).
Qed.

Lemma inv_end_step rs a s s' :
  inv_search rs s -> inv_end rs s -> step a s s' -> inv_end rs s'.
Proof.
  intros (_ & Hfl) Hend Hstep. unfold inv_end in *.
  destruct Hstep; simpl; try exact Hend; try discriminate.
  intros o [= <-]. exists nonce. split; [|reflexivity].
  apply Hfl. right. now rewrite H.
Qed.

Lemma reachable_end rs s : reachable rs s -> inv_end rs s.
Proof.
  intros (sched & Hrun).
  assert (Hboth : inv_search rs s /\ inv_end rs s); [|exact (proj2 Hboth)].
  apply (run_invariant (fun s => inv_search rs s /\ inv_end rs s)) with
    (sched := sched) (s := init rs); [| |exact Hrun].
  - intros a s0 s1 (Hs & He) Hstep. split.
    + now apply (inv_search_step rs a s0).
    + now apply (inv_end_step rs a s0).
  - split; [apply inv_search_init | discriminate].
Qed.

(** The first nonce from [st] that meets the target, if one does. *)
Lemma least_hit st K :
  difficulty <= score (tries st K) ->
  exists k, (k <= K)%nat /\ none_before st k /\
            difficulty <= score (tries st k).
Proof.
  intros Hit.
  assert (Hq : none_before st (S K) \/
               exists k, (k <= K)%nat /\ none_before st k /\
                         difficulty <= score (tries st k)).
  { clear Hit. induction K as [|K IH].
    - destruct (Z_lt_le_dec (score (tries st 0)) difficulty) as [Hlt | Hle].
      + left. intros k' Hk. assert (k' = 0%nat) as -> by lia. exact Hlt.
      + right. exists 0%nat. split; [lia|]. split; [|exact Hle].
        intros k' Hk. lia.
    - destruct IH as [Hnone | (k & Hk & Hnone & Hhit)].
      + destruct (Z_lt_le_dec (score (tries st (S K))) difficulty)
          as [Hlt | Hle].
        * left. now apply none_before_next.
        * right. exists (S K). split; [lia|]. now split.
      + right. exists k. split; [lia|]. now split. }
  destruct Hq as [Hnone | Hq]; [|exact Hq].
  specialize (Hnone K ltac:(lia)). lia.
Qed.

Section LoneHit.
Variable st : Uint256.
Variable K : nat.
Hypothesis hit : difficulty <= score (tries st K).

Lemma lone_at_step a s s' m :
  lone_at st K s m -> step a s s' ->
  exists m', lone_at st K s' m' /\
             if is_tick a then m' = m else (m' < m)%nat.
Proof.
  intros (w & k & Hws & Hw & ->) Hstep.
  destruct Hstep;
    try (rewrite Hws in H; destruct i as [|i]; simpl in H; [|discriminate];
         injection H as ->).
  - (* cancelled *)
    eexists. split.
    + exists WReturn, k. split; [simpl; now rewrite Hws|].
      split; [exact I | reflexivity].
    + simpl. lia.
  - (* hash *)
    destruct Hw as (Hj & Hk). eexists. split.
    + eexists _, k. split; [simpl; now rewrite Hws|].
      split; [|reflexivity]. now repeat split.
    + simpl. lia.
  - (* the progress is sent *)
    eexists. split.
    + eexists _, k. split; [simpl; now rewrite Hws|].
      split; [exact Hw | reflexivity].
    + simpl. rewrite length_app. simpl. lia.
  - (* the result is sent *)
    eexists. split.
    + exists WReturn, k. split; [simpl; now rewrite Hws|].
      split; [exact I | reflexivity].
    + simpl. lia.
  - (* the next nonce *)
    destruct Hw as (-> & Hk & -> & ->).
    assert (Hlt : (k < K)%nat).
    { destruct (Nat.eq_dec k K) as [-> | Hne]; [|lia].
      unfold score in hit. lia. }
    eexists. split.
    + eexists _, (S k). split; [simpl; now rewrite Hws|].
      split; [|reflexivity]. split; [reflexivity | lia].
    + simpl. lia.
  - (* the printer returns *)
    eexists. split.
    + exists w, k. split; [exact Hws|]. split; [exact Hw | reflexivity].
    + generalize (lone_worker_rank K k w). intros x. simpl. rewrite H.
      simpl. lia.
  - (* a better sample *)
    eexists. split.
    + exists w, k. split; [exact Hws|]. split; [exact Hw | reflexivity].
    + generalize (lone_worker_rank K k w). intros x. simpl. rewrite H, H0.
      simpl. lia.
  - (* a sample that is no better *)
    eexists. split.
    + exists w, k. split; [exact Hws|]. split; [exact Hw | reflexivity].
    + generalize (lone_worker_rank K k w). intros x. simpl. rewrite H0.
      simpl. lia.
  - (* a tick *)
    eexists. split.
    + exists w, k. split; [exact Hws|]. split; [exact Hw | reflexivity].
    + generalize (lone_worker_rank K k w). intros x. simpl. rewrite H.
      reflexivity.
  - (* the caller receives *)
    eexists. split.
    + exists w, k. split; [exact Hws|]. split; [exact Hw | reflexivity].
    + generalize (lone_worker_rank K k w). intros x. simpl. rewrite H.
      simpl. lia.
  - (* the caller closes *)
    eexists. split.
    + exists w, k. split; [exact Hws|]. split; [exact Hw | reflexivity].
    + generalize (lone_worker_rank K k w). intros x. simpl. rewrite H.
      simpl. lia.
  - (* the caller has waited *)
    eexists. split.
    + exists w, k. split; [exact Hws|]. split; [exact Hw | reflexivity].
    + generalize (lone_worker_rank K k w). intros x. simpl. rewrite H.
      simpl. lia.
  - (* the caller is done *)
    eexists. split.
    + exists w, k. split; [exact Hws|]. split; [exact Hw | reflexivity].
    + generalize (lone_worker_rank K k w). intros x. simpl. rewrite H.
      simpl. lia.
Qed.

Lemma lone_run sched : forall s s' m,
  lone_at st K s m -> run sched s = Some s' ->
  exists m', lone_at st K s' m' /\ (moves sched + m' <= m)%nat.
Proof.
  unfold moves.
  induction sched as [|a rest IH]; intros s s' m Hat Hrun; simpl in Hrun.
  - injection Hrun as <-. exists m. split; [exact Hat | simpl; lia].
  - destruct (fire a s) as [s1|] eqn:Hf; [|discriminate].
    apply fire_step in Hf.
    destruct (lone_at_step a s s1 m Hat Hf) as (m1 & Hat1 & Hm1).
    destruct (IH s1 s' m1 Hat1 Hrun) as (m' & Hat' & Hle).
    exists m'. split; [exact Hat'|].
    rewrite filter_cons. destruct (is_tick a) eqn:Ht.
    + rewrite decide_False by discriminate. lia.
    + rewrite decide_True by reflexivity. simpl. lia.
Qed.

Lemma lone_drive_ends : forall fuel s m,
  nonceCh_cap = 1%nat -> inv_nonceCh s -> inv_received s ->
  lone_at st K s m -> (m <= fuel)%nat ->
  exists s', run (lone_drive fuel s) s = Some s' /\ ended s' = true.
Proof.
  induction fuel as [|fuel IH]; intros s m Hcap Hn Hr Hat Hm; simpl.
  - exists s. split; [reflexivity|].
    destruct Hat as (w & k & _ & _ & ->). unfold ended.
    destruct (caller_pc s); simpl in Hm; (reflexivity || lia).
  - destruct (ended s) eqn:Hend; [now exists s|].
    destruct (lone_next_enabled s Hcap Hn Hr Hend) as (Htick & s1 & Hfire).
    rewrite Hfire. simpl. rewrite Hfire.
    pose proof (fire_step _ _ _ Hfire) as Hstep.
    destruct (lone_at_step _ _ _ _ Hat Hstep) as (m1 & Hat1 & Hm1).
    rewrite Htick in Hm1.
    apply (IH s1 m1); [exact Hcap | | | exact Hat1 | lia].
    + now apply (inv_nonceCh_step (lone_next s) s).
    + now apply (inv_received_step (lone_next s) s).
Qed.

End LoneHit.

Lemma first_hit_unique st k n :
  none_before st k -> difficulty <= score (tries st k) ->
  first_hit_from st n -> n = result_at st k.
Proof.
  intros Hnone Hhit (k' & Hn & Hnone' & Hhit' & Hh & Hd).
  assert (k' = k) as ->.
  { destruct (Nat.lt_trichotomy k' k) as [Hlt | [Heq | Hgt]]; [|exact Heq|].
    - specialize (Hnone k' Hlt). rewrite Hn in Hhit'. lia.
    - specialize (Hnone' k Hgt). lia. }
  destruct n as [nonce d h]. simpl in *. subst nonce. subst d h.
  reflexivity.
Qed.

(** X8.  With one CPU and a nonce on the worker's way that meets the
    target, [nonceGen] ends, and ends the same way whatever the schedule:
    with [k] the first such nonce, no run takes more than 4 k + 9 steps
    other than ticks, some run comes to the end, and every run that does
    ends as the check of the result with that nonce says: it returns this
    result if [kms.IsIDPubNonceValid] accepts it and exits with status 1
    if not. *)
Theorem lone_worker_ends r K :
  cpuCount = 1 ->
  is_uint32 r ->
  difficulty <= score (tries (BitSliced.start cpuCount 0 r) K) ->
  exists k,
    (k <= K)%nat /\
    none_before (BitSliced.start cpuCount 0 r) k /\
    difficulty <= score (tries (BitSliced.start cpuCount 0 r) k) /\
    (forall sched s,
       run sched (init [r]) = Some s -> (moves sched <= 4 * k + 9)%nat) /\
    (exists sched s, run sched (init [r]) = Some s /\ ended s = true) /\
    (forall sched s o,
       run sched (init [r]) = Some s ->
       caller_pc s = MEnd o ->
       o = snd (nonceGen_finish (result_at (BitSliced.start cpuCount 0 r) k))).
Proof.
  intros Hcpu Hr Hit.
  set (st := BitSliced.start cpuCount 0 r) in *.
  destruct (least_hit st K Hit) as (k & Hk & Hnone & Hhit).
  assert (Hcap : nonceCh_cap = 1%nat) by (unfold nonceCh_cap; now rewrite Hcpu).
  assert (Hrs : draws_ok [r]).
  { split; [now rewrite Hcpu | now constructor]. }
  assert (Hinit : lone_at st k (init [r]) (4 * k + 9)).
  { exists (WSelect st), 0%nat. split; [reflexivity|].
    split; [split; [reflexivity | lia]|]. simpl. lia. }
  exists k. split; [exact Hk|]. split; [exact Hnone|]. split; [exact Hhit|].
  split; [|split].
  - intros sched s Hrun.
    destruct (lone_run st k Hhit sched _ _ _ Hinit Hrun) as (m' & _ & Hle).
    lia.
  - destruct (lone_drive_ends st k Hhit (4 * k + 9) (init [r]) (4 * k + 9)
                Hcap (inv_nonceCh_init [r] Hrs) (inv_received_init [r])
                Hinit (le_n _)) as (s & Hrun & Hend).
    now exists (lone_drive (4 * k + 9) (init [r])), s.
  - intros sched s o Hrun Hpc.
    assert (Hreach : reachable [r] s) by now exists sched.
    destruct (reachable_end [r] s Hreach o Hpc) as (n & Hfirst & ->).
    f_equal. f_equal. apply first_hit_unique; [exact Hnone | exact Hhit|].
    destruct Hfirst as (i & st' & Hst & Hrest).
    destruct i as [|i]; simpl in Hst; [|discriminate].
    injection Hst as <-. exact Hrest.
Qed.

Lemma caller_returned_true s :
  caller_returned s = true -> exists r, caller_pc s = MEnd (Returned r).
Proof.
  unfold caller_returned.
  destruct (caller_pc s) as [| | | | [r | code]]; try discriminate.
  intros _. now exists r.
Qed.

Lemma one_result_true s : one_result s = true -> exists n, nonceCh s = [n].
Proof.
  unfold one_result.
  destruct (nonceCh s) as [|n [|n' rest]]; try discriminate.
  intros _. now exists n.
Qed.

End MinerMoreFacts.

(** *** More CPUs than bits *)

(** X9.  With more than 256 CPUs [step := 256 / cpuCount] is 0: every
    worker of [nonceGen] gets the start bit 0 and starts at
    [{A: 1 + jitter}], and two workers that draw the same jitter start at
    the same nonce. *)
Theorem bit_sliced_many_cpus N i j r :
  256 < N ->
  is_uint32 r ->
  BitSliced.step N = 0 /\
  BitSliced.start N i r = {| A := 1 + r; B := 0; C := 0; D := 0 |} /\
  BitSliced.start N i r = BitSliced.start N j r.
Proof.
  intros HN Hr.
  assert (Hstep : BitSliced.step N = 0).
  { unfold BitSliced.step. apply Z.quot_small. lia. }
  assert (Hstart : forall k,
            BitSliced.start N k r = {| A := 1 + r; B := 0; C := 0; D := 0 |}).
  { intros k. unfold BitSliced.start, BitSliced.position, BitSliced.shift,
      BitSliced.startBit. rewrite Hstep, Z.mul_0_r. simpl.
    unfold BitSliced.seed. change (Z.shiftl 1 (Z.rem 0 64)) with 1.
    unfold is_uint32 in Hr. rewrite pow2_32 in Hr.
    rewrite (wrap64_small 1) by (rewrite pow2_64; lia).
    rewrite wrap64_small by (rewrite pow2_64; lia). reflexivity. }
  split; [exact Hstep|]. split; [apply Hstart|].
  now rewrite !Hstart.
Qed.

Lemma bit_sliced_many_cpus_witness :
  BitSliced.start 512 3 7 = {| A := 8; B := 0; C := 0; D := 0 |} /\
  BitSliced.start 512 3 7 = BitSliced.start 512 400 7.
Proof.
  destruct (bit_sliced_many_cpus 512 3 400 7 ltac:(lia)
              ltac:(unfold is_uint32; lia)) as (_ & Hstart & Hsame).
  split; [exact Hstart | exact Hsame].
Defined.

(** *** Runs of the sample miner *)

Lemma progress_lines_follow_witness :
  exists s,
    @run (Sample.env 7 2)
      [Worker 0; Worker 0; Printer on_tick; Printer on_progress; Printer on_tick]
      (@init (Sample.env 7 2) Sample.stall_draws) = Some s /\
    length (displayed (output s)) = 3%nat /\
    StronglySorted display_le (displayed (output s)).
Proof.
  destruct (@after_true (Sample.env 7 2)
              [Worker 0; Worker 0; Printer on_tick; Printer on_progress;
               Printer on_tick]
              (@init (Sample.env 7 2) Sample.stall_draws)
              (fun s => Nat.eqb (length (displayed (output s))) 3))
    as (s & Hrun & Hchk); [vm_compute; reflexivity|].
  exists s. split; [exact Hrun|]. split; [apply Nat.eqb_eq; exact Hchk|].
  exact (proj1 (proj2 (@progress_lines_follow (Sample.env 7 2)
                         Sample.stall_draws _ s Hrun))).
Defined.

Lemma result_is_first_hit_witness :
  exists s n,
    @run (Sample.env 7 2) [Worker 0; Worker 0; Worker 0]
      (@init (Sample.env 7 2) Sample.stall_draws) = Some s /\
    nonceCh s = [n] /\
    exists (i : nat) st k,
      @starts (Sample.env 7 2) Sample.stall_draws !! i = Some st /\
      Nonce n = @tries (Sample.env 7 2) st k /\
      @none_before (Sample.env 7 2) st k.
Proof.
  destruct (@after_true (Sample.env 7 2) [Worker 0; Worker 0; Worker 0]
              (@init (Sample.env 7 2) Sample.stall_draws)
              one_result)
    as (s & Hrun & Hchk); [vm_compute; reflexivity|].
  destruct (one_result_true s Hchk) as (n & Hq).
  exists s, n. split; [exact Hrun|]. split; [exact Hq|].
  destruct (@result_is_first_hit (Sample.env 7 2) Sample.stall_draws _ s n Hrun)
    as (i & st & k & Hst & Hn & Hnone & _).
  - left. rewrite Hq. apply elem_of_cons. left. reflexivity.
  - exists i, st, k. split; [exact Hst|]. split; [exact Hn | exact Hnone].
Defined.

Lemma progress_lines_show_scores_witness :
  exists s,
    @run (Sample.env 7 2)
      [Worker 0; Worker 0; Printer on_tick; Printer on_progress]
      (@init (Sample.env 7 2) Sample.stall_draws) = Some s /\
    length (displayed (output s)) = 2%nat /\
    Forall (fun p =>
              snd p = 0 \/
              @hashed (Sample.env 7 2) Sample.stall_draws
                [Worker 0; Worker 0; Printer on_tick; Printer on_progress]
                (snd p))
      (displayed (output s)).
Proof.
  destruct (@after_true (Sample.env 7 2)
              [Worker 0; Worker 0; Printer on_tick; Printer on_progress]
              (@init (Sample.env 7 2) Sample.stall_draws)
              (fun s => Nat.eqb (length (displayed (output s))) 2))
    as (s & Hrun & Hchk); [vm_compute; reflexivity|].
  exists s. split; [exact Hrun|]. split; [apply Nat.eqb_eq; exact Hchk|].
  exact (@progress_lines_show_scores (Sample.env 7 2)
           Sample.stall_draws _ s Hrun).
Defined.

Lemma shutdown_is_bounded_witness :
  exists s s',
    @run (Sample.env 7 2)
      [Worker 0; Worker 0; Worker 0; Worker 1; Caller; Caller]
      (@init (Sample.env 7 2) Sample.stall_draws) = Some s /\
    run [Printer on_tick; Printer on_stop; Worker 1; Worker 1; Worker 1] s
      = Some s' /\
    stopCh s' = true /\
    (4 + shutdown_rank s' <= shutdown_rank s)%nat.
Proof.
  destruct (@after_true (Sample.env 7 2)
              [Worker 0; Worker 0; Worker 0; Worker 1; Caller; Caller]
              (@init (Sample.env 7 2) Sample.stall_draws)
              (fun s => stopCh s &&
                        after [Printer on_tick; Printer on_stop; Worker 1;
                               Worker 1; Worker 1] s (fun _ => true)))
    as (s & Hrun & Hchk); [vm_compute; reflexivity|].
  apply andb_prop in Hchk as (Hstop & Hnext).
  apply after_true in Hnext as (s' & Hrun' & _).
  assert (Hrs : @draws_ok (Sample.env 7 2) Sample.stall_draws).
  { split; [reflexivity|]. repeat constructor; unfold is_uint32; lia. }
  destruct (@shutdown_is_bounded (Sample.env 7 2) Sample.stall_draws _ _ s s'
              Hrs Hrun Hstop Hrun') as (Hstop' & Hle & _).
  exists s, s'. split; [exact Hrun|]. split; [exact Hrun'|].
  split; [exact Hstop' | exact Hle].
Defined.

Lemma hangs_only_at_progress_send_witness :
  exists s i j h d,
    @run (Sample.env 7 2) Sample.stall_schedule
      (@init (Sample.env 7 2) Sample.stall_draws) = Some s /\
    ended s = false /\
    printer_pc s = PReturn /\
    workers s !! i = Some (WProgress j h d).
Proof.
  destruct (@after_true (Sample.env 7 2) Sample.stall_schedule
              (@init (Sample.env 7 2) Sample.stall_draws)
              (fun s => deadlockedb s && negb (ended s)))
    as (s & Hrun & Hchk); [vm_compute; reflexivity|].
  apply andb_prop in Hchk as (Hdead & Hend).
  apply negb_true_iff in Hend.
  assert (Hrs : @draws_ok (Sample.env 7 2) Sample.stall_draws).
  { split; [reflexivity|]. repeat constructor; unfold is_uint32; lia. }
  destruct (@hangs_only_at_progress_send (Sample.env 7 2) Sample.stall_draws
              _ s ltac:(simpl; lia) Hrs Hrun Hend
              (fun a _ => deadlockedb_sound s Hdead a))
    as (_ & _ & Hprinter & _ & _ & (i & j & h & d & Hw) & _).
  exists s, i, j, h, d. split; [exact Hrun|]. split; [exact Hend|].
  split; [exact Hprinter | exact Hw].
Defined.

Lemma returned_result_is_reported_witness :
  exists s n pre,
    @run (Sample.env 7 2)
      [Worker 0; Worker 0; Worker 0; Printer on_progress; Caller; Caller;
       Printer on_stop; Worker 1; Caller; Caller]
      (@init (Sample.env 7 2) Sample.stall_draws) = Some s /\
    caller_pc s = MEnd (Returned (Some n)) /\
    printed (output s) =
      pre ++ [Printf_newline; Printf_nonce n; Printf_node_id (Hash n)].
Proof.
  destruct (@after_true (Sample.env 7 2)
              [Worker 0; Worker 0; Worker 0; Printer on_progress; Caller;
               Caller; Printer on_stop; Worker 1; Caller; Caller]
              (@init (Sample.env 7 2) Sample.stall_draws)
              caller_returned)
    as (s & Hrun & Hchk); [vm_compute; reflexivity|].
  destruct (caller_returned_true s Hchk) as (r & Hpc).
  destruct (@returned_result_is_reported (Sample.env 7 2) Sample.stall_draws
              _ s r Hrun Hpc) as (n & pre & Hr & _ & _ & Hout & _).
  exists s, n, pre. split; [exact Hrun|]. split; [|exact Hout].
  rewrite Hpc. f_equal. f_equal. exact Hr.
Defined.

Lemma lone_worker_never_stuck_witness :
  exists s s',
    @run (Sample.env 8 1) [Worker 0; Worker 0]
      (@init (Sample.env 8 1) [250]) = Some s /\
    fire (lone_next s) s = Some s'.
Proof.
  destruct (@after_true (Sample.env 8 1) [Worker 0; Worker 0]
              (@init (Sample.env 8 1) [250]) (fun s => negb (ended s)))
    as (s & Hrun & Hchk); [vm_compute; reflexivity|].
  apply negb_true_iff in Hchk.
  destruct (@lone_worker_never_stuck (Sample.env 8 1) 250 _ s eq_refl
              ltac:(unfold is_uint32; lia) Hrun Hchk) as (_ & s' & Hfire).
  exists s, s'. split; [exact Hrun | exact Hfire].
Defined.

Lemma lone_worker_ends_witness :
  exists k sched s,
    (k <= 5)%nat /\
    @run (Sample.env 8 1) sched (@init (Sample.env 8 1) [250]) = Some s /\
    ended s = true.
Proof.
  destruct (@lone_worker_ends (Sample.env 8 1) 250 5 eq_refl
              ltac:(unfold is_uint32; lia)
              ltac:(apply Z.leb_le; vm_compute; reflexivity))
    as (k & Hk & _ & _ & _ & (sched & s & Hrun & Hend) & _).
  exists k, sched, s. split; [exact Hk|]. split; [exact Hrun | exact Hend].
Defined.

(** ** The commands [help] and [transfer] *)

Module CliFacts.
Import Cli.
Import Stdlib.Strings.String Stdlib.Strings.Ascii.

Section CommandFacts.
Context {env : CliEnv}.

(** *** The address of a dsn *)

Lemma all_in_sub p cutset :
  (forall c, in_cutset c p = true -> in_cutset c cutset = true) ->
  all_in p cutset = true.
Proof.
  induction p as [|x p IH]; intros Hsub; simpl; [reflexivity|].
  apply andb_true_intro. split.
  - apply Hsub. simpl. now rewrite Ascii.eqb_refl.
  - apply IH. intros c Hc. apply Hsub. simpl. rewrite Hc. apply orb_true_r.
Qed.

Lemma all_in_self p : all_in p p = true.
Proof. now apply all_in_sub. Qed.

Lemma TrimLeft_prefix p s cutset :
  all_in p cutset = true ->
  TrimLeft (p ++ s)%string cutset = TrimLeft s cutset.
Proof.
  induction p as [|x p IH]; simpl; [reflexivity|].
  intros Hall. apply andb_prop in Hall as (Hx & Hp).
  rewrite Hx. now apply IH.
Qed.

Lemma TrimLeft_suffix s cutset :
  exists cut, s = (cut ++ TrimLeft s cutset)%string.
Proof.
  induction s as [|x s IH]; simpl.
  - now exists EmptyString.
  - destruct (in_cutset x cutset).
    + destruct IH as (cut & Hcut). exists (String x cut). simpl.
      now rewrite <- Hcut.
    + now exists EmptyString.
Qed.

Lemma append_assoc_string (a b c : string) :
  ((a ++ b) ++ c = a ++ (b ++ c))%string.
Proof. induction a as [|x a IH]; simpl; [reflexivity | now rewrite IH]. Qed.

Lemma length_append_string (a b : string) :
  String.length (a ++ b)%string = (String.length a + String.length b)%nat.
Proof. induction a as [|x a IH]; simpl; [reflexivity | now rewrite IH]. Qed.

Lemma suffix_twice (id u v : string) :
  (exists cut, id = (cut ++ u)%string) ->
  (exists cut, u = (cut ++ v)%string) ->
  exists cut, id = (cut ++ v)%string.
Proof.
  intros (c1 & ->) (c2 & ->). exists (c1 ++ c2)%string.
  now rewrite append_assoc_string.
Qed.

Lemma suffix_shorter (id addr : string) c :
  (exists cut, id = (cut ++ addr)%string) -> addr <> String c id.
Proof.
  intros (cut & Hcut) ->. apply (f_equal String.length) in Hcut.
  rewrite length_append_string in Hcut. simpl in Hcut. lia.
Qed.

Lemma TrimLeft_clear id cutset :
  match id with
  | EmptyString => True
  | String c _ => in_cutset c cutset = false
  end ->
  TrimLeft id cutset = id.
Proof. destruct id as [|c id]; simpl; [reflexivity|]. now intros ->. Qed.

Lemma dsn_address_through p id :
  all_in p (DBSchemeAlias ++ "://")%string = true ->
  clear_start id ->
  dsn_address (p ++ id)%string = id.
Proof.
  unfold dsn_address. intros Hp Hid.
  induction p as [|x p IH]; simpl.
  - rewrite (TrimLeft_clear id (DBScheme ++ "://")%string)
      by (destruct id; [exact I | exact (proj1 Hid)]).
    apply TrimLeft_clear. destruct id; [exact I | exact (proj2 Hid)].
  - simpl in Hp. apply andb_prop in Hp as (Hx & Hp).
    destruct (in_cutset x (DBScheme ++ "://")%string); [now apply IH|].
    simpl. rewrite Hx. rewrite (TrimLeft_prefix p id _ Hp).
    apply TrimLeft_clear. destruct id; [exact I | exact (proj2 Hid)].
Qed.

Lemma dsn_address_main_scheme id :
  clear_start id ->
  dsn_address ((DBScheme ++ "://") ++ id)%string = id.
Proof.
  intros Hid. unfold dsn_address.
  rewrite (TrimLeft_prefix _ id _ (all_in_self _)).
  rewrite (TrimLeft_clear id (DBScheme ++ "://")%string)
    by (destruct id; [exact I | exact (proj1 Hid)]).
  apply TrimLeft_clear. destruct id; [exact I | exact (proj2 Hid)].
Qed.

(** X10.  The address [runTransfer] takes from [-to-dsn] is the part of
    the dsn after the scheme, for either scheme, when that part is empty
    or begins with a byte that occurs in neither scheme name nor in
    [://]. *)
Theorem dsn_address_round_trip id :
  clear_start id ->
  dsn_address ((DBScheme ++ "://") ++ id)%string = id /\
  dsn_address ((DBSchemeAlias ++ "://") ++ id)%string = id.
Proof.
  intros Hid. split.
  - now apply dsn_address_main_scheme.
  - apply dsn_address_through; [apply all_in_self | exact Hid].
Qed.

Lemma dsn_address_cut_through p c id :
  all_in p (DBSchemeAlias ++ "://")%string = true ->
  in_cutset c (DBSchemeAlias ++ "://")%string = true ->
  exists cut, id = (cut ++ dsn_address (p ++ String c id))%string.
Proof.
  unfold dsn_address. intros Hp Hc.
  induction p as [|x p IH]; simpl.
  - destruct (in_cutset c (DBScheme ++ "://")%string).
    + apply (suffix_twice id (TrimLeft id (DBScheme ++ "://")%string));
        apply TrimLeft_suffix.
    + simpl. rewrite Hc. apply TrimLeft_suffix.
  - simpl in Hp. apply andb_prop in Hp as (Hx & Hp).
    destruct (in_cutset x (DBScheme ++ "://")%string); [now apply IH|].
    simpl. rewrite Hx. rewrite (TrimLeft_prefix p _ _ Hp).
    simpl. rewrite Hc. apply TrimLeft_suffix.
Qed.

(** X11.  [strings.TrimLeft] takes its second argument as a set of
    bytes, not as a prefix: after the scheme [runTransfer] goes on
    cutting.  A database id that begins with a byte of the alias scheme
    or of [://] is never the address taken from the dsn, under either
    scheme: what is taken is a part of the id after its first byte.  Under
    the main scheme the same holds of an id that begins with a byte of the
    main scheme. *)
Theorem dsn_address_cuts_id c id :
  in_cutset c (DBScheme ++ "://")%string = true \/
  in_cutset c (DBSchemeAlias ++ "://")%string = true ->
  (exists cut,
     id = (cut ++ dsn_address ((DBScheme ++ "://") ++ String c id))%string) /\
  dsn_address ((DBScheme ++ "://") ++ String c id)%string <> String c id /\
  (in_cutset c (DBSchemeAlias ++ "://")%string = true ->
   (exists cut,
      id = (cut ++ dsn_address ((DBSchemeAlias ++ "://") ++ String c id))%string) /\
   dsn_address ((DBSchemeAlias ++ "://") ++ String c id)%string <> String c id).
Proof.
  intros Hc.
  assert (Hmain : exists cut,
            id = (cut ++ dsn_address ((DBScheme ++ "://") ++ String c id))%string).
  { unfold dsn_address.
    rewrite (TrimLeft_prefix _ (String c id) _ (all_in_self _)).
    simpl. destruct (in_cutset c (DBScheme ++ "://")%string) eqn:H1.
    - apply (suffix_twice id (TrimLeft id (DBScheme ++ "://")%string));
        apply TrimLeft_suffix.
    - destruct Hc as [Hc | Hc]; [discriminate|].
      simpl. rewrite Hc. apply TrimLeft_suffix. }
  split; [exact Hmain|]. split; [now apply suffix_shorter|].
  intros Halias.
  pose proof (dsn_address_cut_through _ c id (all_in_self _)
                Halias) as Hcut.
  split; [exact Hcut | now apply suffix_shorter].
Qed.

(** *** What a command writes and how it ends *)

Lemma printParamHelp_done flagSet :
  exists calls,
    printParamHelp flagSet = (calls, Done tt) /\
    forallb is_write calls = true.
Proof.
  unfold printParamHelp, func, when, mbind, M_bind, bind, perform, ret.
  destruct (negb (FlagSet_Name flagSet =? EmptyString)%string);
    eexists; split; reflexivity.
Qed.

Lemma printCommandHelp_done cmd :
  exists calls,
    printCommandHelp cmd = (calls, Done tt) /\
    forallb is_write calls = true.
Proof.
  unfold printCommandHelp.
  assert (Hflag : forall flag : option FlagSet,
            exists calls,
              match flag with
              | Some flagSet => printParamHelp flagSet
              | None => ret tt
              end = (calls, Done tt) /\ forallb is_write calls = true).
  { intros [flagSet|]; [apply printParamHelp_done|].
    exists []. split; reflexivity. }
  destruct (Hflag (Flag cmd)) as (c1 & -> & H1).
  destruct (Hflag (CommonFlag cmd)) as (c2 & -> & H2).
  destruct (Hflag (DebugFlag cmd)) as (c3 & -> & H3).
  cbv beta iota zeta delta [func mbind M_bind bind perform]. cbn [app].
  eexists. split; [reflexivity|].
  cbn [forallb is_write andb]. rewrite !forallb_app, H1, H2, H3. reflexivity.
Qed.

(** Reduction of the commands, the calls to [printCommandHelp] kept. *)
Ltac crunch :=
  cbv beta iota zeta delta
    [fst snd bind func when perform Exit return_ ret mbind M_bind negb andb orb];
  cbn [app].

Ltac split_cases :=
  repeat match goal with
  | |- context [if ?b then _ else _] => destruct b eqn:?; crunch
  | |- context [match NewHashFromStr ?x with inl _ => _ | inr _ => _ end] =>
      destruct (NewHashFromStr x) eqn:?; crunch
  | |- context [match TransferToken ?x ?y ?z with inl _ => _ | inr _ => _ end] =>
      destruct (TransferToken x y z) eqn:?; crunch
  | |- context [match wait ?x with Some _ => _ | None => _ end] =>
      destruct (wait x) eqn:?; crunch
  end.

Lemma no_args (args : list string) :
  (0 <? List.length args)%nat = false -> args = [].
Proof. destruct args; [reflexivity | discriminate]. Qed.

Lemma writes_only (help : list call) c :
  forallb is_write help = true -> In c help -> is_write c = true.
Proof. intros Hall Hin. rewrite forallb_forall in Hall. now apply Hall. Qed.

Lemma writes_no_status (help rest : list call) :
  forallb is_write help = true ->
  List.filter is_exit_status (help ++ rest) = List.filter is_exit_status rest.
Proof.
  intros Hall. induction help as [|c help IH]; [reflexivity|].
  simpl in Hall. apply andb_prop in Hall as (Hc & Hall).
  simpl. destruct c; try discriminate. now apply IH.
Qed.

(** The facts of a case, from the tests. *)
Ltac props :=
  repeat match goal with
  | H : context [if ?b then _ else _] |- _ =>
      destruct b eqn:?; try discriminate H
  end;
  repeat match goal with
  | H : (0 <? List.length _)%nat = false |- _ => apply no_args in H
  | H : (_ =? _)%string = true |- _ => apply String.eqb_eq in H
  | H : (_ =? _)%string = false |- _ => apply String.eqb_neq in H
  end.

(** The members of a list of calls, one by one; a member of the help
    text is a write. *)
Ltac members Hin Hwrites :=
  cbn [In] in Hin;
  repeat (destruct Hin as [Hin | Hin]; [try discriminate Hin|]);
  try (exfalso; exact Hin);
  try (exfalso; apply in_app_or in Hin as [Hin | [Hin | []]];
       [ apply (writes_only _ _ Hwrites) in Hin; discriminate Hin
       | discriminate Hin ]).

(** X12.  [runTransfer] calls [client.TransferToken] only when the
    command line is in order: no argument is left over, a token type is
    given and listed, one of [-to-user] and [-to-dsn] is given and not the
    other, a dsn begins with one of the two schemes, and
    [hash.NewHashFromStr] accepts the address, which is the wallet address
    or what is cut from the dsn.  The call is made once, for that account,
    the amount of the flag and the token type of the flag, right after
    [configInit()] and before anything is written or logged, and the
    process is not ended through [Exit()]. *)
Theorem transfer_is_guarded cmd args target amt unit :
  In (Do_TransferToken target amt unit) (fst (runTransfer cmd args)) ->
  args = [] /\
  tokenType <> EmptyString /\
  Listed (FromString tokenType) = true /\
  (toUser = EmptyString <-> toDSN <> EmptyString) /\
  (toUser = EmptyString ->
   HasPrefix toDSN DBScheme = true \/ HasPrefix toDSN DBSchemeAlias = true) /\
  NewHashFromStr (if (toUser =? EmptyString)%string
                  then dsn_address toDSN else toUser) = inl target /\
  amt = amount /\
  unit = FromString tokenType /\
  exists rest,
    fst (runTransfer cmd args) =
      Do_commonFlagsInit cmd :: Do_configInit ::
      Do_TransferToken target amt unit :: rest /\
    List.filter is_transfer rest = [] /\
    ~ In Do_Exit rest.
Proof.
  unfold runTransfer.
  destruct (printCommandHelp_done cmd) as (help & -> & Hwrites).
  crunch. split_cases; intros Hin; members Hin Hwrites.
  all: injection Hin as <- <- <-; props.
  all: try discriminate.
  all: repeat match goal with |- _ /\ _ => split end;
       try assumption; try reflexivity; try congruence;
       try (split; intros; congruence);
       try (intros; (now left) || (now right));
       try (eexists; split; [reflexivity|]; split; [reflexivity|];
            cbn [In]; intuition discriminate).
Qed.

(** X13.  [runTransfer] logs its success line exactly when it does not
    call [SetExitStatus]; it calls [SetExitStatus] once at most, with 1,
    and right after an error line.  When the success line is logged it is
    the last call, the function returns, [client.TransferToken] has been
    called and has returned no error, and with [-wait-tx-confirm] [wait]
    has been called for the transaction it returned and has returned no
    error; [wait] is called in no other case. *)
Theorem transfer_reports_outcome cmd args :
  let calls := fst (runTransfer cmd args) in
  (In success_line calls <-> List.filter is_exit_status calls = []) /\
  (List.filter is_exit_status calls = [] \/
   List.filter is_exit_status calls = [Do_SetExitStatus 1] /\
   exists pre err msg post,
     calls = pre ++ Log_Error err msg :: Do_SetExitStatus 1 :: post) /\
  (In success_line calls ->
   snd (runTransfer cmd args) = Done tt /\
   exists pre target txHash,
     calls = pre ++ [success_line] /\
     In (Do_TransferToken target amount (FromString tokenType)) pre /\
     TransferToken target amount (FromString tokenType) = inl txHash /\
     (waitTxConfirmation = true -> In (Do_wait txHash) pre /\ wait txHash = None)) /\
  (forall txHash,
     In (Do_wait txHash) calls ->
     waitTxConfirmation = true /\
     exists target,
       In (Do_TransferToken target amount (FromString tokenType)) calls /\
       TransferToken target amount (FromString tokenType) = inl txHash).
Proof.
  unfold runTransfer, success_line.
  destruct (printCommandHelp_done cmd) as (help & -> & Hwrites).
  crunch. split_cases.
  all: cbn [List.filter is_exit_status];
       rewrite ?(writes_no_status help _ Hwrites);
       cbn [List.filter is_exit_status].
  all: split; [split; [intros Hin; members Hin Hwrites; reflexivity
                      | intros Hnone;
                        first [discriminate Hnone
                              | cbn [In]; intuition (auto; fail)]]|].
  all: split;
       [ first
           [ left; reflexivity
           | right; split; [reflexivity|];
             first [ (eexists [_]; do 3 eexists; reflexivity)
                   | (eexists [_; _; _]; do 3 eexists; reflexivity)
                   | (eexists [_; _; _; _]; do 3 eexists; reflexivity) ] ]|].
  all: split.
  all: try match goal with
       | |- In _ _ -> _ =>
           intros Hin; members Hin Hwrites;
           (split; [reflexivity|]);
           first [ (eexists [_; _; _], _, _; split; [reflexivity|];
                    split; [cbn [In]; right; right; left; reflexivity|];
                    split; [eassumption|];
                    intros Hw; congruence)
                 | (eexists [_; _; _; _], _, _; split; [reflexivity|];
                    split; [cbn [In]; right; right; left; reflexivity|];
                    split; [eassumption|];
                    intros _; split;
                    [cbn [In]; right; right; right; left; reflexivity
                    | assumption]) ]
       end.
  all: intros tx Hin; members Hin Hwrites;
       (injection Hin as <-; split; [reflexivity|]; eexists; split;
        [cbn [In]; right; right; left; reflexivity | eassumption]).
Qed.

Lemma prefix_append p s : String.prefix p (p ++ s)%string = true.
Proof.
  induction p as [|x p IH]; simpl; [now destruct s|].
  destruct (ascii_dec x x) as [_ | Hne]; [exact IH | congruence].
Qed.

Lemma scheme_dsn_facts scheme id :
  HasPrefix ((scheme ++ "://") ++ id)%string scheme = true /\
  (((scheme ++ "://") ++ id) =? EmptyString)%string = false.
Proof.
  split.
  - unfold HasPrefix. rewrite append_assoc_string. apply prefix_append.
  - apply String.eqb_neq. intros Hempty.
    apply (f_equal String.length) in Hempty.
    rewrite !length_append_string in Hempty. simpl in Hempty. lia.
Qed.

(** X14.  With no argument left over, a listed token type and a dsn
    made of one of the two schemes, [://] and an id that is empty or begins
    with a byte of neither scheme nor of [://], [runTransfer] calls
    [client.TransferToken] for the account [hash.NewHashFromStr] makes of
    that id, with the amount and the token type of the flags: it is the
    third call, after [commonFlagsInit] and [configInit]. *)
Theorem transfer_reaches_account cmd id target :
  tokenType <> EmptyString ->
  Listed (FromString tokenType) = true ->
  toUser = EmptyString ->
  toDSN = ((DBScheme ++ "://") ++ id)%string \/
  toDSN = ((DBSchemeAlias ++ "://") ++ id)%string ->
  clear_start id ->
  NewHashFromStr id = inl target ->
  exists rest,
    fst (runTransfer cmd []) =
      Do_commonFlagsInit cmd :: Do_configInit ::
      Do_TransferToken target amount (FromString tokenType) :: rest.
Proof.
  intros Htoken Hlisted Huser Hdsn Hid Hhash.
  apply String.eqb_neq in Htoken. apply String.eqb_eq in Huser.
  pose proof (dsn_address_main_scheme id Hid) as Hmain.
  pose proof (dsn_address_through _ id (all_in_self _) Hid) as Halias.
  assert (Hfacts : (toDSN =? EmptyString)%string = false /\
                   negb (HasPrefix toDSN DBScheme) &&
                     negb (HasPrefix toDSN DBSchemeAlias) = false /\
                   dsn_address toDSN = id).
  { destruct Hdsn as [-> | ->].
    - destruct (scheme_dsn_facts DBScheme id) as (-> & ->). now split.
    - destruct (scheme_dsn_facts DBSchemeAlias id) as (-> & ->).
      split; [reflexivity|]. split; [|exact Halias].
      now rewrite andb_false_r. }
  destruct Hfacts as (Hnonempty & Hprefix & Haddr).
  unfold runTransfer.
  cbn [List.length Nat.ltb Nat.leb].
  rewrite Huser, Hnonempty, Htoken, Hlisted, Hprefix.
  cbv beta iota zeta delta
    [fst snd bind func when perform Exit return_ ret mbind M_bind negb andb orb].
  rewrite Haddr, Hhash. crunch. split_cases; eexists; reflexivity.
Qed.

(** *** [runHelp] *)

Lemma MainUsage_ends :
  exists calls,
    MainUsage = (calls, Exited) \/ MainUsage = (calls, Panicked).
Proof.
  unfold MainUsage.
  destruct (CommonFlag (addConfigFlag (addCommonFlags CmdHelp)));
    destruct (DebugFlag (addConfigFlag (addCommonFlags CmdHelp)));
    crunch; eexists; (now left) || (now right).
Qed.

Lemma runHelp_commands_lookup cmdName cmds :
  runHelp_commands cmdName cmds =
    match lookup_command cmdName cmds with
    | Some command => (fst (printCommandHelp command), Return)
    | None => (Do_SetExitStatus 2 :: fst MainUsage, snd MainUsage)
    end.
Proof.
  induction cmds as [|command rest IH]; cbn [runHelp_commands lookup_command].
  - destruct MainUsage as [calls e]. reflexivity.
  - destruct (Command_Name command =? cmdName)%string; cbn [negb];
      [|exact IH].
    destruct (printCommandHelp_done command) as (calls & -> & _).
    crunch. now rewrite app_nil_r.
Qed.

(** X15.  [runHelp] with no argument writes the main usage and sets no
    status; with one argument that is the name of a command it writes the
    help of the first command of that name in [CqlCommands], sets no status
    and returns; with one argument that names no command, and with more
    than one argument, it calls [SetExitStatus(2)] and writes the main
    usage.  [MainUsage] does not come back (it ends the process through
    [Exit()], unless a flag set of [CmdHelp] is [nil] and it panics), so
    that [args[0]] is never read from an empty [args]. *)
Theorem runHelp_outcomes cmd args :
  (snd MainUsage = Exited \/ snd MainUsage = Panicked) /\
  (CommonFlag (addConfigFlag (addCommonFlags CmdHelp)) <> None ->
   DebugFlag (addConfigFlag (addCommonFlags CmdHelp)) <> None ->
   snd MainUsage = Exited /\
   exists text, MainUsage = ([Write_Stdout text; Do_Exit], Exited)) /\
  match args with
  | [] => runHelp cmd args = MainUsage
  | [cmdName] =>
      match lookup_command cmdName CqlCommands with
      | Some command => runHelp cmd args = printCommandHelp command
      | None =>
          runHelp cmd args = (Do_SetExitStatus 2 :: fst MainUsage, snd MainUsage)
      end
  | _ :: _ :: _ =>
      runHelp cmd args = (Do_SetExitStatus 2 :: fst MainUsage, snd MainUsage)
  end.
Proof.
  split; [|split].
  - destruct MainUsage_ends as (calls & [-> | ->]); [now left | now right].
  - unfold MainUsage.
    destruct (CommonFlag (addConfigFlag (addCommonFlags CmdHelp)));
      [|congruence].
    destruct (DebugFlag (addConfigFlag (addCommonFlags CmdHelp)));
      [|congruence].
    intros _ _. crunch. split; [reflexivity|]. eexists. reflexivity.
  - unfold runHelp. destruct args as [|cmdName [|second rest]].
    + destruct MainUsage_ends as (calls & [-> | ->]); reflexivity.
    + cbn [List.length Nat.eqb negb when]. rewrite runHelp_commands_lookup.
      destruct (lookup_command cmdName CqlCommands) as [command|].
      * destruct (printCommandHelp_done command) as (calls & -> & _).
        reflexivity.
      * destruct MainUsage_ends as (calls & [-> | ->]); reflexivity.
    + destruct MainUsage_ends as (calls & [-> | ->]); reflexivity.
Qed.

End CommandFacts.

(** *** Runs of the sample commands *)

Lemma dsn_address_round_trip_witness :
  @dsn_address (Sample.env EmptyString EmptyString) "cqlprotocol://0ffe"%string
    = "0ffe"%string /\
  @dsn_address (Sample.env EmptyString EmptyString) "covenantsql://0ffe"%string
    = "0ffe"%string.
Proof.
  destruct (@dsn_address_round_trip (Sample.env EmptyString EmptyString)
              "0ffe"%string) as (Hmain & Halias).
  - split; reflexivity.
  - split; [exact Halias | exact Hmain].
Defined.

Lemma dsn_address_cuts_id_witness :
  @dsn_address (Sample.env EmptyString EmptyString) "cqlprotocol://c0ffe"%string
    = "0ffe"%string /\
  @dsn_address (Sample.env EmptyString EmptyString) "cqlprotocol://c0ffe"%string
    <> "c0ffe"%string /\
  @dsn_address (Sample.env EmptyString EmptyString) "covenantsql://c0ffe"%string
    <> "c0ffe"%string.
Proof.
  destruct (@dsn_address_cuts_id (Sample.env EmptyString EmptyString)
              "c"%char "0ffe"%string) as (_ & Hmain & Halias).
  - right. reflexivity.
  - split; [reflexivity|]. split; [|exact Hmain].
    apply Halias. reflexivity.
Defined.

Lemma transfer_is_guarded_witness :
  In (@Do_TransferToken (Sample.env EmptyString "cqlprotocol://c0ffe")
        "0ffe"%string 100 "Particle"%string)
     (fst (@runTransfer (Sample.env EmptyString "cqlprotocol://c0ffe")
             CmdTransfer [])) /\
  @NewHashFromStr (Sample.env EmptyString "cqlprotocol://c0ffe")
    (@dsn_address (Sample.env EmptyString "cqlprotocol://c0ffe")
       "cqlprotocol://c0ffe"%string) = inl "0ffe"%string.
Proof.
  assert (Hin : In (@Do_TransferToken
                      (Sample.env EmptyString "cqlprotocol://c0ffe")
                      "0ffe"%string 100 "Particle"%string)
                   (fst (@runTransfer
                           (Sample.env EmptyString "cqlprotocol://c0ffe")
                           CmdTransfer []))).
  { right. right. left. reflexivity. }
  split; [exact Hin|].
  destruct (@transfer_is_guarded
              (Sample.env EmptyString "cqlprotocol://c0ffe") CmdTransfer []
              "0ffe"%string 100 "Particle"%string Hin)
    as (_ & _ & _ & _ & _ & Haddr & _).
  exact Haddr.
Defined.

Lemma transfer_reaches_account_witness :
  exists rest,
    fst (@runTransfer (Sample.env EmptyString "cqlprotocol://beef")
           CmdTransfer []) =
      @Do_commonFlagsInit (Sample.env EmptyString "cqlprotocol://beef")
        CmdTransfer ::
      Do_configInit ::
      @Do_TransferToken (Sample.env EmptyString "cqlprotocol://beef")
        "beef"%string 100 "Particle"%string :: rest.
Proof.
  apply (@transfer_reaches_account
           (Sample.env EmptyString "cqlprotocol://beef") CmdTransfer
           "beef"%string "beef"%string).
  - discriminate.
  - reflexivity.
  - reflexivity.
  - right. reflexivity.
  - split; reflexivity.
  - reflexivity.
Defined.

Lemma transfer_reports_outcome_witness :
  In success_line
    (fst (@runTransfer (Sample.env "beef" EmptyString) CmdTransfer [])) /\
  List.filter is_exit_status
    (fst (@runTransfer (Sample.env "beef" EmptyString) CmdTransfer [])) = [] /\
  List.filter is_exit_status
    (fst (@runTransfer (Sample.env "beef" "cqlprotocol://beef") CmdTransfer []))
    = [Do_SetExitStatus 1].
Proof.
  destruct (@transfer_reports_outcome (Sample.env "beef" EmptyString)
              CmdTransfer []) as (Hiff & _).
  assert (Hnone : List.filter is_exit_status
            (fst (@runTransfer (Sample.env "beef" EmptyString) CmdTransfer []))
            = []) by reflexivity.
  split; [apply Hiff; exact Hnone|]. split; [exact Hnone | reflexivity].
Defined.

Lemma runHelp_outcomes_witness :
  @runHelp (Sample.env EmptyString EmptyString) CmdHelp ["transfer"%string]
    = @printCommandHelp (Sample.env EmptyString EmptyString) CmdTransfer /\
  snd (@runHelp (Sample.env EmptyString EmptyString) CmdHelp []) = Exited /\
  fst (@runHelp (Sample.env EmptyString EmptyString) CmdHelp ["mine"%string])
    = Do_SetExitStatus 2 ::
      fst (@MainUsage (Sample.env EmptyString EmptyString)).
Proof.
  destruct (@runHelp_outcomes (Sample.env EmptyString EmptyString) CmdHelp
              ["transfer"%string]) as (_ & _ & Hone).
  destruct (@runHelp_outcomes (Sample.env EmptyString EmptyString) CmdHelp
              []) as (_ & Hexit & Hnone).
  destruct (@runHelp_outcomes (Sample.env EmptyString EmptyString) CmdHelp
              ["mine"%string]) as (_ & _ & Hunknown).
  split; [exact Hone|]. split.
  - rewrite Hnone. apply Hexit; discriminate.
  - exact (f_equal fst Hunknown).
Defined.

End CliFacts.
